(** * Workflow execution engine (ExecutionEngine, src/lib/execution/engine.ts)

    A shallow embedding of the engine that walks a workflow graph, resolves
    [{{...}}] templates against the outputs of earlier nodes and records a
    [WorkflowExecution] snapshot, together with the properties the
    specification states about it.

    Modelling conventions.
    - JavaScript values are the inductive [JsValue]; numbers are integers
      ([Z]), printed in decimal as [String(n)] prints them.  Plain objects
      are association lists in insertion order ([Object.entries] order);
      the engine's own records keyed by node id ([nodeOutputs],
      [nodeExecutions]) and [env] are finite maps, whose keys are taken not
      to collide with properties inherited from [Object.prototype].  The
      alias map, whose keys are the names given to nodes, is modelled with
      its prototype ([AliasMap]).
    - Strings are sequences of one-byte characters; white space is the
      ASCII white space that [\s] and [trim()] recognise.
    - Clock readings and generated identifiers ([Date.now], [Math.random],
      [startTime], [endTime], [duration], log ids) carry no control flow and
      are left out of the records.
    - A block implementation is a function from its [RunContext] to what
      happens while the engine awaits it: the [setNodeOutput] and [log]
      calls it makes, whether the host called [stop()] meanwhile, and the
      value it resolves to or the error it rejects with. *)

From Stdlib Require Import ZArith Lia Ascii String.
From stdpp Require Import base tactics option list strings pretty gmap sets.

Set Warnings "-register-all,-clear-no-such-hyp".

Local Open Scope string_scope.
Local Open Scope Z_scope.

(* ===================================================================== *)
(** ** JavaScript values *)
(* ===================================================================== *)

Inductive JsValue : Type :=
  | JUndefined
  | JNull
  | JBool (b : bool)
  | JNum (n : Z)
  | JStr (s : string)
  | JArr (items : list JsValue)
  | JObj (props : list (string * JsValue)).

(** [Record<string, unknown>]: own enumerable properties in insertion order. *)
Abbreviation Obj := (list (string * JsValue)).

Module Js.

(** [o[k]] on a plain object (own properties only). *)
Fixpoint obj_get (k : string) (o : Obj) : JsValue :=
  match o with
  | [] => JUndefined
  | (k', v) :: o' => if String.eqb k k' then v else obj_get k o'
  end.

(** [o[k] = v]: overwrite in place, or append a new property. *)
Fixpoint obj_set (k : string) (v : JsValue) (o : Obj) : Obj :=
  match o with
  | [] => [(k, v)]
  | (k', v') :: o' =>
      if String.eqb k k' then (k', v) :: o' else (k', v') :: obj_set k v o'
  end.

(** [Object.assign(target, src)]. *)
Definition obj_assign (target src : Obj) : Obj :=
  fold_left (fun acc kv => obj_set kv.1 kv.2 acc) src target.

(** The object literal [{ ...a, ...b }]. *)
Definition spread2 (a b : Obj) : Obj := obj_assign (obj_assign [] a) b.

(** [!v] is false, i.e. [v] is truthy. *)
Definition truthy (v : JsValue) : bool :=
  match v with
  | JUndefined | JNull => false
  | JBool b => b
  | JNum n => negb (n =? 0)
  | JStr s => negb (String.eqb s "")
  | JArr _ | JObj _ => true
  end.

(** [v == null]. *)
Definition nullish (v : JsValue) : bool :=
  match v with JUndefined | JNull => true | _ => false end.

(** [a ?? b]. *)
Definition coalesce (a b : JsValue) : JsValue := if nullish a then b else a.

(** [typeof v === 'object'] (which also holds of [null]). *)
Definition typeof_object (v : JsValue) : bool :=
  match v with JNull | JArr _ | JObj _ => true | _ => false end.

Definition join (sep : string) (l : list string) : string :=
  match l with
  | [] => ""
  | s :: l' => fold_left (fun acc t => acc +:+ sep +:+ t) l' s
  end.

(** [String(v)].  Array elements that are [null] or [undefined] print as
    the empty string, as [Array.prototype.join] has it. *)
Fixpoint to_string (v : JsValue) : string :=
  match v with
  | JUndefined => "undefined"
  | JNull => "null"
  | JBool true => "true"
  | JBool false => "false"
  | JNum n => pretty n
  | JStr s => s
  | JArr items =>
      join "," ((fix elems (l : list JsValue) : list string :=
                   match l with
                   | [] => []
                   | x :: l' => (if nullish x then "" else to_string x) :: elems l'
                   end) items)
  | JObj _ => "[object Object]"
  end.

(** ASCII white space: tab, line feed, vertical tab, form feed, carriage
    return, space. *)
Definition is_space (c : ascii) : bool :=
  let n := Ascii.nat_of_ascii c in
  ((9 <=? n) && (n <=? 13) || (n =? 32))%nat.

Fixpoint trim_start (s : string) : string :=
  match s with
  | String c s' => if is_space c then trim_start s' else s
  | EmptyString => EmptyString
  end.

Fixpoint trim_end (s : string) : string :=
  match s with
  | String c s' =>
      match trim_end s' with
      | EmptyString => if is_space c then EmptyString else String c EmptyString
      | t => String c t
      end
  | EmptyString => EmptyString
  end.

(** [s.trim()]. *)
Definition trim (s : string) : string := trim_end (trim_start s).

(** [s.split(sep)] for a one-character separator: always at least one
    part. *)
Fixpoint split (sep : ascii) (s : string) : list string :=
  match s with
  | EmptyString => [EmptyString]
  | String c s' =>
      if Ascii.eqb c sep then EmptyString :: split sep s'
      else match split sep s' with
           | p :: ps => String c p :: ps
           | [] => [String c EmptyString]
           end
  end.

(** A canonical array index: decimal digits without a leading zero. *)
Definition digit (c : ascii) : option nat :=
  let n := Ascii.nat_of_ascii c in
  if ((48 <=? n) && (n <=? 57))%nat then Some (n - 48)%nat else None.

Fixpoint digits (acc : nat) (s : string) : option nat :=
  match s with
  | EmptyString => Some acc
  | String c s' =>
      match digit c with
      | Some d => digits (10 * acc + d)%nat s'
      | None => None
      end
  end.

Definition array_index (s : string) : option nat :=
  match s with
  | EmptyString => None
  | String "0" EmptyString => Some 0%nat
  | String "0" _ => None
  | _ => digits 0 s
  end.

(** [v[p]] for a value that is not [null] or [undefined]: own properties
    of objects, [length] and indices of arrays and of strings (a primitive
    string is boxed for the access). *)
Definition get_prop (v : JsValue) (p : string) : JsValue :=
  match v with
  | JObj o => obj_get p o
  | JArr items =>
      if String.eqb p "length" then JNum (Z.of_nat (length items))
      else match array_index p with
           | Some i => default JUndefined (items !! i)
           | None => JUndefined
           end
  | JStr s =>
      if String.eqb p "length" then JNum (Z.of_nat (String.length s))
      else match array_index p with
           | Some i =>
               match String.get i s with
               | Some c => JStr (String c EmptyString)
               | None => JUndefined
               end
           | None => JUndefined
           end
  | _ => JUndefined
  end.

(** The members a plain object inherits from [Object.prototype], each with
    what [String] gives of its value (V8's text of a built-in function; the
    getter of [__proto__] answers with [Object.prototype] itself).  [None]:
    not a name of [Object.prototype]. *)
Definition prototype_text (k : string) : option string :=
  if String.eqb k "__proto__" then Some "[object Object]"
  else if String.eqb k "constructor" then
    Some "function Object() { [native code] }"
  else if existsb (String.eqb k)
            ["__defineGetter__"; "__defineSetter__"; "hasOwnProperty";
             "__lookupGetter__"; "__lookupSetter__"; "isPrototypeOf";
             "propertyIsEnumerable"; "toString"; "valueOf"; "toLocaleString"]
  then Some ("function " +:+ k +:+ "() { [native code] }")
  else None.

End Js.

(* ===================================================================== *)
(** ** Data model (src/lib/types) *)
(* ===================================================================== *)

Record WorkflowNode := {
  n_id : string;
  n_type : string;
  n_data : Obj;
}.

Record WorkflowEdge := {
  e_id : string;
  e_source : string;
  e_target : string;
}.

Record Workflow := {
  wf_id : string;
  wf_name : string;
  starterId : string;
  nodes : list WorkflowNode;
  edges : list WorkflowEdge;
}.

Inductive LogLevel := Info | Warn | Error.

Record ExecutionLog := {
  log_nodeId : option string;
  log_message : string;
  log_level : LogLevel;
}.

Inductive NodeStatus := NodeRunning | NodeSuccess | NodeError.

Record NodeExecution := {
  ne_nodeId : string;
  ne_status : NodeStatus;
  ne_outputs : option Obj;
  ne_error : option string;
}.

Inductive WorkflowStatus := Running | Success | Failed | Cancelled.

Record WorkflowExecution := {
  workflowId : string;
  status : WorkflowStatus;
  logs : list ExecutionLog;
  nodeExecutions : gmap string NodeExecution;
}.

(** [options?: { onlyNodeId?: string; existingExecution?: WorkflowExecution }] *)
Record Options := {
  onlyNodeId : option string;
  existingExecution : option WorkflowExecution;
}.

Definition no_options : Options :=
  {| onlyNodeId := None; existingExecution := None |}.

(** A thrown value: an [Error] instance with its message, or anything else. *)
Inductive JsError :=
  | ErrorObj (message : string)
  | ThrownValue (v : JsValue).

(** [error instanceof Error ? error.message : 'Unknown error'] *)
Definition errorMessage (e : JsError) : string :=
  match e with
  | ErrorObj m => m
  | ThrownValue _ => "Unknown error"
  end.

#[global] Instance NodeStatus_eq_dec : EqDecision NodeStatus.
Proof. solve_decision. Defined.
#[global] Instance WorkflowStatus_eq_dec : EqDecision WorkflowStatus.
Proof. solve_decision. Defined.

(* ===================================================================== *)
(** ** The alias map *)
(* ===================================================================== *)

(** [aliasMap: Record<string, string | null> = {}], a plain object used as
    a map: its own properties ([None] for [null]) and whether it still has
    [Object.prototype] as its prototype. *)
Record AliasMap := {
  am_own : gmap string (option string);
  am_proto : bool;
}.

(** The object literal [{}]. *)
#[global] Instance AliasMap_empty : Empty AliasMap :=
  {| am_own := ∅; am_proto := true |}.

(** What [aliasMap[k]] evaluates to. *)
Inductive AliasValue :=
  | AliasUndefined
  | AliasNull
  | AliasId (id : string)
  | AliasInherited (text : string).

(** [aliasMap[k]]: the own property, else the member inherited from
    [Object.prototype] (given by its text, all it is used for is to be a
    property key), else [undefined]. *)
Definition alias_get (aliasMap : AliasMap) (k : string) : AliasValue :=
  match am_own aliasMap !! k with
  | Some (Some id) => AliasId id
  | Some None => AliasNull
  | None =>
      if am_proto aliasMap then
        match Js.prototype_text k with
        | Some text => AliasInherited text
        | None => AliasUndefined
        end
      else AliasUndefined
  end.

(** [aliasMap[k] = v].  While the object has its prototype, assigning to
    [__proto__] runs the inherited setter: [null] removes the prototype, a
    string is ignored.  Any other assignment makes an own property. *)
Definition alias_set (k : string) (v : option string) (aliasMap : AliasMap)
    : AliasMap :=
  if am_proto aliasMap && String.eqb k "__proto__" then
    match v with
    | None => {| am_own := am_own aliasMap; am_proto := false |}
    | Some _ => aliasMap
    end
  else {| am_own := <[k := v]> (am_own aliasMap);
          am_proto := am_proto aliasMap |}.

(* ===================================================================== *)
(** ** Template resolver (the closures inside [executeNode]) *)
(* ===================================================================== *)

Section Templates.

Variable env : gmap string string.
(** [prevId]: the source of the only incoming edge, or [undefined]. *)
Variable prevId : option string.
Variable nodeOutputs : gmap string Obj.
Variable aliasMap : AliasMap.

(** The loop of [getByPath] over [path.split('.')]. *)
Fixpoint walkPath (cur : JsValue) (parts : list string) : JsValue :=
  match parts with
  | [] => cur
  | p :: parts' =>
      if negb (Js.truthy cur) then JUndefined
      else walkPath (Js.get_prop cur p) parts'
  end.

Definition getByPath (obj : JsValue) (path : string) : JsValue :=
  if negb (Js.truthy obj) || negb (Js.typeof_object obj) then JUndefined
  else walkPath obj (Js.split "." path).

(** [v != null ? String(v) : ''] *)
Definition printValue (v : JsValue) : string :=
  if Js.nullish v then "" else Js.to_string v.

(** [const [root, ...rest] = raw.split('.'); const path = rest.join('.')] *)
Definition splitRoot (raw : string) : string * string :=
  match Js.split "." raw with
  | root :: rest => (root, Js.join "." rest)
  | [] => ("", "")
  end.

(** The replacer callback: what one [{{ expr }}] is replaced with. *)
Definition resolveExpr (expr : string) : string :=
  let raw := Js.trim expr in
  let (root, path) := splitRoot raw in
  if String.eqb root "" then ""
  else if String.eqb root "env" then
    if String.eqb path "" then "" else default "" (env !! path)
  else if String.eqb root "prev" then
    match prevId with
    | None => ""
    | Some pid =>
        if String.eqb pid "" then ""
        else
          let v :=
            if String.eqb path "" then
              match nodeOutputs !! pid with
              | Some o => JObj o
              | None => JUndefined
              end
            else getByPath (JObj (default [] (nodeOutputs !! pid))) path in
          printValue v
    end
  else
    let targetId :=
      match alias_get aliasMap root with
      | AliasUndefined => Some root
      | AliasNull => None
      | AliasId id => Some id
      | AliasInherited text => Some text
      end in
    match targetId with
    | None => ""
    | Some tid =>
        match nodeOutputs !! tid with
        | None => ""
        | Some outputs =>
            printValue
              (if String.eqb path "" then JObj outputs
               else getByPath (JObj outputs) path)
        end
    end.

(** The longest prefix without a closing brace, and what follows it. *)
Fixpoint spanNoBrace (s : string) : string * string :=
  match s with
  | String c s' =>
      if Ascii.eqb c "}" then (EmptyString, s)
      else let (run, rest) := spanNoBrace s' in (String c run, rest)
  | EmptyString => (EmptyString, EmptyString)
  end.

Fixpoint lastChar (s : string) : string :=
  match s with
  | String c EmptyString => s
  | String _ s' => lastChar s'
  | EmptyString => EmptyString
  end.

(** The capture group of [\s*([^}]+)\s*] on a run of non-brace
    characters: the greedy [\s*] takes the leading white space, and gives
    one character back when nothing else is left for the group. *)
Definition captureGroup (run : string) : string :=
  match Js.trim_start run with
  | EmptyString => lastChar run
  | g => g
  end.

(** A match of [/\{\{\s*([^}]+)\s*\}\}/] anchored at the start of [s]:
    the captured text and the length of the whole match. *)
Definition matchAt (s : string) : option (string * nat) :=
  match s with
  | String "{" (String "{" s1) =>
      match spanNoBrace s1 with
      | (String c run, String "}" (String "}" _)) =>
          Some (captureGroup (String c run),
                (4 + String.length (String c run))%nat)
      | _ => None
      end
  | _ => None
  end.

(** [val.replace(/.../g, replacer)]: leftmost matches, left to right, not
    overlapping; [skip] counts the characters of a match still to drop. *)
Fixpoint replaceFrom (skip : nat) (s : string) : string :=
  match s with
  | EmptyString => EmptyString
  | String c s' =>
      match skip with
      | S k => replaceFrom k s'
      | O =>
          match matchAt s with
          | Some (expr, len) => resolveExpr expr +:+ replaceFrom (len - 1) s'
          | None => String c (replaceFrom 0 s')
          end
      end
  end.

Definition resolveString (s : string) : string := replaceFrom 0 s.

Fixpoint resolveTemplatesDeep (val : JsValue) : JsValue :=
  match val with
  | JStr s => JStr (resolveString s)
  | JArr items => JArr (map resolveTemplatesDeep items)
  | JObj props =>
      JObj (fold_left
              (fun o kv => Js.obj_set kv.1 (resolveTemplatesDeep kv.2) o)
              props [])
  | _ => val
  end.

End Templates.

(* ===================================================================== *)
(** ** Blocks and their run context *)
(* ===================================================================== *)

(** What a block sees.  [getNodeOutput] and [setNodeOutput] are closures
    over [nodeOutputs] and [prevId]; the record keeps what they close over
    at the moment [run] is called. *)
Record RunContext := {
  ctx_workflowId : string;
  ctx_nodeId : string;
  inputs : JsValue;
  ctx_env : gmap string string;
  ctx_nodeOutputs : gmap string Obj;
  ctx_prevId : option string;
  ctx_aborted : bool;
  isSingleNodeExecution : bool;
}.

(** [context.getNodeOutput(nodeId, key?)] *)
Definition getNodeOutput (ctx : RunContext) (nodeId : string)
    (key : option string) : JsValue :=
  if String.eqb nodeId "*" then
    JObj (map (fun kv => (kv.1, JObj kv.2)) (map_to_list (ctx_nodeOutputs ctx)))
  else
    let nid :=
      match ctx_prevId ctx with
      | Some pid =>
          if String.eqb nodeId "prev" && negb (String.eqb pid "") then pid
          else nodeId
      | None => nodeId
      end in
    let outputs := ctx_nodeOutputs ctx !! nid in
    match key with
    | Some k =>
        if String.eqb k "" then from_option JObj JUndefined outputs
        else from_option (Js.obj_get k) JUndefined outputs
    | None => from_option JObj JUndefined outputs
    end.

(** A call a block makes on its context while it runs. *)
Inductive BlockCall :=
  | CallSetNodeOutput (key : string) (value : JsValue)
  | CallLog (message : JsValue).

(** One awaited [blockConfig.run(context)]: the calls made, in order;
    whether the host called [stop()] on the engine meanwhile; and the value
    the promise resolves to ([inl]) or the error it rejects with ([inr]). *)
Record BlockRun := {
  calls : list BlockCall;
  hostStopped : bool;
  settled : JsValue + JsError;
}.

Definition Block := RunContext -> BlockRun.

(** What a subscriber ([onLog], [onNodeUpdate]) does when called: return,
    call [stop()] on the engine and return, or throw.  An absent subscriber
    is one that always returns. *)
Inductive CallbackResult :=
  | CbReturn
  | CbStop
  | CbThrow (e : JsError).

(* ===================================================================== *)
(** ** The engine monad: state, exceptions, fuel *)
(* ===================================================================== *)

(** The mutable state of one [executeWorkflow] call.  [started] and
    [contexts] are history variables (the source has no such fields): the
    ids for which [executeNode] was entered and the contexts handed to
    [run], both in order. *)
Record EngineState := {
  execution : WorkflowExecution;
  nodeOutputs : gmap string Obj;
  aborted : bool;
  started : list string;
  contexts : list RunContext;
}.

Inductive Res (A : Type) :=
  | Ok (a : A)
  | Throw (e : JsError)
  | OutOfFuel.
Arguments Ok {A} a.
Arguments Throw {A} e.
Arguments OutOfFuel {A}.

Definition M (A : Type) : Type := EngineState -> Res A * EngineState.

Definition ret {A} (a : A) : M A := fun st => (Ok a, st).

Definition bind {A B} (m : M A) (k : A -> M B) : M B := fun st =>
  match m st with
  | (Ok a, st') => k a st'
  | (Throw e, st') => (Throw e, st')
  | (OutOfFuel, st') => (OutOfFuel, st')
  end.

Definition throw {A} (e : JsError) : M A := fun st => (Throw e, st).

Definition out_of_fuel {A} : M A := fun st => (OutOfFuel, st).

(** [try { m } catch (error) { h error }] *)
Definition try_catch {A} (m : M A) (h : JsError -> M A) : M A := fun st =>
  match m st with
  | (Throw e, st') => h e st'
  | r => r
  end.

Definition get : M EngineState := fun st => (Ok st, st).

Definition modify (f : EngineState -> EngineState) : M unit :=
  fun st => (Ok tt, f st).

Notation "'let*' x ':=' m 'in' k" := (bind m (fun x => k))
  (at level 10, x name, m at level 100, k at level 200).
Notation "m ;;; k" := (bind m (fun _ => k))
  (at level 100, k at level 200, right associativity).

Definition when (b : bool) (m : M unit) : M unit := if b then m else ret tt.

Fixpoint for_each {A} (l : list A) (f : A -> M unit) : M unit :=
  match l with
  | [] => ret tt
  | x :: l' => f x ;;; for_each l' f
  end.

(** *** State updates *)

Definition with_execution (f : WorkflowExecution -> WorkflowExecution)
    (st : EngineState) : EngineState :=
  {| execution := f (execution st); nodeOutputs := nodeOutputs st;
     aborted := aborted st; started := started st; contexts := contexts st |}.

Definition with_nodeOutputs (f : gmap string Obj -> gmap string Obj)
    (st : EngineState) : EngineState :=
  {| execution := execution st; nodeOutputs := f (nodeOutputs st);
     aborted := aborted st; started := started st; contexts := contexts st |}.

Definition with_aborted (b : bool) (st : EngineState) : EngineState :=
  {| execution := execution st; nodeOutputs := nodeOutputs st;
     aborted := b; started := started st; contexts := contexts st |}.

Definition with_started (f : list string -> list string)
    (st : EngineState) : EngineState :=
  {| execution := execution st; nodeOutputs := nodeOutputs st;
     aborted := aborted st; started := f (started st);
     contexts := contexts st |}.

Definition with_contexts (f : list RunContext -> list RunContext)
    (st : EngineState) : EngineState :=
  {| execution := execution st; nodeOutputs := nodeOutputs st;
     aborted := aborted st; started := started st;
     contexts := f (contexts st) |}.

Definition set_status (s : WorkflowStatus) (ex : WorkflowExecution)
    : WorkflowExecution :=
  {| workflowId := workflowId ex; status := s; logs := logs ex;
     nodeExecutions := nodeExecutions ex |}.

Definition push_log (l : ExecutionLog) (ex : WorkflowExecution)
    : WorkflowExecution :=
  {| workflowId := workflowId ex; status := status ex; logs := logs ex ++ [l];
     nodeExecutions := nodeExecutions ex |}.

Definition with_nodeExecutions
    (f : gmap string NodeExecution -> gmap string NodeExecution)
    (ex : WorkflowExecution) : WorkflowExecution :=
  {| workflowId := workflowId ex; status := status ex; logs := logs ex;
     nodeExecutions := f (nodeExecutions ex) |}.

Definition ne_set_status (s : NodeStatus) (ne : NodeExecution) : NodeExecution :=
  {| ne_nodeId := ne_nodeId ne; ne_status := s; ne_outputs := ne_outputs ne;
     ne_error := ne_error ne |}.

Definition ne_set_outputs (o : Obj) (ne : NodeExecution) : NodeExecution :=
  {| ne_nodeId := ne_nodeId ne; ne_status := ne_status ne;
     ne_outputs := Some o; ne_error := ne_error ne |}.

Definition ne_set_error (m : string) (ne : NodeExecution) : NodeExecution :=
  {| ne_nodeId := ne_nodeId ne; ne_status := ne_status ne;
     ne_outputs := ne_outputs ne; ne_error := Some m |}.

(** [execution.status = s] *)
Definition setStatus (s : WorkflowStatus) : M unit :=
  modify (with_execution (set_status s)).

(** A field assignment on the [nodeExecution] object of node [id], which
    is the object stored under [execution.nodeExecutions[id]]. *)
Definition updateNodeExecution (id : string)
    (f : NodeExecution -> NodeExecution) : M unit :=
  modify (with_execution (with_nodeExecutions (alter f id))).

(** [this.abortController.abort()] *)
Definition stop : M unit := modify (with_aborted true).


(* ===================================================================== *)
(** ** ExecutionEngine *)
(* ===================================================================== *)

Definition quote : string := String "034"%char EmptyString.

(** [String(n.data?.alias ?? n.data?.refName ?? n.type).trim()] *)
Definition aliasOf (n : WorkflowNode) : string :=
  Js.trim
    (Js.to_string
       (Js.coalesce (Js.obj_get "alias" (n_data n))
          (Js.coalesce (Js.obj_get "refName" (n_data n)) (JStr (n_type n))))).

(** One iteration of the alias-map loop (the [seen] counters are never
    read and are left out). *)
Definition aliasStep (aliasMap : AliasMap) (n : WorkflowNode) : AliasMap :=
  let alias := aliasOf n in
  if String.eqb alias "" then aliasMap
  else match alias_get aliasMap alias with
       | AliasUndefined => alias_set alias (Some (n_id n)) aliasMap
       | _ => alias_set alias None aliasMap
       end.

Definition buildAliasMap (ns : list WorkflowNode) : AliasMap :=
  fold_left aliasStep ns ∅.

Definition findNode (workflow : Workflow) (id : string) : option WorkflowNode :=
  List.find (fun n => String.eqb (n_id n) id) (nodes workflow).

(** [validateWorkflow]: [None] when it returns, [Some e] when it throws [e]. *)
Definition validateWorkflow (workflow : Workflow) : option JsError :=
  match nodes workflow with
  | [] => Some (ErrorObj "Workflow has no nodes")
  | _ =>
      match findNode workflow (starterId workflow) with
      | None => Some (ErrorObj "Start node not found")
      | Some _ => None
      end
  end.

Definition inList (x : string) (l : list string) : bool :=
  existsb (String.eqb x) l.

(** [getConnectedNodes]: the nodes, in the order of [workflow.nodes], whose
    id is the target of an edge leaving [fromNodeId]. *)
Definition getConnectedNodes (workflow : Workflow) (fromNodeId : string)
    : list WorkflowNode :=
  let connectedNodeIds :=
    map e_target
      (filter (fun e => String.eqb (e_source e) fromNodeId = true)
         (edges workflow)) in
  filter (fun n => inList (n_id n) connectedNodeIds = true) (nodes workflow).

(** [options?.onlyNodeId?.trim()], with every falsy outcome ([undefined],
    the empty string) as [None]: the engine only ever tests it for
    truthiness before using it. *)
Definition singleNodeIdOf (options : Options) : option string :=
  match onlyNodeId options with
  | Some s => let t := Js.trim s in if String.eqb t "" then None else Some t
  | None => None
  end.

(** [workflow.edges.filter(e => e.target === node.id).map(e => e.source)] *)
Definition incoming (workflow : Workflow) (nodeId : string) : list string :=
  map e_source
    (filter (fun e => String.eqb (e_target e) nodeId = true) (edges workflow)).

(** [incoming.length === 1 ? incoming[0] : undefined] *)
Definition prevIdOf (workflow : Workflow) (nodeId : string) : option string :=
  match incoming workflow nodeId with
  | [src] => Some src
  | _ => None
  end.

(** The fresh [execution] object, or the spread of the existing one. *)
Definition initialExecution (workflow : Workflow) (options : Options)
    : WorkflowExecution :=
  match existingExecution options with
  | Some ex => set_status Running ex
  | None =>
      {| workflowId := wf_id workflow; status := Running; logs := [];
         nodeExecutions := ∅ |}
  end.

Definition initialState (workflow : Workflow) (options : Options)
    : EngineState :=
  {| execution := initialExecution workflow options; nodeOutputs := ∅;
     aborted := false; started := []; contexts := [] |}.

Section Engine.

(** The block registry: [Some run] when [getBlockConfig(type)] has a
    [run], [None] when the type is unknown or not executable. *)
Variable getBlockConfig : string -> option Block.
Variable onLog : ExecutionLog -> CallbackResult.
Variable onNodeUpdate : string -> NodeExecution -> CallbackResult.

Definition callback (r : CallbackResult) : M unit :=
  match r with
  | CbReturn => ret tt
  | CbStop => stop
  | CbThrow e => throw e
  end.

(** [this.log(execution, level, message, nodeId?)] *)
Definition log (level : LogLevel) (message : string)
    (nodeId : option string) : M unit :=
  let l := {| log_nodeId := nodeId; log_message := message;
              log_level := level |} in
  modify (with_execution (push_log l)) ;;;
  callback (onLog l).

(** [this.onNodeUpdate?.(node.id, nodeExecution)] *)
Definition notifyNodeUpdate (id : string) : M unit :=
  let* st := get in
  match nodeExecutions (execution st) !! id with
  | Some ne => callback (onNodeUpdate id ne)
  | None => ret tt
  end.

(** [context.setNodeOutput(key, value)] of the node [id] *)
Definition setNodeOutput (id key : string) (value : JsValue) : M unit :=
  modify (with_nodeOutputs (fun outs =>
    <[id := Js.obj_set key value (default [] (outs !! id))]> outs)).

Definition blockCall (id : string) (c : BlockCall) : M unit :=
  match c with
  | CallSetNodeOutput key value => setNodeOutput id key value
  | CallLog message => log Info (Js.to_string message) (Some id)
  end.

(** What happens while [blockConfig.run(context)] is awaited, [r] being
    the run.  A [log] call that throws (a throwing subscriber) ends the run
    with that error. *)
Definition settleRun (id : string) (r : BlockRun) : M JsValue :=
  for_each (calls r) (blockCall id) ;;;
  when (hostStopped r) stop ;;;
  match settled r with
  | inl result => ret result
  | inr error => throw error
  end.

(** [await blockConfig.run(context)] *)
Definition awaitRun (id : string) (run : Block) (context : RunContext)
    : M JsValue :=
  modify (with_contexts (fun h => (h ++ [context])%list)) ;;;
  settleRun id (run context).

Definition buildContext (workflow : Workflow) (node : WorkflowNode)
    (env : gmap string string) (aliasMap : AliasMap)
    (singleNodeId : option string) (st : EngineState) : RunContext :=
  let prevId := prevIdOf workflow (n_id node) in
  {| ctx_workflowId := wf_id workflow;
     ctx_nodeId := n_id node;
     inputs := resolveTemplatesDeep env prevId (nodeOutputs st) aliasMap
                 (JObj (n_data node));
     ctx_env := env;
     ctx_nodeOutputs := nodeOutputs st;
     ctx_prevId := prevId;
     ctx_aborted := aborted st;
     isSingleNodeExecution := bool_decide (is_Some singleNodeId) |}.

(** [(result && typeof result === 'object' && !Array.isArray(result))] *)
Definition objectLike (result : JsValue) : option Obj :=
  match result with
  | JObj o => Some o
  | _ => None
  end.

Definition returnOutputsOf (result : JsValue) : Obj :=
  match objectLike result with
  | Some o => o
  | None => [("value", result)]
  end.

(** The statements of the [try] block that follow the [await]. *)
Definition recordResult (node : WorkflowNode) (result : JsValue) : M unit :=
  let id := n_id node in
  updateNodeExecution id (ne_set_status NodeSuccess) ;;;
  let returnOutputs := returnOutputsOf result in
  let* st1 := get in
  updateNodeExecution id
    (ne_set_outputs
       (Js.spread2 (default [] (nodeOutputs st1 !! id)) returnOutputs)) ;;;
  match objectLike result with
  | Some o =>
      modify (with_nodeOutputs (fun outs =>
        <[id := Js.spread2 (default [] (outs !! id)) o]> outs))
  | None => ret tt
  end ;;;
  when (negb (String.eqb (n_type node) "starter"))
    (log Info ("✅ " +:+ n_type node +:+ " completed") (Some id)).

(** The [try] block of [executeNode]. *)
Definition nodeTry (workflow : Workflow) (node : WorkflowNode)
    (env : gmap string string) (aliasMap : AliasMap)
    (singleNodeId : option string) : M unit :=
  let id := n_id node in
  when (negb (String.eqb (n_type node) "starter"))
    (log Info ("⚡ " +:+ n_type node +:+ ": " +:+ id) (Some id)) ;;;
  match getBlockConfig (n_type node) with
  | None =>
      throw (ErrorObj ("Block type " +:+ n_type node
                       +:+ " not found or not executable"))
  | Some run =>
      let* st := get in
      let context :=
        buildContext workflow node env aliasMap singleNodeId st in
      let* result := awaitRun id run context in
      recordResult node result
  end.

(** The [catch] block of [executeNode]. *)
Definition nodeCatch (id : string) (error : JsError) : M unit :=
  updateNodeExecution id (ne_set_status NodeError) ;;;
  updateNodeExecution id (ne_set_error (errorMessage error)) ;;;
  log Error ("🚨 Node failed: " +:+ errorMessage error) (Some id) ;;;
  throw error.

Definition executeNode (workflow : Workflow) (node : WorkflowNode)
    (env : gmap string string) (aliasMap : AliasMap)
    (singleNodeId : option string) : M unit :=
  let id := n_id node in
  let nodeExecution :=
    {| ne_nodeId := id; ne_status := NodeRunning; ne_outputs := None;
       ne_error := None |} in
  modify (with_execution (with_nodeExecutions (insert id nodeExecution))) ;;;
  modify (with_started (fun h => (h ++ [id])%list)) ;;;
  notifyNodeUpdate id ;;;
  try_catch (nodeTry workflow node env aliasMap singleNodeId)
    (nodeCatch id) ;;;
  notifyNodeUpdate id.

(** The [catch] block around [executeNode] in the loop. *)
Definition loopCatch (node : WorkflowNode) (error : JsError) : M unit :=
  setStatus Failed ;;;
  log Error ("❌ Node " +:+ quote +:+ n_id node +:+ quote
             +:+ " failed: " +:+ errorMessage error) None ;;;
  throw error.

(** The [while (queue.length > 0)] loop of [executeWorkflow].  [fuel]
    bounds the number of iterations; [executeWorkflow] supplies enough
    of it (see [loop_fuel_enough]). *)
Fixpoint loop (fuel : nat) (workflow : Workflow) (env : gmap string string)
    (aliasMap : AliasMap) (singleNodeId : option string)
    (visited : gset string) (queue : list string) : M unit :=
  match queue with
  | [] => ret tt
  | nodeId :: queue' =>
      match fuel with
      | O => out_of_fuel
      | S fuel' =>
          let* st := get in
          if aborted st then setStatus Cancelled
          else if bool_decide (nodeId ∈ visited) then
            loop fuel' workflow env aliasMap singleNodeId visited queue'
          else
            let visited' := {[nodeId]} ∪ visited in
            match findNode workflow nodeId with
            | None =>
                loop fuel' workflow env aliasMap singleNodeId visited' queue'
            | Some node =>
                try_catch
                  (executeNode workflow node env aliasMap singleNodeId)
                  (loopCatch node) ;;;
                let queue'' :=
                  match singleNodeId with
                  | Some _ => queue'
                  | None =>
                      (queue' ++
                       filter (fun id => id ∉ visited')
                         (map n_id (getConnectedNodes workflow nodeId)))%list
                  end in
                loop fuel' workflow env aliasMap singleNodeId visited' queue''
            end
      end
  end.

(** An upper bound on the iterations of the loop: every iteration either
    drops a queue entry or visits a new node, and a visit enqueues at
    most one entry per node of the workflow. *)
Definition loopFuel (workflow : Workflow) : nat :=
  S (S (length (nodes workflow) * length (nodes workflow))).

(** The restore loop over [Object.entries(execution.nodeExecutions)]. *)
Definition restoreOutputs : M unit :=
  let* st := get in
  for_each (map_to_list (nodeExecutions (execution st)))
    (fun entry =>
       match ne_outputs entry.2 with
       | Some outputs =>
           modify (with_nodeOutputs (insert entry.1 outputs)) ;;;
           log Info ("📋 Restored outputs from previous execution: "
                     +:+ entry.1) None
       | None => ret tt
       end).

(** The body of the outer [try] of [executeWorkflow]. *)
Definition runWorkflow (workflow : Workflow) (env : gmap string string)
    (options : Options) : M unit :=
  match validateWorkflow workflow with
  | Some e => throw e
  | None =>
      let aliasMap := buildAliasMap (nodes workflow) in
      let singleNodeId := singleNodeIdOf options in
      when (bool_decide (is_Some singleNodeId)) restoreOutputs ;;;
      let startNode :=
        match singleNodeId with
        | Some sel => findNode workflow sel
        | None => findNode workflow (starterId workflow)
        end in
      match startNode with
      | None =>
          throw (ErrorObj (if bool_decide (is_Some singleNodeId)
                           then "Selected node not found"
                           else "Start node not found"))
      | Some startNode =>
          loop (loopFuel workflow) workflow env aliasMap singleNodeId
            ∅ [n_id startNode] ;;;
          let* st := get in
          if bool_decide (status (execution st) = Cancelled) then ret tt
          else
            setStatus Success ;;;
            log Info "✅ Workflow completed" None
      end
  end.

(** The outer [catch] block of [executeWorkflow]. *)
Definition workflowCatch (error : JsError) : M unit :=
  setStatus Failed ;;;
  log Error ("💥 Workflow failed: " +:+ errorMessage error) None.

Definition executeWorkflowM (workflow : Workflow) (env : gmap string string)
    (options : Options) : M WorkflowExecution :=
  log Info ("🚀 Starting workflow: " +:+ wf_name workflow) None ;;;
  try_catch (runWorkflow workflow env options) workflowCatch ;;;
  let* st := get in
  ret (execution st).

(** [engine.executeWorkflow(workflow, env, options)]: the promise's
    outcome ([Ok] resolved snapshot, [Throw] rejection) and the state the
    call leaves behind. *)
Definition executeWorkflow (workflow : Workflow) (env : gmap string string)
    (options : Options) : Res WorkflowExecution * EngineState :=
  executeWorkflowM workflow env options (initialState workflow options).

End Engine.

(* ===================================================================== *)
(** ** Reasoning about monadic code *)
(* ===================================================================== *)

Lemma bind_Ok_inv {A B} (m : M A) (k : A -> M B) st b st' :
  bind m k st = (Ok b, st') ->
  exists a st1, m st = (Ok a, st1) /\ k a st1 = (Ok b, st').
Proof.
  unfold bind. destruct (m st) as [[a|e|] st1]; intros H; try discriminate.
  eauto.
Qed.

Lemma bind_Throw_inv {A B} (m : M A) (k : A -> M B) st e st' :
  bind m k st = (Throw e, st') ->
  m st = (Throw e, st') \/
  exists a st1, m st = (Ok a, st1) /\ k a st1 = (Throw e, st').
Proof.
  unfold bind. destruct (m st) as [[a|e0|] st1]; intros H; try discriminate.
  - right. eauto.
  - left. congruence.
Qed.

Lemma bind_run_Ok {A B} (m : M A) (k : A -> M B) st a st1 :
  m st = (Ok a, st1) -> bind m k st = k a st1.
Proof. unfold bind. intros ->. reflexivity. Qed.

Lemma bind_run_Throw {A B} (m : M A) (k : A -> M B) st e st1 :
  m st = (Throw e, st1) -> bind m k st = (Throw e, st1).
Proof. unfold bind. intros ->. reflexivity. Qed.

Lemma try_catch_run_Ok {A} (m : M A) h st a st1 :
  m st = (Ok a, st1) -> try_catch m h st = (Ok a, st1).
Proof. unfold try_catch. intros ->. reflexivity. Qed.

Lemma try_catch_run_Throw {A} (m : M A) h st e st1 :
  m st = (Throw e, st1) -> try_catch m h st = h e st1.
Proof. unfold try_catch. intros ->. reflexivity. Qed.

(** [keeps R m]: [m] never runs out of fuel, and relates the state it
    starts in to the state it ends in by [R], however it ends. *)
Definition keeps {A} (R : relation EngineState) (m : M A) : Prop :=
  forall st, (m st).1 <> OutOfFuel /\ R st (m st).2.

Section Keeps.

Context (R : relation EngineState) `{!PreOrder R}.

Lemma keeps_ret {A} (a : A) : keeps R (ret a).
Proof. intros st. split; [discriminate | reflexivity]. Qed.

Lemma keeps_throw {A} (e : JsError) : keeps R (@throw A e).
Proof. intros st. split; [discriminate | reflexivity]. Qed.

Lemma keeps_get : keeps R get.
Proof. intros st. split; [discriminate | reflexivity]. Qed.

Lemma keeps_modify f : (forall st, R st (f st)) -> keeps R (modify f).
Proof. intros H st. split; [discriminate | apply H]. Qed.

Lemma keeps_bind {A B} (m : M A) (k : A -> M B) :
  keeps R m -> (forall a, keeps R (k a)) -> keeps R (bind m k).
Proof.
  intros Hm Hk st. unfold bind.
  destruct (Hm st) as [Hne HR].
  destruct (m st) as [[a|e|] st1]; simpl in *; try done.
  destruct (Hk a st1) as [Hne' HR'].
  split; [done | by etrans].
Qed.

Lemma keeps_try_catch {A} (m : M A) (h : JsError -> M A) :
  keeps R m -> (forall e, keeps R (h e)) -> keeps R (try_catch m h).
Proof.
  intros Hm Hh st. unfold try_catch.
  destruct (Hm st) as [Hne HR].
  destruct (m st) as [[a|e|] st1]; simpl in *; try done.
  destruct (Hh e st1) as [Hne' HR'].
  split; [done | by etrans].
Qed.

Lemma keeps_when b (m : M unit) : keeps R m -> keeps R (when b m).
Proof. destruct b; simpl; [done | intros _; apply keeps_ret]. Qed.

Lemma keeps_for_each {A} (l : list A) (f : A -> M unit) :
  (forall x, keeps R (f x)) -> keeps R (for_each l f).
Proof.
  intros Hf. induction l as [|x l IH]; simpl.
  - apply keeps_ret.
  - apply keeps_bind; [apply Hf | intros _; apply IH].
Qed.

End Keeps.

(** *** Frames: what a piece of engine code leaves alone *)

(** Apart from appending log lines and raising the abort flag, nothing
    changes. *)
Record log_frame (st st' : EngineState) : Prop := {
  lf_workflowId : workflowId (execution st') = workflowId (execution st);
  lf_status : status (execution st') = status (execution st);
  lf_nodeExecutions :
    nodeExecutions (execution st') = nodeExecutions (execution st);
  lf_logs : logs (execution st) `prefix_of` logs (execution st');
  lf_nodeOutputs : nodeOutputs st' = nodeOutputs st;
  lf_started : started st' = started st;
  lf_contexts : contexts st' = contexts st;
  lf_aborted : aborted st = true -> aborted st' = true;
}.

(** The frame of the execution of node [id]: the workflow status, the
    history of started nodes and the records and outputs of all other
    nodes are left alone; the record of [id] stays present. *)
Record node_frame (id : string) (st st' : EngineState) : Prop := {
  nf_workflowId : workflowId (execution st') = workflowId (execution st);
  nf_status : status (execution st') = status (execution st);
  nf_nodeExecutions : forall n, n <> id ->
    nodeExecutions (execution st') !! n = nodeExecutions (execution st) !! n;
  nf_present : is_Some (nodeExecutions (execution st) !! id) ->
    is_Some (nodeExecutions (execution st') !! id);
  nf_nodeOutputs : forall n, n <> id -> nodeOutputs st' !! n = nodeOutputs st !! n;
  nf_started : started st' = started st;
  nf_aborted : aborted st = true -> aborted st' = true;
}.

#[global] Instance log_frame_preorder : PreOrder log_frame.
Proof.
  split.
  - intros st. by split.
  - intros a b c [] []. split; try congruence; try tauto. by etrans.
Qed.

#[global] Instance node_frame_preorder id : PreOrder (node_frame id).
Proof.
  split.
  - intros st. by split.
  - intros a b c [] []. split; try congruence; try tauto.
    + intros n Hn. rewrite nf_nodeExecutions1, nf_nodeExecutions0; done.
    + intros n Hn. rewrite nf_nodeOutputs1, nf_nodeOutputs0; done.
Qed.

Lemma log_frame_node_frame id st st' : log_frame st st' -> node_frame id st st'.
Proof. intros []. split; try done; intros; congruence. Qed.

Lemma keeps_weaken {A} (R R' : relation EngineState) (m : M A) :
  (forall st st', R st st' -> R' st st') -> keeps R m -> keeps R' m.
Proof. intros HR Hm st. destruct (Hm st). split; auto. Qed.

Section EngineFrames.

Variable getBlockConfig : string -> option Block.
Variable onLog : ExecutionLog -> CallbackResult.
Variable onNodeUpdate : string -> NodeExecution -> CallbackResult.

Lemma keeps_callback r : keeps log_frame (callback r).
Proof.
  destruct r; simpl.
  - apply keeps_ret, _.
  - apply keeps_modify. intros st. by split.
  - apply keeps_throw, _.
Qed.

Lemma keeps_log level message nodeId :
  keeps log_frame (log onLog level message nodeId).
Proof.
  unfold log. apply keeps_bind; [apply _ | |].
  - apply keeps_modify. intros st. split; try done.
    simpl. by apply prefix_app_r.
  - intros _. apply keeps_callback.
Qed.

Lemma keeps_notifyNodeUpdate id :
  keeps log_frame (notifyNodeUpdate onNodeUpdate id).
Proof.
  unfold notifyNodeUpdate. apply keeps_bind; [apply _ | apply keeps_get, _ |].
  intros st. destruct (_ !! _); [apply keeps_callback | apply keeps_ret, _].
Qed.

Lemma keeps_updateNodeExecution id f :
  keeps (node_frame id) (updateNodeExecution id f).
Proof.
  apply keeps_modify. intros st. split; try done; simpl.
  - intros n Hn. by rewrite lookup_alter_ne.
  - intros [ne Hne]. rewrite lookup_alter_eq, Hne. by eexists.
Qed.

Lemma keeps_store_at id (f : gmap string Obj -> Obj) :
  keeps (node_frame id)
    (modify (with_nodeOutputs (fun outs => <[id := f outs]> outs))).
Proof.
  apply keeps_modify. intros st. split; try done; simpl.
  intros n Hn. by rewrite lookup_insert_ne.
Qed.

Lemma keeps_blockCall id c : keeps (node_frame id) (blockCall onLog id c).
Proof.
  destruct c; simpl.
  - apply keeps_store_at.
  - eapply keeps_weaken; [apply log_frame_node_frame | apply keeps_log].
Qed.

Lemma keeps_settleRun id r : keeps (node_frame id) (settleRun onLog id r).
Proof.
  unfold settleRun.
  apply keeps_bind; [apply _ | |].
  { apply keeps_for_each; [apply _ |]. apply keeps_blockCall. }
  intros _. apply keeps_bind; [apply _ | |].
  { apply keeps_when; [apply _ |]. apply keeps_modify. intros st. by split. }
  intros _. destruct (settled _); [apply keeps_ret | apply keeps_throw]; apply _.
Qed.

Lemma keeps_awaitRun id run context :
  keeps (node_frame id) (awaitRun onLog id run context).
Proof.
  unfold awaitRun.
  apply keeps_bind; [apply _ | | intros _; apply keeps_settleRun].
  apply keeps_modify. intros st. by split.
Qed.

Lemma keeps_recordResult node result :
  keeps (node_frame (n_id node)) (recordResult onLog node result).
Proof.
  pose proof (node_frame_preorder (n_id node)) as HP.
  unfold recordResult.
  apply keeps_bind; [done | apply keeps_updateNodeExecution |]. intros _.
  apply keeps_bind; [done | by apply keeps_get |]. intros st1.
  apply keeps_bind; [done | apply keeps_updateNodeExecution |]. intros _.
  apply keeps_bind; [done | |].
  { destruct (objectLike _); [apply keeps_store_at | by apply keeps_ret]. }
  intros _. apply keeps_when; [done |].
  eapply keeps_weaken; [apply log_frame_node_frame | apply keeps_log].
Qed.

Lemma keeps_nodeTry workflow node env aliasMap singleNodeId :
  keeps (node_frame (n_id node))
    (nodeTry getBlockConfig onLog workflow node env aliasMap singleNodeId).
Proof.
  pose proof (node_frame_preorder (n_id node)) as HP.
  assert (Hlog : forall level message nodeId,
             keeps (node_frame (n_id node)) (log onLog level message nodeId)).
  { intros. eapply keeps_weaken; [apply log_frame_node_frame | apply keeps_log]. }
  unfold nodeTry.
  apply keeps_bind; [done | by apply keeps_when |]. intros _.
  destruct (getBlockConfig _) as [run|]; [| by apply keeps_throw].
  apply keeps_bind; [done | by apply keeps_get |]. intros st.
  apply keeps_bind; [done | apply keeps_awaitRun |]. intros result.
  apply keeps_recordResult.
Qed.

Lemma keeps_nodeCatch id error :
  keeps (node_frame id) (nodeCatch onLog id error).
Proof.
  pose proof (node_frame_preorder id) as HP.
  unfold nodeCatch.
  apply keeps_bind; [done | apply keeps_updateNodeExecution |]. intros _.
  apply keeps_bind; [done | apply keeps_updateNodeExecution |]. intros _.
  apply keeps_bind; [done | | intros _; by apply keeps_throw].
  eapply keeps_weaken; [apply log_frame_node_frame | apply keeps_log].
Qed.

(** What [executeNode] does to the state, however it ends. *)
Record node_effect (id : string) (st st' : EngineState) : Prop := {
  nx_workflowId : workflowId (execution st') = workflowId (execution st);
  nx_status : status (execution st') = status (execution st);
  nx_nodeExecutions : forall n, n <> id ->
    nodeExecutions (execution st') !! n = nodeExecutions (execution st) !! n;
  nx_present : is_Some (nodeExecutions (execution st') !! id);
  nx_nodeOutputs : forall n, n <> id ->
    nodeOutputs st' !! n = nodeOutputs st !! n;
  nx_started : started st' = (started st ++ [id])%list;
  nx_aborted : aborted st = true -> aborted st' = true;
}.

Lemma executeNode_effect workflow node env aliasMap singleNodeId st :
  let r := executeNode getBlockConfig onLog onNodeUpdate workflow node env
             aliasMap singleNodeId st in
  r.1 <> OutOfFuel /\ node_effect (n_id node) st r.2.
Proof.
  pose proof (node_frame_preorder (n_id node)) as HP.
  set (id := n_id node).
  assert (Hnotify : keeps (node_frame id) (notifyNodeUpdate onNodeUpdate id)).
  { eapply keeps_weaken; [apply log_frame_node_frame | apply keeps_notifyNodeUpdate]. }
  assert (Hrest : keeps (node_frame id)
            (notifyNodeUpdate onNodeUpdate id ;;;
             try_catch
               (nodeTry getBlockConfig onLog workflow node env aliasMap singleNodeId)
               (nodeCatch onLog id) ;;;
             notifyNodeUpdate onNodeUpdate id)).
  { apply keeps_bind; [done | done |]. intros _.
    apply keeps_bind; [done | | done].
    apply keeps_try_catch; [done | apply keeps_nodeTry |].
    intros e. apply keeps_nodeCatch. }
  intros r. subst r. unfold executeNode. fold id.
  unfold bind at 1. unfold modify at 1. unfold bind at 1. unfold modify at 1.
  match goal with |- context [?m ?s] =>
    match m with bind _ _ => destruct (Hrest s) as [Hne [? ? ? ? ? ? ?]] end end.
  simpl in *.
  split; [done |]. split; try done.
  - intros n Hn. rewrite nf_nodeExecutions0 by done.
    by rewrite lookup_insert_ne.
  - apply nf_present0. rewrite lookup_insert_eq. by eexists.
Qed.

(** The record of node [id] says [success]. *)
Definition entry_success (id : string) (st : EngineState) : Prop :=
  exists ne, nodeExecutions (execution st) !! id = Some ne
             /\ ne_status ne = NodeSuccess.

Definition success_kept (id : string) : relation EngineState :=
  fun st st' => entry_success id st -> entry_success id st'.

#[local] Instance success_kept_preorder id : PreOrder (success_kept id).
Proof. split; unfold success_kept; [by intros ? | intros ? ? ?; tauto]. Qed.

Lemma log_frame_success_kept id st st' :
  log_frame st st' -> success_kept id st st'.
Proof.
  intros [] [ne [H1 H2]]. exists ne. split; [congruence | done].
Qed.

Lemma nodeCatch_not_Ok id error st st' :
  nodeCatch onLog id error st <> (Ok tt, st').
Proof.
  unfold nodeCatch. intros H.
  apply bind_Ok_inv in H as (? & ? & _ & H).
  apply bind_Ok_inv in H as (? & ? & _ & H).
  apply bind_Ok_inv in H as (? & ? & _ & H).
  discriminate.
Qed.

Lemma recordResult_Ok_success node result st st' :
  recordResult onLog node result st = (Ok tt, st') ->
  is_Some (nodeExecutions (execution st) !! n_id node) ->
  entry_success (n_id node) st'.
Proof.
  set (id := n_id node). unfold recordResult. fold id. intros H Hpresent.
  apply bind_Ok_inv in H as ([] & s3 & [= <-] & H).
  match type of H with ?m _ = _ =>
    assert (Hk : keeps (success_kept id) m) end.
  { pose proof (success_kept_preorder id) as HS.
    apply keeps_bind; [done | by apply keeps_get |]. intros st1.
    apply keeps_bind; [done | |].
    { apply keeps_modify. intros s [ne [Hne Hs]]. unfold entry_success. simpl.
      eexists. rewrite lookup_alter_eq, Hne. simpl. split; [done | done]. }
    intros _. apply keeps_bind; [done | |].
    { destruct (objectLike _); [| by apply keeps_ret].
      apply keeps_modify. by intros s Hs. }
    intros _. apply keeps_when; [done |].
    eapply keeps_weaken; [apply log_frame_success_kept | apply keeps_log]. }
  match type of H with _ ?s = _ => destruct (Hk s) as [_ Hs] end.
  rewrite H in Hs. apply Hs.
  destruct Hpresent as [ne Hne]. unfold entry_success. simpl. eexists.
  rewrite lookup_alter_eq, Hne. simpl. done.
Qed.

Lemma nodeTry_Ok_success workflow node env aliasMap singleNodeId st st' :
  nodeTry getBlockConfig onLog workflow node env aliasMap singleNodeId st
    = (Ok tt, st') ->
  is_Some (nodeExecutions (execution st) !! n_id node) ->
  entry_success (n_id node) st'.
Proof.
  set (id := n_id node). unfold nodeTry. fold id. intros H Hpresent.
  pose proof (node_frame_preorder id) as HP.
  apply bind_Ok_inv in H as ([] & s1 & H1 & H).
  assert (Hp1 : is_Some (nodeExecutions (execution s1) !! id)).
  { assert (Hk : keeps (node_frame id)
              (when (negb (String.eqb (n_type node) "starter"))
                 (log onLog Info ("⚡ " +:+ n_type node +:+ ": " +:+ id) (Some id)))).
    { apply keeps_when; [done |]. eapply keeps_weaken;
        [apply log_frame_node_frame | apply keeps_log]. }
    destruct (Hk st) as [_ [? ? ? Hpr ? ? ?]]. rewrite H1 in Hpr. by apply Hpr. }
  destruct (getBlockConfig _) as [run|]; [| discriminate].
  apply bind_Ok_inv in H as (s1' & ? & [= <- <-] & H).
  apply bind_Ok_inv in H as (result & s2 & H2 & H).
  assert (Hp2 : is_Some (nodeExecutions (execution s2) !! id)).
  { destruct (keeps_awaitRun id run
      (buildContext workflow node env aliasMap singleNodeId s1) s1)
      as [_ [? ? ? Hpr ? ? ?]].
    rewrite H2 in Hpr. by apply Hpr. }
  by eapply recordResult_Ok_success.
Qed.

(** A node whose execution returns normally is recorded as [success]. *)
Lemma executeNode_Ok_success workflow node env aliasMap singleNodeId st st' :
  executeNode getBlockConfig onLog onNodeUpdate workflow node env aliasMap
    singleNodeId st = (Ok tt, st') ->
  entry_success (n_id node) st'.
Proof.
  set (id := n_id node). unfold executeNode. fold id.
  unfold bind at 1. unfold modify at 1. unfold bind at 1. unfold modify at 1.
  intros H.
  apply bind_Ok_inv in H as ([] & s1 & H1 & H).
  apply bind_Ok_inv in H as ([] & s2 & H2 & H).
  assert (Hs2 : entry_success id s2).
  { unfold try_catch in H2.
    destruct (nodeTry _ _ _ _ _ _ _ s1) as [[[]|e|] s] eqn:Htry;
      try discriminate.
    - injection H2 as <-.
      eapply nodeTry_Ok_success; [exact Htry |].
      match type of H1 with _ ?s = _ =>
        destruct (keeps_notifyNodeUpdate id s) as [_ []] end.
      rewrite H1 in *. simpl in *. rewrite lf_nodeExecutions0.
      rewrite lookup_insert_eq. by eexists.
    - by apply nodeCatch_not_Ok in H2. }
  destruct (keeps_notifyNodeUpdate id s2) as [_ Hf]. rewrite H in Hf.
  by eapply log_frame_success_kept.
Qed.

End EngineFrames.

(* ===================================================================== *)
(** ** The queue *)
(* ===================================================================== *)

Section Queue.

Variable workflow : Workflow.
Variable singleNodeId : option string.

(** The queue after the successors of [nodeId] were pushed. *)
Definition enqueue (visited' : gset string) (queue' : list string)
    (nodeId : string) : list string :=
  match singleNodeId with
  | Some _ => queue'
  | None =>
      (queue' ++
       filter (fun id => id ∉ visited')
         (map n_id (getConnectedNodes workflow nodeId)))%list
  end.

Definition unvisited (visited : gset string) : nat :=
  length (filter (fun n => n_id n ∉ visited) (nodes workflow)).

Definition potential (visited : gset string) (queue : list string) : nat :=
  (length queue + length (nodes workflow) * unvisited visited)%nat.

Lemma unvisited_le visited : (unvisited visited <= length (nodes workflow))%nat.
Proof. apply length_filter. Qed.

Lemma unvisited_mono x visited :
  (unvisited ({[x]} ∪ visited) <= unvisited visited)%nat.
Proof.
  unfold unvisited. induction (nodes workflow) as [|n l IH]; [done |].
  rewrite !filter_cons.
  destruct (decide (n_id n ∉ {[x]} ∪ visited)) as [H1|H1];
    destruct (decide (n_id n ∉ visited)) as [H2|H2]; simpl; try lia.
  exfalso. set_solver.
Qed.

Lemma findNode_Some id node :
  findNode workflow id = Some node -> node ∈ nodes workflow /\ n_id node = id.
Proof.
  unfold findNode. intros H. apply find_some in H as [H1 H2].
  split; [by apply list_elem_of_In | by apply String.eqb_eq].
Qed.

Lemma findNode_None id :
  findNode workflow id = None -> forall n, n ∈ nodes workflow -> n_id n <> id.
Proof.
  unfold findNode. intros H n Hn Heq.
  eapply find_none in H; [| apply list_elem_of_In, Hn].
  simpl in H. apply String.eqb_neq in H. done.
Qed.

Lemma unvisited_visit x node visited :
  findNode workflow x = Some node -> x ∉ visited ->
  (unvisited ({[x]} ∪ visited) < unvisited visited)%nat.
Proof.
  intros Hf Hx. apply findNode_Some in Hf as [Hin Hid].
  unfold unvisited. induction (nodes workflow) as [|n l IH]; [inversion Hin |].
  rewrite !filter_cons.
  pose proof (unvisited_mono x visited) as Hmono.
  apply elem_of_cons in Hin as [<- | Hin].
  - rewrite decide_False by set_solver.
    rewrite decide_True by (by rewrite Hid). simpl.
    clear IH. induction l as [|m l IH]; simpl; [lia |].
    rewrite !filter_cons.
    destruct (decide (n_id m ∉ {[x]} ∪ visited)) as [H1|H1];
      destruct (decide (n_id m ∉ visited)) as [H2|H2]; simpl; try lia.
    exfalso. set_solver.
  - specialize (IH Hin).
    destruct (decide (n_id n ∉ {[x]} ∪ visited)) as [H1|H1];
      destruct (decide (n_id n ∉ visited)) as [H2|H2]; simpl; try lia.
    exfalso. set_solver.
Qed.

Lemma enqueue_length visited' queue' nodeId :
  (length (enqueue visited' queue' nodeId)
     <= length queue' + length (nodes workflow))%nat.
Proof.
  unfold enqueue. destruct singleNodeId; [lia |].
  rewrite length_app.
  pose proof (length_filter (fun id => id ∉ visited')
                (map n_id (getConnectedNodes workflow nodeId))) as H1.
  rewrite length_map in H1.
  pose proof (length_filter
                (fun n => inList (n_id n)
                   (map e_target
                      (filter (fun e => String.eqb (e_source e) nodeId = true)
                         (edges workflow))) = true)
                (nodes workflow)) as H2.
  unfold getConnectedNodes in *. lia.
Qed.

Lemma potential_visit x node visited queue' :
  findNode workflow x = Some node -> x ∉ visited ->
  (potential ({[x]} ∪ visited) (enqueue ({[x]} ∪ visited) queue' x)
     < potential visited (x :: queue'))%nat.
Proof.
  intros Hf Hx. unfold potential. simpl.
  pose proof (unvisited_visit x node visited Hf Hx).
  pose proof (enqueue_length ({[x]} ∪ visited) queue' x).
  nia.
Qed.

Lemma potential_skip x visited queue' :
  (potential ({[x]} ∪ visited) queue' < potential visited (x :: queue'))%nat.
Proof.
  unfold potential. simpl. pose proof (unvisited_mono x visited). nia.
Qed.

End Queue.

(* ===================================================================== *)
(** ** The traversal loop *)
(* ===================================================================== *)

Section Loop.

Variable getBlockConfig : string -> option Block.
Variable onLog : ExecutionLog -> CallbackResult.
Variable onNodeUpdate : string -> NodeExecution -> CallbackResult.
Variable workflow : Workflow.
Variable env : gmap string string.
Variable aliasMap : AliasMap.
Variable singleNodeId : option string.

Local Abbreviation LOOP fuel :=
  (loop getBlockConfig onLog onNodeUpdate fuel workflow env aliasMap
     singleNodeId).
Local Abbreviation EXEC node :=
  (executeNode getBlockConfig onLog onNodeUpdate workflow node env aliasMap
     singleNodeId).

Lemma loop_unfold fuel visited nodeId queue' :
  LOOP (S fuel) visited (nodeId :: queue') =
  (let* st := get in
   if aborted st then setStatus Cancelled
   else if bool_decide (nodeId ∈ visited) then LOOP fuel visited queue'
   else
     match findNode workflow nodeId with
     | None => LOOP fuel ({[nodeId]} ∪ visited) queue'
     | Some node =>
         try_catch (EXEC node) (loopCatch onLog node) ;;;
         LOOP fuel ({[nodeId]} ∪ visited)
           (enqueue workflow singleNodeId ({[nodeId]} ∪ visited) queue' nodeId)
     end).
Proof. reflexivity. Qed.

(** The [catch] block in the loop always rethrows, with the workflow
    marked failed and nothing else touched but the log. *)
Lemma loopCatch_run node error st :
  exists e' st',
    loopCatch onLog node error st = (Throw e', st')
    /\ status (execution st') = Failed
    /\ nodeExecutions (execution st') = nodeExecutions (execution st)
    /\ nodeOutputs st' = nodeOutputs st
    /\ started st' = started st
    /\ contexts st' = contexts st.
Proof.
  unfold loopCatch, log, bind, setStatus, modify, callback.
  destruct (onLog _) as [| |e']; simpl; eauto 10.
Qed.

(** *** One iteration that comes back to the top of the loop *)

Definition LoopState : Type := gset string * list string * EngineState.

Inductive loop_next : LoopState -> LoopState -> Prop :=
  | next_visited visited nodeId queue' st :
      aborted st = false ->
      nodeId ∈ visited ->
      loop_next (visited, nodeId :: queue', st) (visited, queue', st)
  | next_missing visited nodeId queue' st :
      aborted st = false ->
      nodeId ∉ visited ->
      findNode workflow nodeId = None ->
      loop_next (visited, nodeId :: queue', st)
        ({[nodeId]} ∪ visited, queue', st)
  | next_executed visited nodeId queue' st node st' :
      aborted st = false ->
      nodeId ∉ visited ->
      findNode workflow nodeId = Some node ->
      EXEC node st = (Ok tt, st') ->
      loop_next (visited, nodeId :: queue', st)
        ({[nodeId]} ∪ visited,
         enqueue workflow singleNodeId ({[nodeId]} ∪ visited) queue' nodeId,
         st').

Definition loop_reaches : LoopState -> LoopState -> Prop := rtc loop_next.

Lemma loop_next_run s s' fuel :
  loop_next s s' ->
  LOOP (S fuel) s.1.1 s.1.2 s.2 = LOOP fuel s'.1.1 s'.1.2 s'.2.
Proof.
  intros H. destruct H as [v x q st Ha Hv | v x q st Ha Hv Hf
                          | v x q st node st' Ha Hv Hf Hx]; cbn [fst snd];
    rewrite loop_unfold; unfold bind at 1, get at 1; rewrite Ha.
  - by rewrite bool_decide_eq_true_2.
  - rewrite bool_decide_eq_false_2 by done. by rewrite Hf.
  - rewrite bool_decide_eq_false_2 by done. rewrite Hf.
    erewrite bind_run_Ok; [done |]. by apply try_catch_run_Ok.
Qed.

Lemma loop_reaches_run s s' :
  loop_reaches s s' ->
  exists n, forall fuel,
    LOOP (n + fuel) s.1.1 s.1.2 s.2 = LOOP fuel s'.1.1 s'.1.2 s'.2.
Proof.
  induction 1 as [s | s s1 s' Hnext _ [n IH]].
  - by exists 0%nat.
  - exists (S n). intros fuel. cbn [Nat.add].
    rewrite (loop_next_run _ _ _ Hnext). apply IH.
Qed.

(** *** Fuel *)

(** With more fuel than the potential of its state, the loop ends. *)
Lemma loop_fuel_enough fuel visited queue st :
  (potential workflow visited queue < fuel)%nat ->
  (LOOP fuel visited queue st).1 <> OutOfFuel.
Proof.
  revert visited queue st.
  induction fuel as [|fuel IH]; intros visited queue st Hfuel; [lia |].
  destruct queue as [|x queue']; [done |].
  rewrite loop_unfold. unfold bind at 1, get at 1.
  destruct (aborted st); [done |].
  case_bool_decide as Hv.
  { apply IH. unfold potential in *. simpl in *. lia. }
  destruct (findNode workflow x) as [node|] eqn:Hf.
  - pose proof (executeNode_effect getBlockConfig onLog onNodeUpdate
                  workflow node env aliasMap singleNodeId st) as [Hne _].
    unfold bind, try_catch.
    destruct (EXEC node st) as [[[]|e|] st1]; [| | done].
    + apply IH. pose proof (potential_visit workflow singleNodeId x node visited queue' Hf Hv). lia.
    + destruct (loopCatch_run node e st1) as (e' & st2 & -> & _). done.
  - apply IH. pose proof (potential_skip workflow x visited queue'). lia.
Qed.

(** Fuel beyond what the loop needs does not change its outcome. *)
Lemma loop_fuel_more fuel k visited queue st :
  (LOOP fuel visited queue st).1 <> OutOfFuel ->
  LOOP (fuel + k) visited queue st = LOOP fuel visited queue st.
Proof.
  revert visited queue st.
  induction fuel as [|fuel IH]; intros visited queue st Hne.
  - destruct queue; [| done]. by destruct k.
  - destruct queue as [|x queue']; [done |].
    simpl Nat.add. rewrite !loop_unfold in *.
    unfold bind at 1, get at 1. unfold bind at 2, get at 1.
    unfold bind at 1, get at 1 in Hne.
    destruct (aborted st); [done |].
    case_bool_decide as Hv; [by apply IH |].
    destruct (findNode workflow x) as [node|]; [| by apply IH].
    unfold bind in *.
    destruct (try_catch _ _ st) as [[[]|e|] st1]; [| done | done].
    by apply IH.
Qed.

Lemma loop_reaches_more visited queue st s' fuel :
  loop_reaches (visited, queue, st) s' ->
  (potential workflow visited queue < fuel)%nat ->
  LOOP fuel visited queue st = LOOP fuel s'.1.1 s'.1.2 s'.2.
Proof.
  intros Hreach Hfuel.
  apply loop_reaches_run in Hreach as [n Hn]. cbn [fst snd] in Hn.
  rewrite <- Hn, Nat.add_comm.
  symmetry. apply loop_fuel_more. by apply loop_fuel_enough.
Qed.

(** *** Invariants of the loop *)

(** What holds of every state the loop passes through, relative to the
    state [st0] in which it was entered. *)
Record loop_inv (st0 : EngineState) (s : LoopState) : Prop := {
  li_status : status (execution s.2) = status (execution st0);
  li_workflowId : workflowId (execution s.2) = workflowId (execution st0);
  li_visited : forall n, n ∈ started s.2 -> n ∈ started st0 \/ n ∈ s.1.1;
  li_success : forall n, n ∈ started s.2 -> n ∉ started st0 ->
    entry_success n s.2;
  li_untouched : forall n, n ∉ started s.2 ->
    nodeExecutions (execution s.2) !! n = nodeExecutions (execution st0) !! n;
  li_started : started st0 `prefix_of` started s.2;
}.

Lemma loop_inv_next st0 s s' :
  (forall n, n ∈ started st0 -> n ∈ s.1.1) ->
  loop_inv st0 s -> loop_next s s' ->
  loop_inv st0 s' /\ (forall n, n ∈ started st0 -> n ∈ s'.1.1).
Proof.
  intros Hsub [] Hnext.
  destruct Hnext as [v x q st Ha Hv | v x q st Ha Hv Hf
                    | v x q st node st' Ha Hv Hf Hx]; cbn [fst snd] in *.
  - split; [by split | done].
  - split; [split; try done | set_solver].
    intros n Hn. destruct (li_visited0 n Hn); set_solver.
  - pose proof (executeNode_effect getBlockConfig onLog onNodeUpdate workflow
                  node env aliasMap singleNodeId st) as [_ Heff].
    rewrite Hx in Heff. cbn [fst snd] in Heff. destruct Heff.
    apply findNode_Some in Hf as [_ Hid]. rewrite Hid in *.
    split; [split; cbn [fst snd] | set_solver].
    + congruence.
    + congruence.
    + intros n. rewrite nx_started0, elem_of_app, list_elem_of_singleton.
      intros [Hn | ->]; [| set_solver].
      destruct (li_visited0 n Hn); set_solver.
    + intros n. rewrite nx_started0, elem_of_app, list_elem_of_singleton.
      intros [Hn | ->] Hn0.
      * assert (n <> x) as Hne.
        { intros ->. destruct (li_visited0 x Hn); [done | done]. }
        destruct (li_success0 n Hn Hn0) as [ne [H1 H2]].
        exists ne. by rewrite nx_nodeExecutions0.
      * rewrite <- Hid.
        eapply executeNode_Ok_success, Hx.
    + intros n. rewrite nx_started0, elem_of_app, list_elem_of_singleton.
      intros Hn. rewrite nx_nodeExecutions0 by tauto.
      apply li_untouched0. tauto.
    + rewrite nx_started0. by apply prefix_app_r.
Qed.

Lemma loop_inv_reaches st0 s s' :
  (forall n, n ∈ started st0 -> n ∈ s.1.1) ->
  loop_inv st0 s -> loop_reaches s s' -> loop_inv st0 s'.
Proof.
  intros Hsub Hinv Hreach. revert Hsub Hinv.
  induction Hreach as [s | s s1 s' Hnext _ IH]; intros Hsub Hinv; [done |].
  destruct (loop_inv_next st0 s s1 Hsub Hinv Hnext) as [H1 H2].
  by apply IH.
Qed.

Lemma loop_inv_start st0 visited queue :
  loop_inv st0 (visited, queue, st0).
Proof using. clear. split; cbn [fst snd]; try done. intros; tauto. Qed.

End Loop.

(* ===================================================================== *)
(** ** A whole run of [executeWorkflow] *)
(* ===================================================================== *)

Section Run.

Variable getBlockConfig : string -> option Block.
Variable onLog : ExecutionLog -> CallbackResult.
Variable onNodeUpdate : string -> NodeExecution -> CallbackResult.
Variable workflow : Workflow.
Variable env : gmap string string.
Variable options : Options.

Local Abbreviation LOOP :=
  (loop getBlockConfig onLog onNodeUpdate (loopFuel workflow) workflow env
     (buildAliasMap (nodes workflow)) (singleNodeIdOf options)).

(** What precedes the loop when validation passes: the opening log line
    and, in single-node mode, the restore loop. *)
Definition prologue : M unit :=
  log onLog Info ("🚀 Starting workflow: " +:+ wf_name workflow) None ;;;
  when (bool_decide (is_Some (singleNodeIdOf options)))
    (restoreOutputs onLog).

(** The node the queue is seeded with. *)
Definition startNodeOf : option WorkflowNode :=
  match singleNodeIdOf options with
  | Some sel => findNode workflow sel
  | None => findNode workflow (starterId workflow)
  end.

(** What follows the loop inside the outer [try]. *)
Definition afterLoop : M unit :=
  let* st := get in
  if bool_decide (status (execution st) = Cancelled) then ret tt
  else
    setStatus Success ;;;
    log onLog Info "✅ Workflow completed" None.

(** The rest of [executeWorkflow] once the loop has ended with outcome
    [p]: the status update or the outer [catch], and the return. *)
Definition conclude (p : Res unit * EngineState)
    : Res WorkflowExecution * EngineState :=
  (try_catch ((fun _ => p) ;;; afterLoop) (workflowCatch onLog) ;;;
   let* st := get in ret (execution st)) p.2.

Lemma executeWorkflow_run st0 startNode :
  validateWorkflow workflow = None ->
  prologue (initialState workflow options) = (Ok tt, st0) ->
  startNodeOf = Some startNode ->
  executeWorkflow getBlockConfig onLog onNodeUpdate workflow env options
    = conclude (LOOP ∅ [n_id startNode] st0).
Proof.
  intros Hvalid Hpro Hstart.
  unfold executeWorkflow, executeWorkflowM, conclude.
  unfold prologue in Hpro.
  apply bind_Ok_inv in Hpro as ([] & st1 & Hlog & Hrestore).
  rewrite (bind_run_Ok _ _ _ _ _ Hlog).
  unfold bind at 1. unfold bind at 3.
  unfold try_catch, runWorkflow. rewrite Hvalid.
  rewrite (bind_run_Ok _ _ _ _ _ Hrestore).
  unfold startNodeOf in Hstart. rewrite Hstart.
  reflexivity.
Qed.

(** The loop states a run passes through. *)
Definition run_reaches (s : LoopState) : Prop :=
  exists st0 startNode,
    validateWorkflow workflow = None
    /\ prologue (initialState workflow options) = (Ok tt, st0)
    /\ startNodeOf = Some startNode
    /\ loop_reaches getBlockConfig onLog onNodeUpdate workflow env
         (buildAliasMap (nodes workflow)) (singleNodeIdOf options)
         (∅, [n_id startNode], st0) s.

Lemma loopFuel_initial x :
  (potential workflow ∅ [x] < loopFuel workflow)%nat.
Proof.
  unfold potential, loopFuel. simpl.
  pose proof (unvisited_le workflow ∅). nia.
Qed.

Lemma executeWorkflow_reaches s :
  run_reaches s ->
  executeWorkflow getBlockConfig onLog onNodeUpdate workflow env options
    = conclude (LOOP s.1.1 s.1.2 s.2).
Proof.
  intros (st0 & startNode & Hvalid & Hpro & Hstart & Hreach).
  rewrite (executeWorkflow_run st0 startNode) by done.
  f_equal. apply (loop_reaches_more _ _ _ _ _ _ _ _ _ _ _ _ Hreach).
  apply loopFuel_initial.
Qed.

(** The prologue leaves the records of the initial execution and the
    histories alone. *)
Lemma prologue_frame :
  let r := prologue (initialState workflow options) in
  r.1 <> OutOfFuel
  /\ status (execution r.2) = Running
  /\ workflowId (execution r.2) = workflowId (initialExecution workflow options)
  /\ nodeExecutions (execution r.2)
     = nodeExecutions (initialExecution workflow options)
  /\ started r.2 = []
  /\ contexts r.2 = [].
Proof.
  set (R := fun st st' : EngineState =>
              status (execution st') = status (execution st)
              /\ workflowId (execution st') = workflowId (execution st)
              /\ nodeExecutions (execution st') = nodeExecutions (execution st)
              /\ started st' = started st /\ contexts st' = contexts st).
  assert (HP : PreOrder R).
  { split; [by intros ? | intros a b c (?&?&?&?&?) (?&?&?&?&?)].
    repeat split; congruence. }
  assert (HL : forall st st', log_frame st st' -> R st st').
  { intros st st' []. by repeat split. }
  assert (Hk : keeps R prologue).
  { unfold prologue. apply keeps_bind; [done | |].
    { eapply keeps_weaken; [apply HL | apply keeps_log]. }
    intros _. apply keeps_when; [done |].
    unfold restoreOutputs. apply keeps_bind; [done | by apply keeps_get |].
    intros st. apply keeps_for_each; [done |]. intros [n ne]. simpl.
    destruct (ne_outputs ne); [| by apply keeps_ret].
    apply keeps_bind; [done | |].
    { apply keeps_modify. by intros s. }
    intros _. eapply keeps_weaken; [apply HL | apply keeps_log]. }
  intros r. destruct (Hk (initialState workflow options))
    as [Hne (H1 & H2 & H3 & H4 & H5)].
  repeat split; try done.
  fold r in H1. rewrite H1. unfold initialState, initialExecution. simpl.
  by destruct (existingExecution options).
Qed.

(** The subscriber [onLog] never throws. *)
Definition never_throws {A} (cb : A -> CallbackResult) : Prop :=
  forall a e, cb a <> CbThrow e.

(** The outer [catch] block marks the run failed, touches nothing else
    but the log, and returns unless the log subscriber throws. *)
Lemma workflowCatch_run error st :
  let r := workflowCatch onLog error st in
  r.1 <> OutOfFuel
  /\ status (execution r.2) = Failed
  /\ workflowId (execution r.2) = workflowId (execution st)
  /\ nodeExecutions (execution r.2) = nodeExecutions (execution st)
  /\ started r.2 = started st
  /\ contexts r.2 = contexts st
  /\ (never_throws onLog -> r.1 = Ok tt).
Proof.
  unfold workflowCatch, log, bind, setStatus, modify, callback.
  destruct (onLog _) as [| |e'] eqn:Hcb; simpl; repeat split; try done.
  intros Hq. by destruct (Hq _ _ Hcb).
Qed.

Lemma conclude_Throw error st :
  conclude (Throw error, st) =
  match workflowCatch onLog error st with
  | (Ok _, st') => (Ok (execution st'), st')
  | (Throw e', st') => (Throw e', st')
  | (OutOfFuel, st') => (OutOfFuel, st')
  end.
Proof.
  unfold conclude. cbn [snd]. unfold bind at 1, try_catch, bind at 1.
  by destruct (workflowCatch onLog error st) as [[[]|e'|] st'].
Qed.

Lemma conclude_Cancelled st :
  status (execution st) = Cancelled ->
  conclude (Ok tt, st) = (Ok (execution st), st).
Proof.
  intros Hc. unfold conclude. cbn [snd].
  unfold bind at 1, try_catch, bind at 1, afterLoop, bind at 1, get at 1.
  by rewrite bool_decide_eq_true_2.
Qed.

(** The loop at a pending dequeue with the abort signal set. *)
Lemma loop_aborted fuel aliasMap singleNodeId visited nodeId queue st :
  aborted st = true ->
  loop getBlockConfig onLog onNodeUpdate (S fuel) workflow env aliasMap
    singleNodeId visited (nodeId :: queue) st
  = (Ok tt, with_execution (set_status Cancelled) st).
Proof.
  intros Ha. rewrite loop_unfold. unfold bind, get. by rewrite Ha.
Qed.

(** The loop at a node whose execution throws. *)
Lemma loop_node_throws fuel aliasMap singleNodeId visited nodeId queue st
    node e st1 :
  aborted st = false ->
  nodeId ∉ visited ->
  findNode workflow nodeId = Some node ->
  executeNode getBlockConfig onLog onNodeUpdate workflow node env aliasMap
    singleNodeId st = (Throw e, st1) ->
  loop getBlockConfig onLog onNodeUpdate (S fuel) workflow env aliasMap
    singleNodeId visited (nodeId :: queue) st
  = loopCatch onLog node e st1.
Proof.
  intros Ha Hv Hf Hx. rewrite loop_unfold. unfold bind at 1, get at 1.
  rewrite Ha, bool_decide_eq_false_2, Hf by done.
  unfold bind. rewrite (try_catch_run_Throw _ _ _ _ _ Hx).
  by destruct (loopCatch_run onLog node e st1) as (e' & st2 & -> & _).
Qed.

(** What every loop state of a run satisfies: the loop invariant relative
    to an entry state that carries the records of the initial execution
    and empty histories. *)
Lemma run_reaches_inv s :
  run_reaches s ->
  exists st0,
    loop_inv st0 s
    /\ status (execution st0) = Running
    /\ workflowId (execution st0)
       = workflowId (initialExecution workflow options)
    /\ nodeExecutions (execution st0)
       = nodeExecutions (initialExecution workflow options)
    /\ started st0 = [].
Proof.
  intros (st0 & startNode & Hvalid & Hpro & Hstart & Hreach).
  pose proof prologue_frame as Hf. cbn zeta in Hf. rewrite Hpro in Hf.
  destruct Hf as (_ & H1 & H2 & H3 & H4 & _). cbn [snd] in *.
  exists st0. split; [| done].
  eapply loop_inv_reaches; [| apply loop_inv_start | exact Hreach].
  rewrite H4. intros n Hn. inversion Hn.
Qed.

End Run.

(* ===================================================================== *)
(** ** Cancellation and failure *)
(* ===================================================================== *)

(** C9.  If [stop()] was called before a pending dequeue - the loop is at
    its top with a non-empty queue and the abort signal set - the run
    returns with status [cancelled]: no further node executes (the history
    of started nodes and the node records are those of that moment), the
    status is not overwritten to [success], and every node this run
    executed is recorded [success], none [error]; in a run that started
    from a fresh execution these are all the records there are. *)
Theorem stop_before_dequeue_cancels
    (getBlockConfig : string -> option Block)
    (onLog : ExecutionLog -> CallbackResult)
    (onNodeUpdate : string -> NodeExecution -> CallbackResult)
    (workflow : Workflow) (env : gmap string string) (options : Options)
    (visited : gset string) (nodeId : string) (queue : list string)
    (st : EngineState) :
  run_reaches getBlockConfig onLog onNodeUpdate workflow env options
    (visited, nodeId :: queue, st) ->
  aborted st = true ->
  exists ex st',
    executeWorkflow getBlockConfig onLog onNodeUpdate workflow env options
      = (Ok ex, st')
    /\ status ex = Cancelled
    /\ started st' = started st
    /\ nodeExecutions ex = nodeExecutions (execution st)
    /\ (forall n, n ∈ started st' ->
        exists ne, nodeExecutions ex !! n = Some ne
                   /\ ne_status ne = NodeSuccess)
    /\ (existingExecution options = None ->
        forall n ne, nodeExecutions ex !! n = Some ne ->
                     ne_status ne = NodeSuccess).
Proof.
  intros Hreach Ha.
  rewrite (executeWorkflow_reaches _ _ _ _ _ _ _ Hreach). cbn [fst snd].
  unfold loopFuel. rewrite loop_aborted by done.
  rewrite conclude_Cancelled by done.
  destruct (run_reaches_inv _ _ _ _ _ _ _ Hreach)
    as (st0 & [] & _ & _ & Hne0 & Hst0). cbn [fst snd] in *.
  eexists _, _. split; [reflexivity |]. simpl.
  assert (Hrun : forall n, n ∈ started st -> entry_success n st).
  { intros n Hn. apply li_success0; [done |]. rewrite Hst0. by intros H%elem_of_nil. }
  repeat split; try done.
  intros Hfresh n ne Hlook.
  destruct (decide (n ∈ started st)) as [Hn | Hn].
  - destruct (Hrun n Hn) as (ne' & H1 & H2). congruence.
  - rewrite li_untouched0, Hne0 in Hlook by done.
    unfold initialExecution in Hlook. rewrite Hfresh in Hlook.
    simpl in Hlook. by rewrite lookup_empty in Hlook.
Qed.

(** C1.  If the execution of a node raises during a run, the workflow's
    status becomes [error] and the loop ends there: the failing node is the
    last one started, and the run leaves no record for any other node it
    had not executed before - the records of such nodes are those of the
    execution the run started from, none at all for a fresh one.  The
    snapshot is returned unless the log subscriber itself throws. *)
Theorem node_failure_fails_fast
    (getBlockConfig : string -> option Block)
    (onLog : ExecutionLog -> CallbackResult)
    (onNodeUpdate : string -> NodeExecution -> CallbackResult)
    (workflow : Workflow) (env : gmap string string) (options : Options)
    (visited : gset string) (nodeId : string) (queue : list string)
    (st : EngineState) (node : WorkflowNode) (e : JsError)
    (st1 : EngineState) :
  run_reaches getBlockConfig onLog onNodeUpdate workflow env options
    (visited, nodeId :: queue, st) ->
  aborted st = false ->
  nodeId ∉ visited ->
  findNode workflow nodeId = Some node ->
  executeNode getBlockConfig onLog onNodeUpdate workflow node env
    (buildAliasMap (nodes workflow)) (singleNodeIdOf options) st
    = (Throw e, st1) ->
  let r := executeWorkflow getBlockConfig onLog onNodeUpdate workflow env
             options in
  status (execution r.2) = Failed
  /\ started r.2 = (started st ++ [nodeId])%list
  /\ (forall n, n ∉ started st -> n <> nodeId ->
      nodeExecutions (execution r.2) !! n
      = nodeExecutions (initialExecution workflow options) !! n)
  /\ (existingExecution options = None ->
      forall n, is_Some (nodeExecutions (execution r.2) !! n) ->
                n ∈ started r.2)
  /\ (forall ex, r.1 = Ok ex -> ex = execution r.2)
  /\ (never_throws onLog -> r.1 = Ok (execution r.2)).
Proof.
  intros Hreach Ha Hv Hf Hx r. subst r.
  rewrite (executeWorkflow_reaches _ _ _ _ _ _ _ Hreach). cbn [fst snd].
  unfold loopFuel. rewrite (loop_node_throws _ _ _ _ _ _ _ _ _ _ _ _ _ _ _ Ha Hv Hf Hx).
  destruct (loopCatch_run onLog node e st1)
    as (e' & st2 & -> & _ & Hne2 & _ & Hst2 & _).
  rewrite conclude_Throw.
  pose proof (workflowCatch_run onLog e' st2) as Hc. cbn zeta in Hc.
  destruct Hc as (Hfuel & Hs3 & _ & Hne3 & Hst3 & _ & Hq).
  pose proof (executeNode_effect getBlockConfig onLog onNodeUpdate workflow
                node env (buildAliasMap (nodes workflow))
                (singleNodeIdOf options) st) as [_ Heff].
  rewrite Hx in Heff. cbn [snd] in Heff. destruct Heff.
  apply findNode_Some in Hf as [_ Hid]. rewrite Hid in *.
  destruct (run_reaches_inv _ _ _ _ _ _ _ Hreach)
    as (st0 & [] & _ & _ & Hne0 & Hst0). cbn [fst snd] in *.
  assert (Hfinal : forall r : Res unit * EngineState,
            r = workflowCatch onLog e' st2 ->
            status (execution r.2) = Failed
            /\ started r.2 = (started st ++ [nodeId])%list
            /\ nodeExecutions (execution r.2) = nodeExecutions (execution st1)).
  { intros r ->. repeat split; congruence. }
  destruct (workflowCatch onLog e' st2) as [[[]|e3|] st3] eqn:Hw;
    [| | done]; cbn [fst snd] in *;
    destruct (Hfinal _ eq_refl) as (F1 & F2 & F3); cbn [fst snd] in *.
  all: split; [done |]; split; [done |].
  all: assert (Hother : forall n, n ∉ started st -> n <> nodeId ->
         nodeExecutions (execution st3) !! n
         = nodeExecutions (initialExecution workflow options) !! n)
    by (intros n Hn Hne; rewrite F3, nx_nodeExecutions0, li_untouched0 by done;
        by rewrite Hne0).
  all: split; [exact Hother |]; split.
  all: try (intros Hfresh n Hsome; rewrite F2;
            destruct (decide (n = nodeId)) as [-> | Hne]; [set_solver |];
            destruct (decide (n ∈ started st)) as [Hn | Hn]; [set_solver |];
            rewrite (Hother n Hn Hne) in Hsome;
            unfold initialExecution in Hsome; rewrite Hfresh in Hsome;
            simpl in Hsome; rewrite lookup_empty in Hsome;
            by destruct Hsome).
  - split; [by intros ex [= <-] | done].
  - split; [by intros ex [=] |]. intros Hnt. by specialize (Hq Hnt).
Qed.


(* ===================================================================== *)
(** ** How the loop ends *)
(* ===================================================================== *)

Section LoopOutcome.

Variable getBlockConfig : string -> option Block.
Variable onLog : ExecutionLog -> CallbackResult.
Variable onNodeUpdate : string -> NodeExecution -> CallbackResult.
Variable workflow : Workflow.
Variable env : gmap string string.
Variable aliasMap : AliasMap.
Variable singleNodeId : option string.

Local Abbreviation LOOP fuel :=
  (loop getBlockConfig onLog onNodeUpdate fuel workflow env aliasMap
     singleNodeId).
Local Abbreviation EXEC node :=
  (executeNode getBlockConfig onLog onNodeUpdate workflow node env aliasMap
     singleNodeId).
Local Abbreviation REACHES :=
  (loop_reaches getBlockConfig onLog onNodeUpdate workflow env aliasMap
     singleNodeId).

(** The three ways out of the loop: the queue is empty; the abort signal
    is seen at a dequeue; a node's execution throws. *)
Inductive loop_end : LoopState -> Res unit * EngineState -> Prop :=
  | end_empty visited st :
      loop_end (visited, [], st) (Ok tt, st)
  | end_cancelled visited nodeId queue' st :
      aborted st = true ->
      loop_end (visited, nodeId :: queue', st)
        (Ok tt, with_execution (set_status Cancelled) st)
  | end_failed visited nodeId queue' st node e st1 :
      aborted st = false ->
      nodeId ∉ visited ->
      findNode workflow nodeId = Some node ->
      EXEC node st = (Throw e, st1) ->
      loop_end (visited, nodeId :: queue', st) (loopCatch onLog node e st1).

(** Every run of the loop that does not run out of fuel is a sequence of
    iterations followed by one of the three exits. *)
Lemma loop_outcome fuel visited queue st :
  (LOOP fuel visited queue st).1 <> OutOfFuel ->
  exists s', REACHES (visited, queue, st) s'
             /\ loop_end s' (LOOP fuel visited queue st).
Proof.
  revert visited queue st.
  induction fuel as [|fuel IH]; intros visited queue st Hne.
  - destruct queue; [| done]. eexists. split; [apply rtc_refl | constructor].
  - destruct queue as [|x queue'].
    { eexists. split; [apply rtc_refl | constructor]. }
    destruct (aborted st) eqn:Ha.
    { eexists. split; [apply rtc_refl |].
      rewrite loop_unfold. unfold bind, get. rewrite Ha. by constructor. }
    destruct (decide (x ∈ visited)) as [Hv | Hv].
    { assert (Hnext : loop_next getBlockConfig onLog onNodeUpdate workflow env
                aliasMap singleNodeId (visited, x :: queue', st)
                (visited, queue', st)) by by constructor.
      pose proof (loop_next_run _ _ _ _ _ _ _ _ _ fuel Hnext) as Hrun.
      cbn [fst snd] in Hrun. rewrite Hrun in *.
      destruct (IH _ _ _ Hne) as (s' & Hreach & Hend).
      exists s'. split; [by eapply rtc_l | done]. }
    destruct (findNode workflow x) as [node|] eqn:Hf.
    + destruct (EXEC node st) as [[[]|e|] st1] eqn:Hx.
      * assert (Hnext : loop_next getBlockConfig onLog onNodeUpdate workflow
                  env aliasMap singleNodeId (visited, x :: queue', st)
                  ({[x]} ∪ visited,
                   enqueue workflow singleNodeId ({[x]} ∪ visited) queue' x,
                   st1)) by by econstructor.
        pose proof (loop_next_run _ _ _ _ _ _ _ _ _ fuel Hnext) as Hrun.
        cbn [fst snd] in Hrun. rewrite Hrun in *.
        destruct (IH _ _ _ Hne) as (s' & Hreach & Hend).
        exists s'. split; [by eapply rtc_l | done].
      * eexists. split; [apply rtc_refl |].
        rewrite loop_unfold. unfold bind at 1, get at 1.
        rewrite Ha, bool_decide_eq_false_2, Hf by done.
        unfold bind. rewrite (try_catch_run_Throw _ _ _ _ _ Hx).
        destruct (loopCatch_run onLog node e st1) as (e' & st2 & Hc & _).
        rewrite Hc, <- Hc. by econstructor.
      * pose proof (executeNode_effect getBlockConfig onLog onNodeUpdate
                      workflow node env aliasMap singleNodeId st) as [Hn _].
        by rewrite Hx in Hn.
    + assert (Hnext : loop_next getBlockConfig onLog onNodeUpdate workflow env
                aliasMap singleNodeId (visited, x :: queue', st)
                ({[x]} ∪ visited, queue', st)) by by constructor.
      pose proof (loop_next_run _ _ _ _ _ _ _ _ _ fuel Hnext) as Hrun.
      cbn [fst snd] in Hrun. rewrite Hrun in *.
      destruct (IH _ _ _ Hne) as (s' & Hreach & Hend).
      exists s'. split; [by eapply rtc_l | done].
Qed.

End LoopOutcome.

(* ===================================================================== *)
(** ** The call returns a snapshot *)
(* ===================================================================== *)

Section Returns.

Variable getBlockConfig : string -> option Block.
Variable onLog : ExecutionLog -> CallbackResult.
Variable onNodeUpdate : string -> NodeExecution -> CallbackResult.
Variable workflow : Workflow.
Variable env : gmap string string.
Variable options : Options.

Hypothesis onLog_returns : never_throws onLog.

Lemma log_returns level message nodeId st :
  exists st',
    log onLog level message nodeId st = (Ok tt, st')
    /\ log_frame st st'
    /\ logs (execution st')
       = (logs (execution st)
            ++ [{| log_nodeId := nodeId; log_message := message;
                   log_level := level |}])%list.
Proof.
  pose proof (keeps_log onLog level message nodeId st) as [_ Hf].
  revert Hf. unfold log, bind, modify, callback.
  destruct (onLog _) as [| |e] eqn:Hcb; simpl; intros Hf.
  - eauto.
  - eauto.
  - by destruct (onLog_returns _ _ Hcb).
Qed.

(** [returns m]: [m] always returns normally. *)
Definition returns {A} (m : M A) : Prop :=
  forall st, exists a st', m st = (Ok a, st').

Lemma returns_bind {A B} (m : M A) (k : A -> M B) :
  returns m -> (forall a, returns (k a)) -> returns (bind m k).
Proof.
  intros Hm Hk st. destruct (Hm st) as (a & st1 & H1).
  rewrite (bind_run_Ok _ _ _ _ _ H1). apply Hk.
Qed.

Lemma returns_for_each {A} (l : list A) (f : A -> M unit) :
  (forall x, returns (f x)) -> returns (for_each l f).
Proof.
  intros Hf. induction l as [|x l IH]; simpl.
  - intros st. by eexists _, _.
  - by apply returns_bind.
Qed.

Lemma returns_log level message nodeId :
  returns (log onLog level message nodeId).
Proof.
  intros st. destruct (log_returns level message nodeId st) as (st' & H & _).
  by eexists _, _.
Qed.

Lemma returns_restoreOutputs : returns (restoreOutputs onLog).
Proof.
  unfold restoreOutputs. apply returns_bind; [intros st; by eexists _, _ |].
  intros st0. apply returns_for_each. intros [n ne]. simpl.
  destruct (ne_outputs ne); [| intros st; by eexists _, _].
  apply returns_bind; [intros st; by eexists _, _ |].
  intros _. apply returns_log.
Qed.

Lemma prologue_returns :
  exists st0,
    prologue onLog workflow options (initialState workflow options)
    = (Ok tt, st0).
Proof.
  assert (H : returns (prologue onLog workflow options)).
  { unfold prologue. apply returns_bind; [apply returns_log |]. intros _.
    destruct (bool_decide _); simpl;
      [apply returns_restoreOutputs | intros st; by eexists _, _]. }
  destruct (H (initialState workflow options)) as ([] & st0 & H0). eauto.
Qed.

(** Validation throws right after the opening log line. *)
Lemma executeWorkflow_invalid st1 e :
  log onLog Info ("🚀 Starting workflow: " +:+ wf_name workflow) None
    (initialState workflow options) = (Ok tt, st1) ->
  validateWorkflow workflow = Some e ->
  executeWorkflow getBlockConfig onLog onNodeUpdate workflow env options
    = conclude onLog (Throw e, st1).
Proof.
  intros Hlog Hinvalid.
  unfold executeWorkflow, executeWorkflowM, conclude.
  rewrite (bind_run_Ok _ _ _ _ _ Hlog).
  unfold bind at 1. unfold bind at 2.
  unfold try_catch, runWorkflow. rewrite Hinvalid.
  reflexivity.
Qed.

(** The start node is looked up after the restore loop. *)
Lemma executeWorkflow_no_start st0 :
  prologue onLog workflow options (initialState workflow options)
    = (Ok tt, st0) ->
  validateWorkflow workflow = None ->
  startNodeOf workflow options = None ->
  executeWorkflow getBlockConfig onLog onNodeUpdate workflow env options
    = conclude onLog
        (Throw (ErrorObj (if bool_decide (is_Some (singleNodeIdOf options))
                          then "Selected node not found"
                          else "Start node not found")), st0).
Proof.
  intros Hpro Hvalid Hstart.
  unfold executeWorkflow, executeWorkflowM, conclude.
  unfold prologue in Hpro.
  apply bind_Ok_inv in Hpro as ([] & st1 & Hlog & Hrestore).
  rewrite (bind_run_Ok _ _ _ _ _ Hlog).
  unfold bind at 1. unfold bind at 3.
  unfold try_catch, runWorkflow. rewrite Hvalid.
  rewrite (bind_run_Ok _ _ _ _ _ Hrestore).
  unfold startNodeOf in Hstart. rewrite Hstart.
  reflexivity.
Qed.

(** The outer [catch] returns the snapshot, marked failed, with the
    failure as its last log line. *)
Lemma conclude_Throw_returns e st :
  exists st',
    conclude onLog (Throw e, st) = (Ok (execution st'), st')
    /\ status (execution st') = Failed
    /\ nodeExecutions (execution st') = nodeExecutions (execution st)
    /\ started st' = started st
    /\ contexts st' = contexts st
    /\ logs (execution st')
       = (logs (execution st)
            ++ [{| log_nodeId := None;
                   log_message := "💥 Workflow failed: " +:+ errorMessage e;
                   log_level := Error |}])%list.
Proof.
  rewrite conclude_Throw. unfold workflowCatch, bind at 1, setStatus, modify.
  match goal with |- context [log onLog ?a ?b ?c ?s] =>
    destruct (log_returns a b c s) as (st' & -> & [] & Hlogs) end.
  exists st'. simpl in *. repeat split; try done.
Qed.

(** After a loop that ran to an empty queue. *)
Lemma conclude_Ok_returns st :
  status (execution st) = Running ->
  exists st',
    conclude onLog (Ok tt, st) = (Ok (execution st'), st')
    /\ status (execution st') = Success
    /\ nodeExecutions (execution st') = nodeExecutions (execution st)
    /\ started st' = started st
    /\ contexts st' = contexts st.
Proof.
  intros Hrun. unfold conclude. cbn [snd].
  unfold bind at 1, try_catch, bind at 1, afterLoop, bind at 1, get at 1.
  rewrite bool_decide_eq_false_2 by (rewrite Hrun; done).
  unfold bind at 1, setStatus, modify.
  match goal with |- context [log onLog ?a ?b ?c ?s] =>
    destruct (log_returns a b c s) as (st' & -> & [] & Hlogs) end.
  exists st'. simpl in *. repeat split; try done.
Qed.

End Returns.

(** C2, as the code has it.  Provided the [onLog] subscriber does not
    throw, [executeWorkflow] returns a snapshot for every workflow,
    environment, options, block registry and [onNodeUpdate] subscriber, and
    failures are encoded in its status: the status is never left at
    [running]; a workflow that fails validation or has no start node yields
    [error] before any node runs; and a status of [success] means every
    node that was started is recorded [success].  (An exception thrown by
    [onLog] is not caught by [log]; see
    [throwing_log_subscriber_rejects].) *)
Theorem executeWorkflow_returns_snapshot
    (getBlockConfig : string -> option Block)
    (onLog : ExecutionLog -> CallbackResult)
    (onNodeUpdate : string -> NodeExecution -> CallbackResult)
    (workflow : Workflow) (env : gmap string string) (options : Options) :
  never_throws onLog ->
  exists st',
    executeWorkflow getBlockConfig onLog onNodeUpdate workflow env options
      = (Ok (execution st'), st')
    /\ status (execution st') <> Running
    /\ (validateWorkflow workflow <> None \/ startNodeOf workflow options = None ->
        status (execution st') = Failed /\ started st' = [])
    /\ (status (execution st') = Success ->
        forall n, n ∈ started st' -> entry_success n st').
Proof.
  intros Hq.
  destruct (validateWorkflow workflow) as [e|] eqn:Hvalid.
  { destruct (log_returns onLog Hq Info
                ("🚀 Starting workflow: " +:+ wf_name workflow) None
                (initialState workflow options)) as (st1 & Hlog & [] & _).
    rewrite (executeWorkflow_invalid _ _ _ _ _ _ st1 e Hlog Hvalid).
    destruct (conclude_Throw_returns onLog Hq e st1)
      as (st' & -> & Hs & _ & Hst & _).
    exists st'. rewrite Hs. repeat split; try done.
    by rewrite Hst, lf_started0. }
  destruct (prologue_returns onLog workflow options Hq) as (st0 & Hpro).
  pose proof (prologue_frame onLog workflow options) as Hf.
  cbn zeta in Hf. rewrite Hpro in Hf. cbn [fst snd] in Hf.
  destruct Hf as (_ & Hrun0 & _ & _ & Hst0 & _).
  destruct (startNodeOf workflow options) as [startNode|] eqn:Hstart.
  2:{ rewrite (executeWorkflow_no_start _ _ _ _ _ _ st0 Hpro Hvalid Hstart).
      match goal with |- context [conclude onLog (Throw ?e, _)] =>
        destruct (conclude_Throw_returns onLog Hq e st0)
          as (st' & -> & Hs & _ & Hst & _) end.
      exists st'. rewrite Hs. repeat split; try done. by rewrite Hst. }
  rewrite (executeWorkflow_run _ _ _ _ _ _ st0 startNode Hvalid Hpro Hstart).
  pose proof (loop_fuel_enough getBlockConfig onLog onNodeUpdate workflow env
                (buildAliasMap (nodes workflow)) (singleNodeIdOf options)
                (loopFuel workflow) ∅ [n_id startNode] st0
                (loopFuel_initial workflow (n_id startNode))) as Hfuel.
  destruct (loop_outcome _ _ _ _ _ _ _ _ _ _ _ Hfuel) as (s' & Hreach & Hend).
  clear Hfuel.
  set (p := loop _ _ _ _ _ _ _ _ _ _ st0) in *. clearbody p.
  assert (Hinv : loop_inv st0 s').
  { eapply loop_inv_reaches; [| apply loop_inv_start | exact Hreach].
    rewrite Hst0. intros n Hn. inversion Hn. }
  destruct Hinv. rewrite Hrun0 in li_status0.
  inversion Hend as [v st Hs Hl | v x q st Ha Hs Hl
                    | v x q st node e st1 Ha Hv Hfind Hx Hs Hl];
    subst s' p; cbn [fst snd] in *.
  - destruct (conclude_Ok_returns onLog Hq st li_status0)
      as (st' & -> & Hs' & Hne' & Hst' & _).
    exists st'. rewrite Hs'. split; [done |]. split; [done |].
    split; [intros [? | ?]; done |].
    intros _ n Hn. rewrite Hst' in Hn.
    destruct (li_success0 n Hn) as (ne & H1 & H2).
    { rewrite Hst0. by intros ?%elem_of_nil. }
    exists ne. by rewrite Hne'.
  - rewrite conclude_Cancelled by done.
    eexists. split; [reflexivity |]. simpl.
    split; [done |]. split; [intros [? | ?]; done | done].
  - destruct (loopCatch_run onLog node e st1) as (e' & st2 & Hc & _).
    rewrite Hc.
    destruct (conclude_Throw_returns onLog Hq e' st2)
      as (st' & -> & Hs' & _).
    exists st'. rewrite Hs'. split; [done |]. split; [done |].
    split; [intros [? | ?]; done | done].
Qed.

(** C10.  In single-node mode the workflow's [starterId] must still
    resolve: when the node list is not empty and no node has the id
    [starterId], the run ends with status [error] and the log line
    "Start node not found" before any node executes, whatever node was
    selected - even one that exists. *)
Theorem single_node_mode_requires_starter
    (getBlockConfig : string -> option Block)
    (onLog : ExecutionLog -> CallbackResult)
    (onNodeUpdate : string -> NodeExecution -> CallbackResult)
    (workflow : Workflow) (env : gmap string string) (options : Options)
    (selected : string) :
  never_throws onLog ->
  singleNodeIdOf options = Some selected ->
  nodes workflow <> [] ->
  findNode workflow (starterId workflow) = None ->
  exists st',
    executeWorkflow getBlockConfig onLog onNodeUpdate workflow env options
      = (Ok (execution st'), st')
    /\ status (execution st') = Failed
    /\ started st' = []
    /\ contexts st' = []
    /\ nodeExecutions (execution st')
       = nodeExecutions (initialExecution workflow options)
    /\ last (logs (execution st'))
       = Some {| log_nodeId := None;
                 log_message := "💥 Workflow failed: Start node not found";
                 log_level := Error |}.
Proof.
  intros Hq _ Hnodes Hstarter.
  assert (Hinvalid : validateWorkflow workflow
                     = Some (ErrorObj "Start node not found")).
  { unfold validateWorkflow. rewrite Hstarter. by destruct (nodes workflow). }
  destruct (log_returns onLog Hq Info
              ("🚀 Starting workflow: " +:+ wf_name workflow) None
              (initialState workflow options)) as (st1 & Hlog & [] & _).
  rewrite (executeWorkflow_invalid _ _ _ _ _ _ st1 _ Hlog Hinvalid).
  destruct (conclude_Throw_returns onLog Hq
              (ErrorObj "Start node not found") st1)
    as (st' & -> & Hs & Hne & Hst & Hctx & Hlogs).
  exists st'. repeat split; try done.
  - by rewrite Hst, lf_started0.
  - by rewrite Hctx, lf_contexts0.
  - by rewrite Hne, lf_nodeExecutions0.
  - rewrite Hlogs. apply last_snoc.
Qed.

(* ===================================================================== *)
(** ** Sample workflows *)
(* ===================================================================== *)

Module Sample.

Definition node (id type : string) (data : Obj) : WorkflowNode :=
  {| n_id := id; n_type := type; n_data := data |}.

Definition edge (source target : string) : WorkflowEdge :=
  {| e_id := source +:+ "-" +:+ target; e_source := source;
     e_target := target |}.

(** A block that resolves to [v] and does nothing else. *)
Definition resolving (v : JsValue) : Block := fun _ =>
  {| calls := []; hostStopped := false; settled := inl v |}.

(** A block that rejects with [new Error(message)]. *)
Definition rejecting (message : string) : Block := fun _ =>
  {| calls := []; hostStopped := false;
     settled := inr (ErrorObj message) |}.

(** A block during whose run the host calls [stop()]. *)
Definition interrupted : Block := fun _ =>
  {| calls := []; hostStopped := true; settled := inl JUndefined |}.

Definition quietLog : ExecutionLog -> CallbackResult := fun _ => CbReturn.
Definition quietUpdate : string -> NodeExecution -> CallbackResult :=
  fun _ _ => CbReturn.
Definition throwingLog : ExecutionLog -> CallbackResult :=
  fun _ => CbThrow (ErrorObj "subscriber failed").

Lemma quietLog_never_throws : never_throws quietLog.
Proof. intros l e H. discriminate H. Defined.

(** [starter -> a], [starter -> b]. *)
Definition fork : Workflow :=
  {| wf_id := "wf"; wf_name := "fork"; starterId := "starter";
     nodes := [node "starter" "starter" []; node "a" "task" [];
               node "b" "task" []];
     edges := [edge "starter" "a"; edge "starter" "b"] |}.

(** The same nodes without any node called [starter]. *)
Definition headless : Workflow :=
  {| wf_id := "wf"; wf_name := "headless"; starterId := "starter";
     nodes := [node "a" "task" []; node "b" "task" []];
     edges := [edge "a" "b"] |}.

Definition onlyStarter : Workflow :=
  {| wf_id := "wf"; wf_name := "one"; starterId := "starter";
     nodes := [node "starter" "starter" []]; edges := [] |}.

Definition registry (starter task : Block) (type : string) : option Block :=
  if String.eqb type "starter" then Some starter
  else if String.eqb type "task" then Some task
  else None.

End Sample.

(** C2, as stated, fails: a throwing [onLog] subscriber makes the very
    first [log] call throw, outside the [try], and [executeWorkflow]
    rejects. *)
Lemma throwing_log_subscriber_rejects :
  (executeWorkflow
     (Sample.registry (Sample.resolving JUndefined) (Sample.resolving JUndefined))
     Sample.throwingLog Sample.quietUpdate Sample.onlyStarter ∅ no_options).1
  = Throw (ErrorObj "subscriber failed").
Proof. reflexivity. Qed.

Lemma executeWorkflow_returns_snapshot_witness :
  exists st',
    executeWorkflow
      (Sample.registry (Sample.resolving JUndefined) (Sample.rejecting "boom"))
      Sample.quietLog Sample.quietUpdate Sample.fork ∅ no_options
    = (Ok (execution st'), st')
    /\ status (execution st') <> Running.
Proof.
  destruct (executeWorkflow_returns_snapshot
              (Sample.registry (Sample.resolving JUndefined)
                 (Sample.rejecting "boom"))
              Sample.quietLog Sample.quietUpdate Sample.fork ∅ no_options
              Sample.quietLog_never_throws) as (st' & H1 & H2 & _).
  exists st'. split; [exact H1 | exact H2].
Defined.

Lemma single_node_mode_requires_starter_witness :
  exists st',
    executeWorkflow
      (Sample.registry (Sample.resolving JUndefined) (Sample.resolving JUndefined))
      Sample.quietLog Sample.quietUpdate Sample.headless ∅
      {| onlyNodeId := Some "b"; existingExecution := None |}
    = (Ok (execution st'), st')
    /\ findNode Sample.headless "b" = Some (Sample.node "b" "task" [])
    /\ status (execution st') = Failed
    /\ started st' = [].
Proof.
  destruct (single_node_mode_requires_starter
              (Sample.registry (Sample.resolving JUndefined)
                 (Sample.resolving JUndefined))
              Sample.quietLog Sample.quietUpdate Sample.headless ∅
              {| onlyNodeId := Some "b"; existingExecution := None |} "b"
              Sample.quietLog_never_throws eq_refl
              ltac:(discriminate) eq_refl) as (st' & H1 & H2 & H3 & _).
  exists st'. split; [exact H1 |]. split; [reflexivity |].
  split; [exact H2 | exact H3].
Defined.

Module SampleRuns.
Import Sample.

(** The state in which the loop of a fresh run of [fork] is entered. *)
Definition entry (log : ExecutionLog -> CallbackResult) : EngineState :=
  (prologue log fork no_options (initialState fork no_options)).2.

(** The state after the starter node of [fork] was executed. *)
Definition afterStarter (starter task : Block) : EngineState :=
  (executeNode (registry starter task) quietLog quietUpdate fork
     (node "starter" "starter" []) ∅ (buildAliasMap (nodes fork)) None
     (entry quietLog)).2.

(** A fresh run of [fork] comes to the top of the loop with the starter
    executed and [a], [b] waiting, whenever the starter's block
    resolves. *)
Lemma fork_reaches (starter task : Block) :
  (executeNode (registry starter task) quietLog quietUpdate fork
     (node "starter" "starter" []) ∅ (buildAliasMap (nodes fork)) None
     (entry quietLog)).1 = Ok tt ->
  run_reaches (registry starter task) quietLog quietUpdate fork ∅ no_options
    ({["starter"]} ∪ ∅, ["a"; "b"], afterStarter starter task).
Proof.
  intros Hok.
  exists (entry quietLog), (node "starter" "starter" []).
  split; [reflexivity |]. split; [reflexivity |]. split; [reflexivity |].
  eapply rtc_l; [| apply rtc_refl].
  assert (Hqueue : enqueue fork None ({["starter"]} ∪ ∅) [] "starter"
                   = ["a"; "b"]) by (vm_compute; reflexivity).
  rewrite <- Hqueue.
  apply (next_executed (registry starter task) quietLog quietUpdate fork ∅
           (buildAliasMap (nodes fork)) None ∅ "starter" [] (entry quietLog)
           (node "starter" "starter" []) (afterStarter starter task)).
  - reflexivity.
  - apply not_elem_of_empty.
  - reflexivity.
  - unfold afterStarter.
    destruct (executeNode _ _ _ _ _ _ _ _ _) as [r st']. simpl in *.
    by subst r.
Defined.

End SampleRuns.

Lemma stop_before_dequeue_cancels_witness :
  exists ex st',
    executeWorkflow
      (Sample.registry Sample.interrupted (Sample.resolving JUndefined))
      Sample.quietLog Sample.quietUpdate Sample.fork ∅ no_options
    = (Ok ex, st')
    /\ status ex = Cancelled
    /\ started st' = ["starter"].
Proof.
  assert (Hreach := SampleRuns.fork_reaches Sample.interrupted
                      (Sample.resolving JUndefined)
                      ltac:(vm_compute; reflexivity)).
  destruct (stop_before_dequeue_cancels
              (Sample.registry Sample.interrupted (Sample.resolving JUndefined))
              Sample.quietLog Sample.quietUpdate Sample.fork ∅ no_options
              ({["starter"]} ∪ ∅) "a" ["b"]
              (SampleRuns.afterStarter Sample.interrupted
                 (Sample.resolving JUndefined))
              Hreach ltac:(vm_compute; reflexivity))
    as (ex & st' & H1 & H2 & H3 & _).
  exists ex, st'. split; [exact H1 |]. split; [exact H2 |].
  rewrite H3. vm_compute. reflexivity.
Defined.

Lemma node_failure_fails_fast_witness :
  let r := executeWorkflow
             (Sample.registry (Sample.resolving JUndefined)
                (Sample.rejecting "boom"))
             Sample.quietLog Sample.quietUpdate Sample.fork ∅ no_options in
  status (execution r.2) = Failed
  /\ started r.2 = ["starter"; "a"]
  /\ nodeExecutions (execution r.2) !! "b" = None.
Proof.
  assert (Hreach := SampleRuns.fork_reaches (Sample.resolving JUndefined)
                      (Sample.rejecting "boom")
                      ltac:(vm_compute; reflexivity)).
  pose proof (node_failure_fails_fast
                (Sample.registry (Sample.resolving JUndefined)
                   (Sample.rejecting "boom"))
                Sample.quietLog Sample.quietUpdate Sample.fork ∅ no_options
                ({["starter"]} ∪ ∅) "a" ["b"]
                (SampleRuns.afterStarter (Sample.resolving JUndefined)
                   (Sample.rejecting "boom"))
                (Sample.node "a" "task" []) (ErrorObj "boom")
                (executeNode
                   (Sample.registry (Sample.resolving JUndefined)
                      (Sample.rejecting "boom"))
                   Sample.quietLog Sample.quietUpdate Sample.fork
                   (Sample.node "a" "task" []) ∅
                   (buildAliasMap (nodes Sample.fork)) None
                   (SampleRuns.afterStarter (Sample.resolving JUndefined)
                      (Sample.rejecting "boom"))).2
                Hreach ltac:(vm_compute; reflexivity)
                ltac:(set_solver) ltac:(vm_compute; reflexivity)
                ltac:(vm_compute; reflexivity))
    as (H1 & H2 & H3 & _).
  split; [exact H1 |]. split; [rewrite H2; vm_compute; reflexivity |].
  rewrite (H3 "b"); [reflexivity | vm_compute; set_solver | discriminate].
Defined.

(* ===================================================================== *)
(** ** Template resolution *)
(* ===================================================================== *)

Section TemplateFacts.

Variable env : gmap string string.
Variable prevId : option string.
Variable nodeOutputs : gmap string Obj.
Variable aliasMap : AliasMap.

(** A placeholder whose root is [prev]. *)
Lemma resolveExpr_prev expr path :
  splitRoot (Js.trim expr) = ("prev", path) ->
  resolveExpr env prevId nodeOutputs aliasMap expr =
  match prevId with
  | None => ""
  | Some pid =>
      if String.eqb pid "" then ""
      else printValue
             (if String.eqb path "" then
                from_option JObj JUndefined (nodeOutputs !! pid)
              else getByPath (JObj (default [] (nodeOutputs !! pid))) path)
  end.
Proof.
  intros Hsplit. unfold resolveExpr. rewrite Hsplit. simpl.
  destruct prevId as [pid|]; [| done].
  destruct (String.eqb pid ""); [done |].
  destruct (String.eqb path ""); [| done].
  by destruct (nodeOutputs !! pid).
Qed.

(** A placeholder whose root is neither empty, [env] nor [prev]. *)
Lemma resolveExpr_alias expr root path :
  splitRoot (Js.trim expr) = (root, path) ->
  root <> "" -> root <> "env" -> root <> "prev" ->
  let outputsAt tid :=
    match nodeOutputs !! tid with
    | None => ""
    | Some outputs =>
        printValue (if String.eqb path "" then JObj outputs
                    else getByPath (JObj outputs) path)
    end in
  resolveExpr env prevId nodeOutputs aliasMap expr =
  match alias_get aliasMap root with
  | AliasUndefined => outputsAt root
  | AliasNull => ""
  | AliasId id => outputsAt id
  | AliasInherited text => outputsAt text
  end.
Proof.
  intros Hsplit H1 H2 H3. unfold resolveExpr. rewrite Hsplit.
  apply String.eqb_neq in H1, H2, H3. rewrite H1, H2, H3.
  by destruct (alias_get aliasMap root).
Qed.

End TemplateFacts.

(** C5: the traversal does not stop at a string on the path.  With the
    predecessor's outputs [{name: "hello"}], the placeholder
    [{{prev.name.length}}] indexes into the string and prints its length
    instead of resolving to the empty string. *)
Lemma getByPath_walks_into_string :
  getByPath (JObj [("name", JStr "hello")]) "name.length" = JNum 5
  /\ resolveString ∅ (Some "a") {["a" := [("name", JStr "hello")]]} ∅
       "{{prev.name.length}}" = "5".
Proof. split; vm_compute; reflexivity. Qed.

(** The traversal does stop at a falsy value, and at [null] and
    [undefined] in particular: what is left of the path is not looked at. *)
Lemma walkPath_falsy cur p parts :
  Js.truthy cur = false -> walkPath cur (p :: parts) = JUndefined.
Proof. intros H. simpl. by rewrite H. Qed.

(** *** The alias map *)

(** The nodes that go by the name [name]. *)
Definition namedNodes (name : string) (ns : list WorkflowNode)
    : list WorkflowNode :=
  filter (fun n => aliasOf n = name) ns.

Lemma prototype_text_proto k :
  Js.prototype_text k = None -> String.eqb k "__proto__" = false.
Proof.
  unfold Js.prototype_text. by destruct (String.eqb k "__proto__").
Qed.

Lemma alias_get_set_eq k v m :
  Js.prototype_text k = None ->
  alias_get (alias_set k v m) k
  = match v with Some id => AliasId id | None => AliasNull end.
Proof.
  intros Hk. unfold alias_set. rewrite (prototype_text_proto k Hk), andb_false_r.
  unfold alias_get. cbn [am_own]. rewrite lookup_insert_eq. by destruct v.
Qed.

Lemma alias_get_set_ne k k' v m :
  k <> k' -> Js.prototype_text k = None ->
  alias_get (alias_set k' v m) k = alias_get m k.
Proof.
  intros Hne Hk. unfold alias_set, alias_get. rewrite Hk.
  destruct (am_proto m && String.eqb k' "__proto__") eqn:Hp.
  - destruct v as [id|]; [done |]. cbn [am_own am_proto].
    by destruct (am_own m !! k) as [[?|]|], (am_proto m).
  - cbn [am_own am_proto]. by rewrite lookup_insert_ne.
Qed.

(** The alias map at a name that [Object.prototype] does not have. *)
Lemma aliasMap_fold name ns :
  name <> "" -> Js.prototype_text name = None ->
  forall m : AliasMap,
    alias_get (fold_left aliasStep ns m) name =
    match alias_get m name, namedNodes name ns with
    | o, [] => o
    | AliasUndefined, [n] => AliasId (n_id n)
    | _, _ => AliasNull
    end.
Proof.
  intros Hname Hproto. induction ns as [|n ns IH]; intros m; simpl.
  { by destruct (alias_get m name). }
  rewrite IH. unfold namedNodes. rewrite filter_cons. unfold aliasStep.
  destruct (String.eqb_spec (aliasOf n) "") as [He | He].
  { rewrite decide_False by congruence. done. }
  destruct (decide (aliasOf n = name)) as [-> | Hne].
  - destruct (alias_get m name) eqn:Hm; cbv iota;
      rewrite alias_get_set_eq by done;
      by destruct (filter _ ns) as [|? [|? ?]].
  - destruct (alias_get m (aliasOf n)); cbv iota;
      rewrite alias_get_set_ne by done; done.
Qed.

(** C4: a name that every plain object inherits from [Object.prototype]
    is taken for ambiguous at its first occurrence.  With a single node
    whose alias is [toString], [aliasMap['toString']] is the inherited
    function and not [undefined], so the entry is set to [null] and
    [{{toString.field}}] resolves to the empty string, whereas a single
    node with the alias [x] is mapped to its id and [{{x.field}}] reads
    its outputs. *)
Lemma inherited_name_marked_ambiguous :
  let named alias :=
    [{| n_id := "n1"; n_type := "http";
        n_data := [("alias", JStr alias)] |}] in
  let outputs : gmap string Obj := {["n1" := [("field", JNum 1)]]} in
  alias_get (buildAliasMap (named "toString")) "toString" = AliasNull
  /\ resolveString ∅ None outputs (buildAliasMap (named "toString"))
       "{{toString.field}}" = ""
  /\ alias_get (buildAliasMap (named "x")) "x" = AliasId "n1"
  /\ resolveString ∅ None outputs (buildAliasMap (named "x")) "{{x.field}}"
     = "1".
Proof. vm_compute. repeat split; reflexivity. Qed.

Module SampleChain.
Import Sample.

(** [starter -> a -> b]; [b]'s configuration reads [a]'s output. *)
Definition chain : Workflow :=
  {| wf_id := "wf"; wf_name := "chain"; starterId := "starter";
     nodes := [node "starter" "starter" []; node "a" "count" [];
               node "b" "response" [("msg", JStr "{{prev.count}}")]];
     edges := [edge "starter" "a"; edge "a" "b"] |}.

Definition blocks (type : string) : option Block :=
  if String.eqb type "starter" then Some (resolving JUndefined)
  else if String.eqb type "count" then
    Some (fun _ => {| calls := [CallSetNodeOutput "count" (JNum 3)];
                      hostStopped := false; settled := inl JUndefined |})
  else if String.eqb type "response" then Some (resolving JUndefined)
  else None.

End SampleChain.

(** The scenario of the specification, run through the engine: after [a]
    has set [count] to 3, the block of [b] receives [msg = "3"]. *)
Example prev_count_scenario :
  let r := executeWorkflow SampleChain.blocks Sample.quietLog
             Sample.quietUpdate SampleChain.chain ∅ no_options in
  started r.2 = ["starter"; "a"; "b"]
  /\ inputs <$> last (contexts r.2) = Some (JObj [("msg", JStr "3")]).
Proof. vm_compute. split; reflexivity. Qed.

(* ===================================================================== *)
(** ** Recording a node's outputs *)
(* ===================================================================== *)

(** The slot of a node in the Output Store after the [setNodeOutput] calls
    among [cs], starting from [slot] ([None]: no slot yet). *)
Definition slotAfter (slot : option Obj) (cs : list BlockCall) : option Obj :=
  fold_left
    (fun slot c =>
       match c with
       | CallSetNodeOutput key value =>
           Some (Js.obj_set key value (default [] slot))
       | CallLog _ => slot
       end)
    cs slot.

(** The claim of C7 about a node record [ne] and the slot [slot] of that
    node in the Output Store, [written] being what the run wrote via
    [setNodeOutput] and [result] what it returned: the record holds the
    merge, and the store holds that same object. *)
Definition outputsMirrored (written : Obj) (result : JsValue)
    (ne : NodeExecution) (slot : option Obj) : Prop :=
  let merged := Js.spread2 written (returnOutputsOf result) in
  ne_outputs ne = Some merged /\ slot = Some merged.

Section RecordOutputs.

Variable getBlockConfig : string -> option Block.
Variable onLog : ExecutionLog -> CallbackResult.
Variable onNodeUpdate : string -> NodeExecution -> CallbackResult.

Lemma for_each_blockCall_Ok id cs st st' :
  for_each cs (blockCall onLog id) st = (Ok tt, st') ->
  nodeOutputs st' !! id = slotAfter (nodeOutputs st !! id) cs
  /\ contexts st' = contexts st.
Proof.
  revert st. induction cs as [|c cs IH]; intros st H; simpl in *.
  { by injection H as <-. }
  apply bind_Ok_inv in H as ([] & s1 & Hc & H).
  apply IH in H as [H1 H2]. rewrite H1, H2.
  destruct c as [key value | message]; simpl in Hc.
  - injection Hc as <-. simpl. by rewrite lookup_insert_eq.
  - pose proof (keeps_log onLog Info (Js.to_string message) (Some id) st)
      as [_ []].
    rewrite Hc in *. simpl in *. by rewrite lf_nodeOutputs0, lf_contexts0.
Qed.

Lemma settleRun_Ok id r st result st' :
  settleRun onLog id r st = (Ok result, st') ->
  settled r = inl result
  /\ nodeOutputs st' !! id = slotAfter (nodeOutputs st !! id) (calls r)
  /\ contexts st' = contexts st.
Proof.
  unfold settleRun. intros H.
  apply bind_Ok_inv in H as ([] & s1 & Hcalls & H).
  apply for_each_blockCall_Ok in Hcalls as [H1 H2].
  apply bind_Ok_inv in H as ([] & s2 & Hstop & H).
  assert (nodeOutputs s2 = nodeOutputs s1 /\ contexts s2 = contexts s1)
    as [H3 H4].
  { destruct (hostStopped r); simpl in Hstop; by injection Hstop as <-. }
  destruct (settled r) as [v|e]; [| discriminate].
  injection H as <- <-. by rewrite H3, H4.
Qed.

Lemma recordResult_Ok node result st st' :
  recordResult onLog node result st = (Ok tt, st') ->
  is_Some (nodeExecutions (execution st) !! n_id node) ->
  let written := default [] (nodeOutputs st !! n_id node) in
  (exists ne,
     nodeExecutions (execution st') !! n_id node = Some ne
     /\ ne_status ne = NodeSuccess
     /\ ne_outputs ne = Some (Js.spread2 written (returnOutputsOf result)))
  /\ nodeOutputs st' !! n_id node =
     match objectLike result with
     | Some o => Some (Js.spread2 written o)
     | None => nodeOutputs st !! n_id node
     end
  /\ contexts st' = contexts st.
Proof.
  set (id := n_id node). unfold recordResult. fold id.
  intros H [ne0 Hne0]. cbv zeta.
  apply bind_Ok_inv in H as ([] & s1 & [= <-] & H).
  apply bind_Ok_inv in H as (s1' & ? & [= <- <-] & H).
  apply bind_Ok_inv in H as ([] & s2 & [= <-] & H).
  apply bind_Ok_inv in H as ([] & s3 & Hstore & H).
  assert (Hlog : log_frame s3 st').
  { destruct (negb _); simpl in H; [| by injection H as <-].
    match type of H with log onLog ?a ?b ?c ?s = _ =>
      pose proof (keeps_log onLog a b c s) as [_ Hf] end.
    by rewrite H in Hf. }
  destruct Hlog.
  rewrite lf_nodeExecutions0, lf_nodeOutputs0, lf_contexts0.
  destruct (objectLike result) as [o|]; injection Hstore as <-; simpl.
  - rewrite !lookup_alter_eq, Hne0, lookup_insert_eq. simpl.
    split; [| done]. eexists. split; [done |]. simpl. split; [done |].
    unfold returnOutputsOf. fold id. done.
  - rewrite !lookup_alter_eq, Hne0. simpl.
    split; [| done]. eexists. split; [done |]. simpl. done.
Qed.

End RecordOutputs.

Lemma executeNode_Ok_inv getBlockConfig onLog onNodeUpdate workflow node env
    aliasMap singleNodeId st st' :
  executeNode getBlockConfig onLog onNodeUpdate workflow node env aliasMap
    singleNodeId st = (Ok tt, st') ->
  exists s1 s2,
    log_frame
      (with_started (fun h => (h ++ [n_id node])%list)
         (with_execution
            (with_nodeExecutions
               (insert (n_id node)
                  {| ne_nodeId := n_id node; ne_status := NodeRunning;
                     ne_outputs := None; ne_error := None |})) st)) s1
    /\ nodeTry getBlockConfig onLog workflow node env aliasMap singleNodeId s1
       = (Ok tt, s2)
    /\ log_frame s2 st'.
Proof.
  unfold executeNode.
  unfold bind at 1. unfold modify at 1. unfold bind at 1. unfold modify at 1.
  intros H.
  apply bind_Ok_inv in H as ([] & s1 & H1 & H).
  apply bind_Ok_inv in H as ([] & s2 & H2 & H).
  exists s1, s2. split; [| split].
  - match type of H1 with _ ?s = _ =>
      pose proof (keeps_notifyNodeUpdate onNodeUpdate (n_id node) s) as [_ Hf] end.
    by rewrite H1 in Hf.
  - unfold try_catch in H2.
    destruct (nodeTry _ _ _ _ _ _ _ s1) as [[[]|e|] s] eqn:Htry;
      try discriminate.
    + by injection H2 as <-.
    + by apply nodeCatch_not_Ok in H2.
  - pose proof (keeps_notifyNodeUpdate onNodeUpdate (n_id node) s2) as [_ Hf].
    by rewrite H in Hf.
Qed.

(** C7, as the code has it.  After a node's execution returns normally,
    its recorded outputs are the merge, in this order, of (a) the node's
    slot in the Output Store as the run left it - what the slot held when
    the run began, overlaid with everything written via [setNodeOutput]
    during the run - and (b) the returned result, a value that is not a
    plain object being wrapped as [{value: it}].  The merged object is
    mirrored into the Output Store when the result is a plain object;
    otherwise the store keeps the slot as the run left it, without
    [value]. *)
Theorem node_outputs_recorded
    (getBlockConfig : string -> option Block)
    (onLog : ExecutionLog -> CallbackResult)
    (onNodeUpdate : string -> NodeExecution -> CallbackResult)
    (workflow : Workflow) (node : WorkflowNode) (env : gmap string string)
    (aliasMap : AliasMap) (singleNodeId : option string)
    (run : Block) (st st' : EngineState) :
  executeNode getBlockConfig onLog onNodeUpdate workflow node env aliasMap
    singleNodeId st = (Ok tt, st') ->
  getBlockConfig (n_type node) = Some run ->
  exists context result ne,
    contexts st' = (contexts st ++ [context])%list
    /\ ctx_nodeId context = n_id node
    /\ ctx_nodeOutputs context = nodeOutputs st
    /\ settled (run context) = inl result
    /\ nodeExecutions (execution st') !! n_id node = Some ne
    /\ ne_status ne = NodeSuccess
    /\ let slot := slotAfter (nodeOutputs st !! n_id node)
                     (calls (run context)) in
       ne_outputs ne
       = Some (Js.spread2 (default [] slot) (returnOutputsOf result))
       /\ nodeOutputs st' !! n_id node =
          match objectLike result with
          | Some o => Some (Js.spread2 (default [] slot) o)
          | None => slot
          end
       /\ (is_Some (objectLike result) ->
           outputsMirrored (default [] slot) result ne
             (nodeOutputs st' !! n_id node)).
Proof.
  intros Hx Hblock.
  apply executeNode_Ok_inv in Hx as (s1 & s2 & F1 & Htry & F2).
  unfold nodeTry in Htry.
  apply bind_Ok_inv in Htry as ([] & s1a & Hlog & Htry).
  assert (F1a : log_frame s1 s1a).
  { destruct (negb _); simpl in Hlog; [| by injection Hlog as <-].
    match type of Hlog with log onLog ?a ?b ?c ?s = _ =>
      pose proof (keeps_log onLog a b c s) as [_ Hf] end.
    by rewrite Hlog in Hf. }
  rewrite Hblock in Htry.
  apply bind_Ok_inv in Htry as (s1b & ? & [= <- <-] & Htry).
  apply bind_Ok_inv in Htry as (result & s3 & Hawait & Hrecord).
  unfold awaitRun in Hawait.
  apply bind_Ok_inv in Hawait as ([] & s1c & [= <-] & Hsettle).
  match type of Hsettle with settleRun _ _ ?r ?s = _ =>
    pose proof (keeps_settleRun onLog (n_id node) r s) as [_ Fs] end.
  rewrite Hsettle in Fs. cbn [snd] in Fs.
  apply settleRun_Ok in Hsettle as (Hres & Hslot & Hctx).
  destruct F1, F1a, F2, Fs. simpl in *.
  apply recordResult_Ok in Hrecord as ((ne & Hne & Hst & Hout) & Hstore & Hctx').
  2:{ apply nf_present0. rewrite lf_nodeExecutions1, lf_nodeExecutions0.
      rewrite lookup_insert_eq. by eexists. }
  rewrite Hslot, lf_nodeOutputs1, lf_nodeOutputs0 in Hout, Hstore.
  exists (buildContext workflow node env aliasMap singleNodeId s1a), result, ne.
  split; [by rewrite lf_contexts2, Hctx', Hctx, lf_contexts1, lf_contexts0 |].
  split; [done |].
  split; [simpl; by rewrite lf_nodeOutputs1, lf_nodeOutputs0 |].
  split; [done |].
  split; [by rewrite lf_nodeExecutions2 |].
  split; [done |]. cbv zeta.
  split; [done |].
  split; [rewrite lf_nodeOutputs2, Hstore; by destruct (objectLike result) |].
  intros [o Ho]. unfold outputsMirrored. split; [done |].
  rewrite lf_nodeOutputs2, Hstore, Ho. unfold returnOutputsOf. by rewrite Ho.
Qed.

Module SampleOutputs.
Import Sample.

(** A block that writes [seen] and then returns [result]. *)
Definition writing (result : JsValue) : Block := fun _ =>
  {| calls := [CallSetNodeOutput "seen" (JBool true)];
     hostStopped := false; settled := inl result |}.

Definition run (task : Block) : Res unit * EngineState :=
  executeNode (registry (resolving JUndefined) task) quietLog quietUpdate fork
    (node "a" "task" []) ∅ (buildAliasMap (nodes fork)) None
    (initialState fork no_options).

End SampleOutputs.

(** C7, as stated, fails: a block that returns the bare value 42 gets
    [{value: 42}] as its recorded outputs, and nothing at all in the Output
    Store. *)
Lemma bare_result_not_mirrored :
  let st' := (SampleOutputs.run (Sample.resolving (JNum 42))).2 in
  exists ne,
    nodeExecutions (execution st') !! "a" = Some ne
    /\ ne_outputs ne = Some [("value", JNum 42)]
    /\ nodeOutputs st' !! "a" = None
    /\ ~ outputsMirrored [] (JNum 42) ne (nodeOutputs st' !! "a").
Proof.
  eexists. split; [vm_compute; reflexivity |].
  split; [reflexivity |]. split; [vm_compute; reflexivity |].
  intros [_ H]. vm_compute in H. discriminate H.
Qed.

Lemma node_outputs_recorded_witness :
  let st' :=
    (SampleOutputs.run
       (SampleOutputs.writing (JObj [("x", JNum 1)]))).2 in
  exists ne,
    nodeExecutions (execution st') !! "a" = Some ne
    /\ ne_outputs ne = Some [("seen", JBool true); ("x", JNum 1)]
    /\ nodeOutputs st' !! "a" = Some [("seen", JBool true); ("x", JNum 1)].
Proof.
  destruct (node_outputs_recorded
              (Sample.registry (Sample.resolving JUndefined)
                 (SampleOutputs.writing (JObj [("x", JNum 1)])))
              Sample.quietLog Sample.quietUpdate Sample.fork
              (Sample.node "a" "task" []) ∅
              (buildAliasMap (nodes Sample.fork)) None
              (SampleOutputs.writing (JObj [("x", JNum 1)]))
              (initialState Sample.fork no_options)
              (SampleOutputs.run
                 (SampleOutputs.writing (JObj [("x", JNum 1)]))).2
              ltac:(vm_compute; reflexivity) eq_refl)
    as (context & result & ne & _ & _ & _ & Hres & H1 & _ & H2 & H3 & _).
  injection Hres as <-.
  exists ne. split; [exact H1 |]. split; [exact H2 | exact H3].
Defined.

(* ===================================================================== *)
(** ** Runs with subscribers that only return *)
(* ===================================================================== *)

(** A subscriber that returns whenever it is called, without calling
    [stop()]. *)
Definition only_returns {A} (cb : A -> CallbackResult) : Prop :=
  forall a, cb a = CbReturn.

(** The contexts handed to blocks so far are left alone. *)
Definition same_contexts : relation EngineState :=
  fun st st' => contexts st' = contexts st.

#[global] Instance same_contexts_preorder : PreOrder same_contexts.
Proof. split; unfold same_contexts; [done | intros ? ? ?; congruence]. Qed.

(** [calm m]: [m] returns normally and leaves the abort signal as it is. *)
Definition calm {A} (m : M A) : Prop :=
  forall st, exists a st', m st = (Ok a, st') /\ aborted st' = aborted st.

Lemma calm_ret {A} (a : A) : calm (ret a).
Proof. intros st. by eexists _, _. Qed.

Lemma calm_get : calm get.
Proof. intros st. by eexists _, _. Qed.

Lemma calm_modify f :
  (forall st, aborted (f st) = aborted st) -> calm (modify f).
Proof. intros H st. eexists _, _. split; [done | apply H]. Qed.

Lemma calm_bind {A B} (m : M A) (k : A -> M B) :
  calm m -> (forall a, calm (k a)) -> calm (bind m k).
Proof.
  intros Hm Hk st. destruct (Hm st) as (a & st1 & H1 & Ha1).
  rewrite (bind_run_Ok _ _ _ _ _ H1).
  destruct (Hk a st1) as (b & st2 & H2 & Ha2).
  eexists _, _. split; [done | congruence].
Qed.

Lemma calm_when b (m : M unit) : calm m -> calm (when b m).
Proof. destruct b; simpl; [done | intros _; apply calm_ret]. Qed.

Lemma calm_for_each {A} (l : list A) (f : A -> M unit) :
  (forall x, calm (f x)) -> calm (for_each l f).
Proof.
  intros Hf. induction l as [|x l IH]; simpl; [apply calm_ret |].
  by apply calm_bind.
Qed.

Lemma calm_try_catch {A} (m : M A) (h : JsError -> M A) :
  calm m -> calm (try_catch m h).
Proof.
  intros Hm st. destruct (Hm st) as (a & st1 & H1 & Ha1).
  rewrite (try_catch_run_Ok _ _ _ _ _ H1). by eexists _, _.
Qed.

Section Quiet.

Variable getBlockConfig : string -> option Block.
Variable onLog : ExecutionLog -> CallbackResult.
Variable onNodeUpdate : string -> NodeExecution -> CallbackResult.

Lemma keeps_contexts_log level message nodeId :
  keeps same_contexts (log onLog level message nodeId).
Proof.
  eapply keeps_weaken; [| apply keeps_log]. by intros st st' [].
Qed.

Lemma keeps_contexts_notify id :
  keeps same_contexts (notifyNodeUpdate onNodeUpdate id).
Proof.
  eapply keeps_weaken; [| apply keeps_notifyNodeUpdate]. by intros st st' [].
Qed.

Lemma keeps_contexts_settleRun id r : keeps same_contexts (settleRun onLog id r).
Proof.
  unfold settleRun.
  apply keeps_bind; [apply _ | |].
  { apply keeps_for_each; [apply _ |]. intros [key value | message]; simpl.
    - by apply keeps_modify.
    - apply keeps_contexts_log. }
  intros _. apply keeps_bind; [apply _ | |].
  { apply keeps_when; [apply _ |]. by apply keeps_modify. }
  intros _. destruct (settled _); [apply keeps_ret | apply keeps_throw]; apply _.
Qed.

Lemma keeps_contexts_recordResult node result :
  keeps same_contexts (recordResult onLog node result).
Proof.
  unfold recordResult.
  apply keeps_bind; [apply _ | by apply keeps_modify |]. intros _.
  apply keeps_bind; [apply _ | apply keeps_get, _ |]. intros st1.
  apply keeps_bind; [apply _ | by apply keeps_modify |]. intros _.
  apply keeps_bind; [apply _ | |].
  { destruct (objectLike _); [by apply keeps_modify | apply keeps_ret, _]. }
  intros _. apply keeps_when; [apply _ |]. apply keeps_contexts_log.
Qed.

Lemma keeps_contexts_nodeCatch id error :
  keeps same_contexts (nodeCatch onLog id error).
Proof.
  unfold nodeCatch.
  apply keeps_bind; [apply _ | by apply keeps_modify |]. intros _.
  apply keeps_bind; [apply _ | by apply keeps_modify |]. intros _.
  apply keeps_bind; [apply _ | apply keeps_contexts_log |]. intros _.
  apply keeps_throw, _.
Qed.

Hypothesis onLog_returns : only_returns onLog.
Hypothesis onNodeUpdate_returns : forall id, only_returns (onNodeUpdate id).

Lemma log_quiet level message nodeId st :
  log onLog level message nodeId st
  = (Ok tt,
     with_execution
       (push_log {| log_nodeId := nodeId; log_message := message;
                    log_level := level |}) st).
Proof. unfold log, bind, modify, callback. by rewrite onLog_returns. Qed.

Lemma notify_quiet id st : notifyNodeUpdate onNodeUpdate id st = (Ok tt, st).
Proof.
  unfold notifyNodeUpdate, bind, get.
  destruct (_ !! _); [| done]. by rewrite onNodeUpdate_returns.
Qed.

Lemma calm_log level message nodeId : calm (log onLog level message nodeId).
Proof. intros st. rewrite log_quiet. by eexists _, _. Qed.

Lemma calm_notify id : calm (notifyNodeUpdate onNodeUpdate id).
Proof. intros st. rewrite notify_quiet. by eexists _, _. Qed.

Lemma calm_settleRun id r :
  hostStopped r = false -> (exists v, settled r = inl v) ->
  calm (settleRun onLog id r).
Proof.
  intros Hstop [v Hres]. unfold settleRun.
  apply calm_bind.
  { apply calm_for_each. intros [key value | message]; simpl.
    - by apply calm_modify.
    - apply calm_log. }
  intros _. rewrite Hstop. apply calm_bind; [apply calm_ret |]. intros _.
  rewrite Hres. apply calm_ret.
Qed.

Lemma calm_recordResult node result : calm (recordResult onLog node result).
Proof.
  unfold recordResult.
  apply calm_bind; [by apply calm_modify |]. intros _.
  apply calm_bind; [apply calm_get |]. intros st1.
  apply calm_bind; [by apply calm_modify |]. intros _.
  apply calm_bind.
  { destruct (objectLike _); [by apply calm_modify | apply calm_ret]. }
  intros _. apply calm_when, calm_log.
Qed.

(** The state in which the block of [node] is called. *)
Definition atRun (node : WorkflowNode) (st : EngineState) : EngineState :=
  let st0 :=
    with_started (fun h => (h ++ [n_id node])%list)
      (with_execution
         (with_nodeExecutions
            (insert (n_id node)
               {| ne_nodeId := n_id node; ne_status := NodeRunning;
                  ne_outputs := None; ne_error := None |})) st) in
  if negb (String.eqb (n_type node) "starter") then
    with_execution
      (push_log {| log_nodeId := Some (n_id node);
                   log_message := "⚡ " +:+ n_type node +:+ ": " +:+ n_id node;
                   log_level := Info |}) st0
  else st0.

(** With quiet subscribers, the execution of a node whose block is
    registered comes down to calling the block and handling its outcome. *)
Lemma executeNode_quiet workflow node env aliasMap singleNodeId run st :
  getBlockConfig (n_type node) = Some run ->
  let context := buildContext workflow node env aliasMap singleNodeId st in
  executeNode getBlockConfig onLog onNodeUpdate workflow node env aliasMap
    singleNodeId st
  = (try_catch
       (let* result := settleRun onLog (n_id node) (run context) in
        recordResult onLog node result)
       (nodeCatch onLog (n_id node)) ;;;
     notifyNodeUpdate onNodeUpdate (n_id node))
      (with_contexts (fun h => (h ++ [context])%list) (atRun node st)).
Proof.
  intros Hblock context.
  unfold executeNode.
  unfold bind at 1. unfold modify at 1. unfold bind at 1. unfold modify at 1.
  erewrite bind_run_Ok by apply notify_quiet.
  match goal with |- (try_catch ?m _ ;;; _) ?s0 = (try_catch ?m' _ ;;; _) ?s3 =>
    assert (Heq : m s0 = m' s3) end.
  { unfold nodeTry. rewrite Hblock. unfold atRun.
    destruct (negb (String.eqb (n_type node) "starter")); simpl when.
    - erewrite bind_run_Ok by apply log_quiet. reflexivity.
    - reflexivity. }
  unfold bind at 1, try_catch at 1. rewrite Heq. reflexivity.
Qed.

(** What a quiet execution of a node with a registered block does, however
    the block ends. *)
Lemma executeNode_quiet_effect workflow node env aliasMap singleNodeId run st :
  getBlockConfig (n_type node) = Some run ->
  let context := buildContext workflow node env aliasMap singleNodeId st in
  let r := executeNode getBlockConfig onLog onNodeUpdate workflow node env
             aliasMap singleNodeId st in
  contexts r.2 = (contexts st ++ [context])%list
  /\ (hostStopped (run context) = false ->
      (exists v, settled (run context) = inl v) ->
      r.1 = Ok tt /\ aborted r.2 = aborted st).
Proof.
  intros Hblock context r. subst r.
  rewrite (executeNode_quiet _ _ _ _ _ run st Hblock). fold context.
  set (s := with_contexts _ _).
  set (m := (try_catch _ _ ;;; _)).
  assert (Hs1 : contexts s = (contexts st ++ [context])%list).
  { unfold s, atRun. by destruct (negb _). }
  assert (Hs2 : aborted s = aborted st).
  { unfold s, atRun. by destruct (negb _). }
  split.
  - assert (Hk : keeps same_contexts m).
    { apply keeps_bind; [apply _ | | intros _; apply keeps_contexts_notify].
      apply keeps_try_catch; [apply _ | | apply keeps_contexts_nodeCatch].
      apply keeps_bind; [apply _ | apply keeps_contexts_settleRun |].
      intros result. apply keeps_contexts_recordResult. }
    destruct (Hk s) as [_ Hc]. unfold same_contexts in Hc. by rewrite Hc.
  - intros Hstop Hres.
    assert (Hc : calm m).
    { apply calm_bind; [| intros _; apply calm_notify].
      apply calm_try_catch, calm_bind; [by apply calm_settleRun |].
      intros result. apply calm_recordResult. }
    destruct (Hc s) as ([] & st' & -> & Ha). split; [done |].
    simpl. congruence.
Qed.

End Quiet.

Lemma only_returns_never_throws {A} (cb : A -> CallbackResult) :
  only_returns cb -> never_throws cb.
Proof. intros H a e Hcb. rewrite H in Hcb. discriminate. Qed.

(* ===================================================================== *)
(** ** Single-node mode *)
(* ===================================================================== *)

Section SingleNode.

Variable getBlockConfig : string -> option Block.
Variable onLog : ExecutionLog -> CallbackResult.
Variable onNodeUpdate : string -> NodeExecution -> CallbackResult.
Hypothesis onLog_returns : only_returns onLog.
Hypothesis onNodeUpdate_returns : forall id, only_returns (onNodeUpdate id).

(** One iteration of the restore loop. *)
Definition restoreEntry (entry : string * NodeExecution) : M unit :=
  match ne_outputs entry.2 with
  | Some outputs =>
      modify (with_nodeOutputs (insert entry.1 outputs)) ;;;
      log onLog Info ("📋 Restored outputs from previous execution: "
                      +:+ entry.1) None
  | None => ret tt
  end.

Lemma restoreOutputs_unfold st :
  restoreOutputs onLog st
  = for_each (map_to_list (nodeExecutions (execution st))) restoreEntry st.
Proof. reflexivity. Qed.

Lemma restoreEntries (l : list (string * NodeExecution)) st :
  NoDup l.*1 ->
  exists st',
    for_each l restoreEntry st = (Ok tt, st')
    /\ aborted st' = aborted st
    /\ (forall n ne o, (n, ne) ∈ l -> ne_outputs ne = Some o ->
        nodeOutputs st' !! n = Some o)
    /\ (forall n, n ∉ l.*1 -> nodeOutputs st' !! n = nodeOutputs st !! n).
Proof.
  revert st. induction l as [|[n ne] l IH]; intros st Hnd; simpl.
  { exists st. repeat split; try done. intros ? ? ? H. inversion H. }
  apply NoDup_cons in Hnd as [Hn Hnd].
  unfold restoreEntry at 1. simpl.
  destruct (ne_outputs ne) as [o|] eqn:Ho.
  - unfold bind at 1, bind at 1, modify at 1. rewrite log_quiet by done.
    set (s1 := with_execution _ _).
    destruct (IH s1 Hnd) as (st' & -> & Ha & Hin & Hout).
    exists st'. split; [done |]. split; [done |]. split.
    + intros n' ne' o' [[= -> ->] | Hel]%elem_of_cons Ho'.
      * rewrite Hout by done. unfold s1. simpl.
        rewrite lookup_insert_eq. congruence.
      * by eapply Hin.
    + intros n' Hn'. apply not_elem_of_cons in Hn' as [Hne Hn'].
      rewrite Hout by done. unfold s1. simpl. by rewrite lookup_insert_ne.
  - unfold bind at 1, ret at 1.
    destruct (IH st Hnd) as (st' & -> & Ha & Hin & Hout).
    exists st'. split; [done |]. split; [done |]. split.
    + intros n' ne' o' [[= -> ->] | Hel]%elem_of_cons Ho'; [congruence |].
      by eapply Hin.
    + intros n' Hn'. apply not_elem_of_cons in Hn' as [Hne Hn'].
      by apply Hout.
Qed.

(** In single-node mode the loop is entered with every recorded [outputs]
    of the prior execution in the Output Store. *)
Lemma prologue_restores workflow options sel :
  singleNodeIdOf options = Some sel ->
  exists st0,
    prologue onLog workflow options (initialState workflow options)
    = (Ok tt, st0)
    /\ aborted st0 = false
    /\ (forall n ne o,
          nodeExecutions (initialExecution workflow options) !! n = Some ne ->
          ne_outputs ne = Some o ->
          nodeOutputs st0 !! n = Some o).
Proof.
  intros Hsel. unfold prologue. rewrite Hsel.
  unfold bind at 1. rewrite log_quiet by done.
  rewrite bool_decide_eq_true_2 by (by eexists). simpl when.
  rewrite restoreOutputs_unfold.
  set (s1 := with_execution _ _).
  destruct (restoreEntries (map_to_list (nodeExecutions (execution s1))) s1)
    as (st0 & -> & Ha & Hin & _).
  { apply NoDup_fst_map_to_list. }
  exists st0. split; [done |]. split; [done |].
  intros n ne o Hlook Ho. eapply Hin; [| done].
  apply elem_of_map_to_list. exact Hlook.
Qed.

End SingleNode.

(** C8.  In single-node mode with a prior execution snapshot, every
    recorded [outputs] of the snapshot is in the Output Store when the
    selected node's block is called, so that the block reads an upstream
    value with [getNodeOutput(upstream, key)] although no upstream node
    executes: the selected node is the only node started, its block is the
    only one called, and the loop enqueues no successor.  (Subscribers only
    return; the workflow passes validation.) *)
Theorem single_node_run_restores_outputs
    (getBlockConfig : string -> option Block)
    (onLog : ExecutionLog -> CallbackResult)
    (onNodeUpdate : string -> NodeExecution -> CallbackResult)
    (workflow : Workflow) (env : gmap string string) (options : Options)
    (selected : string) (prior : WorkflowExecution) (node : WorkflowNode)
    (run : Block) :
  only_returns onLog ->
  (forall id, only_returns (onNodeUpdate id)) ->
  singleNodeIdOf options = Some selected ->
  existingExecution options = Some prior ->
  validateWorkflow workflow = None ->
  findNode workflow selected = Some node ->
  getBlockConfig (n_type node) = Some run ->
  let r := executeWorkflow getBlockConfig onLog onNodeUpdate workflow env
             options in
  exists context,
    started r.2 = [selected]
    /\ contexts r.2 = [context]
    /\ ctx_nodeId context = selected
    /\ isSingleNodeExecution context = true
    /\ (forall n ne o,
          nodeExecutions prior !! n = Some ne -> ne_outputs ne = Some o ->
          ctx_nodeOutputs context !! n = Some o
          /\ (n <> "*" -> n <> "prev" -> forall key, key <> "" ->
              getNodeOutput context n (Some key) = Js.obj_get key o))
    /\ (forall visited queue nodeId,
          enqueue workflow (singleNodeIdOf options) visited queue nodeId
          = queue)
    /\ (exists ex, r.1 = Ok ex /\ ex = execution r.2).
Proof.
  intros HL HU Hsel Hprior Hvalid Hfind Hblock r. subst r.
  pose proof (only_returns_never_throws _ HL) as Hq.
  destruct (prologue_restores onLog HL workflow options selected Hsel)
    as (st0 & Hpro & Ha0 & Hstore).
  pose proof (prologue_frame onLog workflow options) as Hf.
  cbn zeta in Hf. rewrite Hpro in Hf. cbn [fst snd] in Hf.
  destruct Hf as (_ & Hrun0 & _ & _ & Hst0 & Hctx0).
  assert (Hstart : startNodeOf workflow options = Some node).
  { unfold startNodeOf. by rewrite Hsel. }
  pose proof (findNode_Some _ _ _ Hfind) as [_ Hid].
  rewrite (executeWorkflow_run _ _ _ _ _ _ st0 node Hvalid Hpro Hstart).
  set (context := buildContext workflow node env
                    (buildAliasMap (nodes workflow)) (singleNodeIdOf options)
                    st0).
  exists context.
  assert (Hcontext :
    ctx_nodeId context = selected
    /\ isSingleNodeExecution context = true
    /\ (forall n ne o,
          nodeExecutions prior !! n = Some ne -> ne_outputs ne = Some o ->
          ctx_nodeOutputs context !! n = Some o
          /\ (n <> "*" -> n <> "prev" -> forall key, key <> "" ->
              getNodeOutput context n (Some key) = Js.obj_get key o))).
  { split; [done |]. split.
    { unfold context. simpl. rewrite Hsel. by apply bool_decide_eq_true_2. }
    intros n ne o Hn Ho.
    assert (Hlook : ctx_nodeOutputs context !! n = Some o).
    { unfold context. simpl. eapply Hstore; [| done].
      unfold initialExecution. by rewrite Hprior. }
    split; [done |]. intros Hstar Hprev key Hkey.
    unfold getNodeOutput.
    apply String.eqb_neq in Hstar, Hprev, Hkey. rewrite Hstar, Hkey.
    destruct (ctx_prevId context); rewrite ?Hprev; cbn [andb];
      by rewrite Hlook. }
  assert (Henq : forall visited queue nodeId,
            enqueue workflow (singleNodeIdOf options) visited queue nodeId
            = queue).
  { intros. unfold enqueue. by rewrite Hsel. }
  assert (Hloop : exists p,
            loop getBlockConfig onLog onNodeUpdate (loopFuel workflow) workflow
              env (buildAliasMap (nodes workflow)) (singleNodeIdOf options)
              ∅ [n_id node] st0 = p
            /\ started p.2 = [selected]
            /\ contexts p.2 = [context]
            /\ ((p.1 = Ok tt /\ status (execution p.2) = Running)
                \/ exists e, p.1 = Throw e)).
  { unfold loopFuel. rewrite loop_unfold. unfold bind at 1, get at 1.
    rewrite Ha0, bool_decide_eq_false_2, Hid, Hfind by set_solver.
    pose proof (executeNode_effect getBlockConfig onLog onNodeUpdate workflow
                  node env (buildAliasMap (nodes workflow))
                  (singleNodeIdOf options) st0) as [Hfuel Heff].
    pose proof (executeNode_quiet_effect getBlockConfig onLog onNodeUpdate HL
                  HU workflow node env (buildAliasMap (nodes workflow))
                  (singleNodeIdOf options) run st0 Hblock) as [Hctx _].
    fold context in Hctx.
    destruct (executeNode _ _ _ _ _ _ _ _ st0) as [[[]|e|] s1] eqn:Hx;
      [| | done]; cbn [fst snd] in *; destruct Heff.
    - erewrite bind_run_Ok by (by apply try_catch_run_Ok).
      rewrite Henq. eexists. split; [reflexivity |]. simpl.
      rewrite nx_started0, Hctx, Hst0, Hctx0, Hid.
      split; [done |]. split; [done |]. left. split; [done | congruence].
    - unfold bind. rewrite (try_catch_run_Throw _ _ _ _ _ Hx).
      destruct (loopCatch_run onLog node e s1)
        as (e' & s2 & -> & _ & _ & _ & Hs2 & Hc2).
      eexists. split; [reflexivity |]. simpl.
      rewrite Hs2, Hc2, nx_started0, Hctx, Hst0, Hctx0, Hid.
      split; [done |]. split; [done |]. right. by eexists. }
  destruct Hloop as ([p1 p2] & -> & Hs & Hc & Hp). cbn [fst snd] in *.
  destruct Hp as [[-> Hrun] | [e ->]].
  - destruct (conclude_Ok_returns onLog Hq p2 Hrun)
      as (st' & -> & _ & _ & Hs' & Hc').
    cbn [fst snd]. rewrite Hs', Hc'.
    destruct Hcontext as (K1 & K2 & K3).
    split; [done |]. split; [done |]. split; [done |]. split; [done |].
    split; [exact K3 |]. split; [exact Henq |]. by eexists.
  - destruct (conclude_Throw_returns onLog Hq e p2)
      as (st' & -> & _ & _ & Hs' & Hc' & _).
    cbn [fst snd]. rewrite Hs', Hc'.
    destruct Hcontext as (K1 & K2 & K3).
    split; [done |]. split; [done |]. split; [done |]. split; [done |].
    split; [exact K3 |]. split; [exact Henq |]. by eexists.
Qed.

Module SampleRerun.
Import Sample.

(** A prior run recorded [{value: 42}] for [upstream]. *)
Definition prior : WorkflowExecution :=
  {| workflowId := "wf"; status := Success; logs := [];
     nodeExecutions :=
       {["upstream" := {| ne_nodeId := "upstream"; ne_status := NodeSuccess;
                          ne_outputs := Some [("value", JNum 42)];
                          ne_error := None |}]} |}.

(** [starter -> upstream -> target]. *)
Definition pipeline : Workflow :=
  {| wf_id := "wf"; wf_name := "pipeline"; starterId := "starter";
     nodes := [node "starter" "starter" []; node "upstream" "task" [];
               node "target" "task" []];
     edges := [edge "starter" "upstream"; edge "upstream" "target"] |}.

Definition rerun : Options :=
  {| onlyNodeId := Some "target"; existingExecution := Some prior |}.

(** A block that returns what it reads from [upstream]. *)
Definition reading : Block := fun ctx =>
  {| calls := []; hostStopped := false;
     settled := inl (getNodeOutput ctx "upstream" (Some "value")) |}.

End SampleRerun.

Lemma single_node_run_restores_outputs_witness :
  let r := executeWorkflow
             (Sample.registry (Sample.resolving JUndefined) SampleRerun.reading)
             Sample.quietLog Sample.quietUpdate SampleRerun.pipeline ∅
             SampleRerun.rerun in
  exists context,
    started r.2 = ["target"]
    /\ contexts r.2 = [context]
    /\ getNodeOutput context "upstream" (Some "value") = JNum 42.
Proof.
  destruct (single_node_run_restores_outputs
              (Sample.registry (Sample.resolving JUndefined)
                 SampleRerun.reading)
              Sample.quietLog Sample.quietUpdate SampleRerun.pipeline ∅
              SampleRerun.rerun "target" SampleRerun.prior
              (Sample.node "target" "task" []) SampleRerun.reading
              ltac:(intros l; reflexivity) ltac:(intros i ne; reflexivity)
              eq_refl eq_refl eq_refl eq_refl eq_refl)
    as (context & H1 & H2 & _ & _ & H3 & _).
  exists context. split; [exact H1 |]. split; [exact H2 |].
  destruct (H3 "upstream" _ [("value", JNum 42)]
              ltac:(vm_compute; reflexivity) eq_refl) as [_ H4].
  rewrite (H4 ltac:(discriminate) ltac:(discriminate) "value"
             ltac:(discriminate)).
  reflexivity.
Defined.

(* ===================================================================== *)
(** ** Traversal order *)
(* ===================================================================== *)

(** The traversal of the specification: a FIFO queue; dequeue a node id,
    skip it if already visited, else mark it visited, visit it and enqueue
    those of its successors that are not yet visited, in the order
    [successors] lists them.  The result is the list of visits in order. *)
Fixpoint bfs (successors : string -> list string) (fuel : nat)
    (visited : gset string) (queue : list string) : list string :=
  match queue with
  | [] => []
  | x :: queue' =>
      match fuel with
      | O => []
      | S fuel' =>
          if decide (x ∈ visited) then bfs successors fuel' visited queue'
          else
            x :: bfs successors fuel' ({[x]} ∪ visited)
                   (queue' ++
                    filter (fun y => y ∉ {[x]} ∪ visited) (successors x))
      end
  end.

(** The successors of a node in the order of [workflow.nodes]. *)
Definition nodeOrderSuccessors (workflow : Workflow) (x : string)
    : list string :=
  map n_id (getConnectedNodes workflow x).

(** The successors of a node in the order in which the edges are declared
    (targets that are not the id of any node left out). *)
Definition edgeOrderSuccessors (workflow : Workflow) (x : string)
    : list string :=
  filter (fun y => is_Some (findNode workflow y))
    (map e_target
       (filter (fun e => String.eqb (e_source e) x = true) (edges workflow))).

Definition bfsOrder (successors : Workflow -> string -> list string)
    (workflow : Workflow) : list string :=
  bfs (successors workflow) (loopFuel workflow) ∅ [starterId workflow].

(** [y] is the id of a node of the workflow and an edge leads from [x] to
    it. *)
Definition edgeStep (workflow : Workflow) (x y : string) : Prop :=
  (exists e, e ∈ edges workflow /\ e_source e = x /\ e_target e = y)
  /\ (exists n, n ∈ nodes workflow /\ n_id n = y).

(** The nodes reachable from [x] along edges. *)
Definition reachable (workflow : Workflow) : relation string :=
  rtc (edgeStep workflow).

Lemma inList_elem_of x l : inList x l = true <-> x ∈ l.
Proof.
  unfold inList. rewrite existsb_exists. split.
  - intros (y & Hin & Heq). apply String.eqb_eq in Heq as ->.
    by apply list_elem_of_In.
  - intros Hin. exists x. split; [by apply list_elem_of_In |].
    apply String.eqb_refl.
Qed.

Lemma nodeOrderSuccessors_step workflow x y :
  y ∈ nodeOrderSuccessors workflow x <-> edgeStep workflow x y.
Proof.
  unfold nodeOrderSuccessors, getConnectedNodes, edgeStep.
  rewrite list_elem_of_fmap. split.
  - intros (n & -> & Hn). apply list_elem_of_filter in Hn as [Hin Hn].
    apply inList_elem_of, list_elem_of_fmap in Hin as (e & He & Hin).
    apply list_elem_of_filter in Hin as [Hsrc Hin].
    apply String.eqb_eq in Hsrc. split; eauto.
  - intros [(e & He & Hsrc & Htgt) (n & Hn & Hid)].
    exists n. split; [done |]. apply list_elem_of_filter. split; [| done].
    apply inList_elem_of, list_elem_of_fmap. exists e. split; [congruence |].
    apply list_elem_of_filter. split; [| done]. by apply String.eqb_eq.
Qed.

(** The successors of a node come in the order of the workflow's node
    list. *)
Lemma nodeOrderSuccessors_declaration_order workflow x :
  nodeOrderSuccessors workflow x `sublist_of` map n_id (nodes workflow).
Proof.
  unfold nodeOrderSuccessors, getConnectedNodes.
  apply fmap_sublist, sublist_filter.
Qed.

Lemma findNode_is_Some workflow x :
  (exists n, n ∈ nodes workflow /\ n_id n = x) ->
  exists node, findNode workflow x = Some node.
Proof.
  intros (n & Hn & Hid).
  destruct (findNode workflow x) as [node|] eqn:Hf; [by eexists |].
  by destruct (findNode_None _ _ Hf n Hn).
Qed.

Section Bfs.

Variable workflow : Workflow.

Local Abbreviation succs := (nodeOrderSuccessors workflow).
Local Abbreviation isNodeId :=
  (fun x => exists n, n ∈ nodes workflow /\ n_id n = x).

Lemma successors_are_nodes x : Forall isNodeId (succs x).
Proof.
  apply Forall_forall. intros y Hy.
  by apply nodeOrderSuccessors_step in Hy as [_ Hy].
Qed.

Lemma enqueue_are_nodes (visited : gset string) queue x :
  Forall isNodeId queue ->
  Forall isNodeId (queue ++ filter (fun y => y ∉ visited) (succs x)).
Proof.
  intros Hq. apply Forall_app. split; [done |].
  apply Forall_forall. intros y [_ Hy]%list_elem_of_filter.
  by apply nodeOrderSuccessors_step in Hy as [_ Hy].
Qed.

(** Every visit is of a node not visited before, and no node is visited
    twice. *)
Lemma bfs_NoDup fuel visited queue :
  NoDup (bfs succs fuel visited queue)
  /\ (forall z, z ∈ bfs succs fuel visited queue -> z ∉ visited).
Proof.
  revert visited queue. induction fuel as [|fuel IH]; intros visited queue.
  { destruct queue; simpl; split; (constructor || by intros ? ?%elem_of_nil). }
  destruct queue as [|x queue']; simpl.
  { split; [constructor | by intros ? ?%elem_of_nil]. }
  destruct (decide (x ∈ visited)) as [Hv | Hv]; [apply IH |].
  destruct (IH ({[x]} ∪ visited)
              (queue' ++ filter (fun y => y ∉ {[x]} ∪ visited) (succs x))%list)
    as [Hnd Hnot].
  split.
  - constructor; [| done]. intros Hin. apply Hnot in Hin. set_solver.
  - intros z [-> | Hz]%elem_of_cons; [done |]. apply Hnot in Hz. set_solver.
Qed.

(** Every visited node is reachable from a queued one. *)
Lemma bfs_sound fuel visited queue z :
  z ∈ bfs succs fuel visited queue ->
  exists q, q ∈ queue /\ reachable workflow q z.
Proof.
  revert visited queue. induction fuel as [|fuel IH]; intros visited queue.
  { destruct queue; simpl; by intros ?%elem_of_nil. }
  destruct queue as [|x queue']; simpl; [by intros ?%elem_of_nil |].
  destruct (decide (x ∈ visited)) as [Hv | Hv].
  - intros Hz. apply IH in Hz as (q & Hq & Hr). exists q. set_solver.
  - intros [-> | Hz]%elem_of_cons.
    { exists x. split; [set_solver | apply rtc_refl]. }
    apply IH in Hz as (q & Hq & Hr).
    apply elem_of_app in Hq as [Hq | Hq]; [exists q; set_solver |].
    apply list_elem_of_filter in Hq as [_ Hq].
    apply nodeOrderSuccessors_step in Hq.
    exists x. split; [set_solver |]. by eapply rtc_l.
Qed.

(** With enough fuel, every queued node is visited (now or before), and
    so is every successor of a visited node. *)
Lemma bfs_closed fuel visited queue :
  (potential workflow visited queue < fuel)%nat ->
  Forall isNodeId queue ->
  let t := bfs succs fuel visited queue in
  (forall q, q ∈ queue -> q ∈ visited \/ q ∈ t)
  /\ (forall z y, z ∈ t -> y ∈ succs z -> y ∈ visited \/ y ∈ t).
Proof.
  revert visited queue.
  induction fuel as [|fuel IH]; intros visited queue Hfuel Hnodes; [lia |].
  destruct queue as [|x queue']; simpl.
  { split; [by intros ? ?%elem_of_nil | by intros ? ? ?%elem_of_nil]. }
  apply Forall_cons in Hnodes as [Hx Hnodes].
  destruct (decide (x ∈ visited)) as [Hv | Hv].
  - destruct (IH visited queue') as [H1 H2]; [| done |].
    { unfold potential in *. simpl in *. lia. }
    split; [| done].
    intros q [-> | Hq]%elem_of_cons; [by left | by apply H1].
  - destruct (findNode_is_Some workflow x Hx) as [node Hf].
    destruct (IH ({[x]} ∪ visited)
                (queue' ++ filter (fun y => y ∉ {[x]} ∪ visited) (succs x))%list)
      as [H1 H2].
    { pose proof (potential_visit workflow None x node visited queue' Hf Hv)
        as Hp. unfold enqueue in Hp. unfold nodeOrderSuccessors. lia. }
    { by apply enqueue_are_nodes. }
    split.
    + intros q [-> | Hq]%elem_of_cons; [right; set_solver |].
      destruct (H1 q) as [Hq' | Hq']; [set_solver | |right; set_solver].
      apply elem_of_union in Hq' as [->%elem_of_singleton | Hq'];
        [right; set_solver | by left].
    + intros z y [-> | Hz]%elem_of_cons Hy.
      * destruct (decide (y ∈ {[x]} ∪ visited)) as [Hy' | Hy'].
        { apply elem_of_union in Hy' as [->%elem_of_singleton | Hy'];
            [right; set_solver | by left]. }
        destruct (H1 y) as [Hq' | Hq']; [| done | right; set_solver].
        apply elem_of_app. right. by apply list_elem_of_filter.
      * destruct (H2 z y Hz Hy) as [Hq' | Hq']; [| right; set_solver].
        apply elem_of_union in Hq' as [->%elem_of_singleton | Hq'];
          [right; set_solver | by left].
Qed.

(** The reference traversal from the starter visits each reachable node
    once and no other. *)
Lemma bfsOrder_reachable :
  (exists n, n ∈ nodes workflow /\ n_id n = starterId workflow) ->
  NoDup (bfsOrder nodeOrderSuccessors workflow)
  /\ (forall x, x ∈ bfsOrder nodeOrderSuccessors workflow
                <-> reachable workflow (starterId workflow) x).
Proof.
  intros Hstarter. unfold bfsOrder. split; [apply bfs_NoDup |].
  intros x. split.
  - intros Hx. apply bfs_sound in Hx as (q & Hq & Hr).
    by apply list_elem_of_singleton in Hq as ->.
  - destruct (bfs_closed (loopFuel workflow) ∅ [starterId workflow])
      as [H1 H2].
    { apply loopFuel_initial. }
    { by apply Forall_singleton. }
    revert x. apply (rtc_ind_r (fun x =>
      x ∈ bfs succs (loopFuel workflow) ∅ [starterId workflow])
      (starterId workflow)).
    + destruct (H1 (starterId workflow)); set_solver.
    + intros y z _ Hstep Hy.
      apply nodeOrderSuccessors_step in Hstep.
      destruct (H2 y z Hy Hstep); set_solver.
Qed.

End Bfs.

(** Every node of the workflow has a registered block whose runs resolve,
    and the host does not call [stop()] meanwhile. *)
Definition all_blocks_resolve (getBlockConfig : string -> option Block)
    (workflow : Workflow) : Prop :=
  forall n, n ∈ nodes workflow ->
    exists run,
      getBlockConfig (n_type n) = Some run
      /\ forall context,
           hostStopped (run context) = false
           /\ exists v, settled (run context) = inl v.

Section Traversal.

Variable getBlockConfig : string -> option Block.
Variable onLog : ExecutionLog -> CallbackResult.
Variable onNodeUpdate : string -> NodeExecution -> CallbackResult.
Variable workflow : Workflow.
Variable env : gmap string string.
Variable aliasMap : AliasMap.

Local Abbreviation LOOP fuel :=
  (loop getBlockConfig onLog onNodeUpdate fuel workflow env aliasMap None).
Local Abbreviation EXEC node :=
  (executeNode getBlockConfig onLog onNodeUpdate workflow node env aliasMap
     None).
Local Abbreviation succs := (nodeOrderSuccessors workflow).
Local Abbreviation isNodeId :=
  (fun x => exists n, n ∈ nodes workflow /\ n_id n = x).

(** In full-workflow mode the nodes started by the loop are, in order, an
    initial part of the reference traversal from the same visited set and
    queue - however blocks and subscribers behave. *)
Lemma loop_prefix fuel visited queue st :
  Forall isNodeId queue ->
  exists t,
    started (LOOP fuel visited queue st).2 = (started st ++ t)%list
    /\ t `prefix_of` bfs succs fuel visited queue.
Proof.
  revert visited queue st.
  induction fuel as [|fuel IH]; intros visited queue st Hnodes.
  { exists []. destruct queue; simpl; by rewrite app_nil_r. }
  destruct queue as [|x queue'].
  { exists []. simpl. by rewrite app_nil_r. }
  apply Forall_cons in Hnodes as [Hx Hnodes].
  rewrite loop_unfold. unfold bind at 1, get at 1.
  destruct (aborted st).
  { exists []. simpl. split; [by rewrite app_nil_r | apply prefix_nil]. }
  simpl bfs. case_bool_decide as Hv.
  { rewrite decide_True by done. by apply IH. }
  rewrite decide_False by done.
  destruct (findNode_is_Some workflow x Hx) as [node Hf]. rewrite Hf.
  pose proof (executeNode_effect getBlockConfig onLog onNodeUpdate workflow
                node env aliasMap None st) as [Hfuel Heff].
  apply findNode_Some in Hf as [_ Hid].
  unfold bind, try_catch.
  destruct (EXEC node st) as [[[]|e|] s1] eqn:Hexec; [| | done];
    cbn [fst snd] in Heff; destruct Heff.
  - destruct (IH ({[x]} ∪ visited)
                (enqueue workflow None ({[x]} ∪ visited) queue' x) s1)
      as (t & Ht & Hpre).
    { by apply enqueue_are_nodes. }
    exists (x :: t). rewrite Ht, nx_started0, Hid, <- app_assoc.
    split; [done |]. by apply prefix_cons.
  - destruct (loopCatch_run onLog node e s1)
      as (e' & s2 & -> & _ & _ & _ & Hs2 & _).
    exists [x]. cbn [snd]. rewrite Hs2, nx_started0, Hid.
    split; [done |]. apply prefix_cons, prefix_nil.
Qed.

(** A loop that returns without having been cancelled has run the whole
    reference traversal - however blocks and subscribers behave. *)
Lemma loop_success_complete fuel visited queue st st' :
  Forall isNodeId queue ->
  LOOP fuel visited queue st = (Ok tt, st') ->
  status (execution st') <> Cancelled ->
  started st' = (started st ++ bfs succs fuel visited queue)%list.
Proof.
  revert visited queue st.
  induction fuel as [|fuel IH]; intros visited queue st Hnodes Hloop Hstatus.
  { destruct queue; [| discriminate]. injection Hloop as <-.
    simpl. by rewrite app_nil_r. }
  destruct queue as [|x queue'].
  { injection Hloop as <-. simpl. by rewrite app_nil_r. }
  apply Forall_cons in Hnodes as [Hx Hnodes].
  rewrite loop_unfold in Hloop. unfold bind at 1, get at 1 in Hloop.
  destruct (aborted st).
  { injection Hloop as <-. by destruct Hstatus. }
  simpl bfs. case_bool_decide as Hv.
  { rewrite decide_True by done. by apply IH. }
  rewrite decide_False by done.
  destruct (findNode_is_Some workflow x Hx) as [node Hf]. rewrite Hf in Hloop.
  pose proof (executeNode_effect getBlockConfig onLog onNodeUpdate workflow
                node env aliasMap None st) as [_ Heff].
  apply findNode_Some in Hf as [_ Hid].
  unfold bind, try_catch in Hloop.
  destruct (EXEC node st) as [[[]|e|] s1] eqn:Hexec; [| | done];
    cbn [fst snd] in Heff; destruct Heff.
  - rewrite (IH _ _ s1 (enqueue_are_nodes workflow _ _ _ Hnodes) Hloop Hstatus).
    by rewrite nx_started0, Hid, <- app_assoc.
  - destruct (loopCatch_run onLog node e s1) as (e' & s2 & Hc & _).
    rewrite Hc in Hloop. discriminate.
Qed.

Hypothesis onLog_returns : only_returns onLog.
Hypothesis onNodeUpdate_returns : forall id, only_returns (onNodeUpdate id).
Hypothesis blocks_resolve : all_blocks_resolve getBlockConfig workflow.

(** When nothing fails and nobody calls [stop()], the loop runs the whole
    reference traversal. *)
Lemma loop_complete fuel visited queue st :
  (potential workflow visited queue < fuel)%nat ->
  Forall isNodeId queue ->
  aborted st = false ->
  exists st',
    LOOP fuel visited queue st = (Ok tt, st')
    /\ started st' = (started st ++ bfs succs fuel visited queue)%list
    /\ status (execution st') = status (execution st)
    /\ aborted st' = false.
Proof.
  revert visited queue st.
  induction fuel as [|fuel IH]; intros visited queue st Hfuel Hnodes Ha;
    [lia |].
  destruct queue as [|x queue'].
  { exists st. simpl. by rewrite app_nil_r. }
  apply Forall_cons in Hnodes as [Hx Hnodes].
  rewrite loop_unfold. unfold bind at 1, get at 1. rewrite Ha.
  simpl bfs. case_bool_decide as Hv.
  { rewrite decide_True by done. apply IH; [| done | done].
    unfold potential in *. simpl in *. lia. }
  rewrite decide_False by done.
  destruct (findNode_is_Some workflow x Hx) as [node Hf]. rewrite Hf.
  pose proof (potential_visit workflow None x node visited queue' Hf Hv) as Hp.
  pose proof (executeNode_effect getBlockConfig onLog onNodeUpdate workflow
                node env aliasMap None st) as [_ Heff].
  apply findNode_Some in Hf as [Hin Hid].
  destruct (blocks_resolve node Hin) as (run & Hblock & Hrun).
  pose proof (executeNode_quiet_effect getBlockConfig onLog onNodeUpdate
                onLog_returns onNodeUpdate_returns workflow node env aliasMap
                None run st Hblock) as [_ Hok].
  cbn zeta in Hok.
  destruct (Hok (proj1 (Hrun _)) (proj2 (Hrun _))) as [Hr Ha1].
  destruct (EXEC node st) as [r s1] eqn:Hexec. cbn [fst snd] in *. subst r.
  destruct Heff.
  erewrite bind_run_Ok by (by apply try_catch_run_Ok).
  destruct (IH ({[x]} ∪ visited)
              (enqueue workflow None ({[x]} ∪ visited) queue' x) s1)
    as (st' & -> & Hs & Hst & Ha').
  { lia. }
  { by apply enqueue_are_nodes. }
  { congruence. }
  exists st'. split; [done |].
  rewrite Hs, nx_started0, Hid, <- app_assoc.
  split; [done |]. split; [congruence | done].
Qed.

End Traversal.

(** The epilogue of [executeWorkflow] starts no node. *)
Lemma conclude_started onLog (p : Res unit * EngineState) :
  started (conclude onLog p).2 = started p.2.
Proof.
  destruct p as [[[]|e|] st]; cbn [snd].
  - unfold conclude. cbn [snd].
    unfold bind at 1, try_catch, bind at 1, afterLoop, bind at 1, get at 1.
    case_bool_decide; [done |].
    unfold bind at 1, setStatus, modify.
    match goal with |- context [log onLog ?a ?b ?c ?s] =>
      pose proof (keeps_log onLog a b c s) as [_ []];
      destruct (log onLog a b c s) as [[[]|e|] s'] end; simpl in *.
    + done.
    + pose proof (workflowCatch_run onLog e s') as Hc. cbn zeta in Hc.
      destruct Hc as (_ & _ & _ & _ & Hs & _).
      destruct (workflowCatch onLog e s') as [[[]|e'|] s'']; simpl in *;
        congruence.
    + done.
  - rewrite conclude_Throw.
    pose proof (workflowCatch_run onLog e st) as Hc. cbn zeta in Hc.
    destruct Hc as (_ & _ & _ & _ & Hs & _).
    by destruct (workflowCatch onLog e st) as [[[]|e'|] s''].
  - reflexivity.
Qed.

(** A run ends with status [success] only after a loop that returned
    without having been cancelled. *)
Lemma conclude_Success onLog (p : Res unit * EngineState) :
  p.1 <> OutOfFuel ->
  status (execution (conclude onLog p).2) = Success ->
  exists st, p = (Ok tt, st) /\ status (execution st) <> Cancelled.
Proof.
  destruct p as [[[]|e|] st]; cbn [fst]; intros Hfuel Hsuccess; [| | done].
  - exists st. split; [done |]. intros Hc.
    rewrite (conclude_Cancelled onLog st Hc) in Hsuccess.
    cbn [snd] in Hsuccess. congruence.
  - rewrite conclude_Throw in Hsuccess.
    pose proof (workflowCatch_run onLog e st) as Hc. cbn zeta in Hc.
    destruct Hc as (_ & Hfailed & _).
    destruct (workflowCatch onLog e st) as [[[]|e'|] s'']; cbn [snd] in *;
      congruence.
Qed.

(** C6, as the code has it.  In full-workflow mode, for a workflow that
    passes validation (its starter is one of its nodes; the edges may form
    cycles), the nodes executed are, in order, an initial part of the
    breadth-first traversal from the starter in which the successors of a
    node are enqueued in the order of the workflow's node list: so no node
    is executed twice and none that is not reachable from the starter.
    Whenever the run ends with status [success], it has executed exactly
    the reachable nodes, in that breadth-first order; and it does end with
    status [success] when the subscribers only return (they neither throw
    nor call [stop()]) and every node of the workflow has a registered
    block whose runs resolve without [stop()] being called meanwhile. *)
Theorem full_run_is_breadth_first
    (getBlockConfig : string -> option Block)
    (onLog : ExecutionLog -> CallbackResult)
    (onNodeUpdate : string -> NodeExecution -> CallbackResult)
    (workflow : Workflow) (env : gmap string string) (options : Options) :
  singleNodeIdOf options = None ->
  validateWorkflow workflow = None ->
  let r := executeWorkflow getBlockConfig onLog onNodeUpdate workflow env
             options in
  started r.2 `prefix_of` bfsOrder nodeOrderSuccessors workflow
  /\ (forall x, nodeOrderSuccessors workflow x
                `sublist_of` map n_id (nodes workflow))
  /\ NoDup (started r.2)
  /\ (forall x, x ∈ started r.2 -> reachable workflow (starterId workflow) x)
  /\ (status (execution r.2) = Success ->
      started r.2 = bfsOrder nodeOrderSuccessors workflow
      /\ (forall x, x ∈ started r.2
                    <-> reachable workflow (starterId workflow) x))
  /\ (only_returns onLog ->
      (forall id, only_returns (onNodeUpdate id)) ->
      all_blocks_resolve getBlockConfig workflow ->
      (exists ex, r.1 = Ok ex /\ status ex = Success)
      /\ started r.2 = bfsOrder nodeOrderSuccessors workflow
      /\ (forall x, x ∈ started r.2
                    <-> reachable workflow (starterId workflow) x)).
Proof.
  intros Hfull Hvalid r.
  assert (Hstarter : exists node,
            findNode workflow (starterId workflow) = Some node).
  { unfold validateWorkflow in Hvalid.
    destruct (nodes workflow); [discriminate |].
    destruct (findNode workflow (starterId workflow)); [by eexists | done]. }
  destruct Hstarter as [node Hfind].
  pose proof (findNode_Some _ _ _ Hfind) as [Hin Hid].
  assert (Hisnode : exists n, n ∈ nodes workflow /\ n_id n = starterId workflow)
    by eauto.
  destruct (bfsOrder_reachable workflow Hisnode) as [Hnodup Hreach].
  assert (Hprefix : started r.2 `prefix_of` bfsOrder nodeOrderSuccessors workflow).
  { subst r.
    pose proof (keeps_log onLog Info
                  ("🚀 Starting workflow: " +:+ wf_name workflow) None
                  (initialState workflow options)) as [Hne Hlf].
    destruct (log onLog Info ("🚀 Starting workflow: " +:+ wf_name workflow)
                None (initialState workflow options))
      as [[[]|e|] st1] eqn:Hlog; cbn [fst snd] in Hlf, Hne; destruct Hlf;
      [| | done].
    - assert (Hpro : prologue onLog workflow options
                       (initialState workflow options) = (Ok tt, st1)).
      { unfold prologue. rewrite (bind_run_Ok _ _ _ _ _ Hlog), Hfull. done. }
      assert (Hstart : startNodeOf workflow options = Some node).
      { unfold startNodeOf. by rewrite Hfull. }
      rewrite (executeWorkflow_run getBlockConfig onLog onNodeUpdate
                 workflow env options st1 node Hvalid Hpro Hstart).
      rewrite conclude_started, Hfull, Hid.
      destruct (loop_prefix getBlockConfig onLog onNodeUpdate workflow env
                  (buildAliasMap (nodes workflow)) (loopFuel workflow) ∅
                  [starterId workflow] st1) as (t & -> & Ht).
      { by apply Forall_singleton. }
      by rewrite lf_started0.
    - unfold executeWorkflow, executeWorkflowM.
      rewrite (bind_run_Throw _ _ _ _ _ Hlog). cbn [snd].
      rewrite lf_started0. apply prefix_nil. }
  split; [exact Hprefix |].
  split; [apply nodeOrderSuccessors_declaration_order |].
  split; [| split; [| split]].
  - destruct Hprefix as [k Hk]. rewrite Hk in Hnodup.
    by apply NoDup_app in Hnodup as [? _].
  - intros x Hx. apply Hreach. destruct Hprefix as [k ->]. set_solver.
  - intros Hsuccess.
    assert (Hstarted : started r.2 = bfsOrder nodeOrderSuccessors workflow).
    { subst r.
      pose proof (keeps_log onLog Info
                    ("🚀 Starting workflow: " +:+ wf_name workflow) None
                    (initialState workflow options)) as [Hne Hlf].
      destruct (log onLog Info ("🚀 Starting workflow: " +:+ wf_name workflow)
                  None (initialState workflow options))
        as [[[]|e|] st1] eqn:Hlog; cbn [fst snd] in Hlf, Hne; destruct Hlf;
        [| | done].
      - assert (Hpro : prologue onLog workflow options
                         (initialState workflow options) = (Ok tt, st1)).
        { unfold prologue. rewrite (bind_run_Ok _ _ _ _ _ Hlog), Hfull. done. }
        assert (Hstart : startNodeOf workflow options = Some node).
        { unfold startNodeOf. by rewrite Hfull. }
        rewrite (executeWorkflow_run getBlockConfig onLog onNodeUpdate
                   workflow env options st1 node Hvalid Hpro Hstart)
          in Hsuccess |- *.
        rewrite Hfull, Hid in Hsuccess |- *.
        apply conclude_Success in Hsuccess as (st2 & Hloop & Hstatus).
        2:{ apply loop_fuel_enough, loopFuel_initial. }
        rewrite conclude_started, Hloop. cbn [snd].
        rewrite (loop_success_complete getBlockConfig onLog onNodeUpdate
                   workflow env (buildAliasMap (nodes workflow))
                   (loopFuel workflow) ∅ [starterId workflow] st1 st2
                   ltac:(by apply Forall_singleton) Hloop Hstatus).
        by rewrite lf_started0.
      - exfalso. revert Hsuccess. unfold executeWorkflow, executeWorkflowM.
        rewrite (bind_run_Throw _ _ _ _ _ Hlog). cbn [snd].
        rewrite lf_status0. unfold initialState, initialExecution. simpl.
        by destruct (existingExecution options). }
    split; [exact Hstarted |].
    intros x. rewrite Hstarted. apply Hreach.
  - intros HL HU Hblocks.
    destruct (log_returns onLog (only_returns_never_throws _ HL) Info
                ("🚀 Starting workflow: " +:+ wf_name workflow) None
                (initialState workflow options)) as (st1 & Hlog & [] & _).
    assert (Hpro : prologue onLog workflow options
                     (initialState workflow options) = (Ok tt, st1)).
    { unfold prologue. rewrite (bind_run_Ok _ _ _ _ _ Hlog), Hfull. done. }
    assert (Hstart : startNodeOf workflow options = Some node).
    { unfold startNodeOf. by rewrite Hfull. }
    assert (Ha1 : aborted st1 = false).
    { revert Hlog. rewrite (log_quiet onLog HL). by intros [= <-]. }
    destruct (loop_complete getBlockConfig onLog onNodeUpdate workflow env
                (buildAliasMap (nodes workflow)) HL HU Hblocks
                (loopFuel workflow) ∅ [starterId workflow] st1)
      as (st2 & Hloop & Hs2 & Hstat2 & _).
    { apply loopFuel_initial. }
    { by apply Forall_singleton. }
    { done. }
    assert (Hstarted : started r.2 = bfsOrder nodeOrderSuccessors workflow).
    { subst r.
      rewrite (executeWorkflow_run _ _ _ _ _ _ st1 node Hvalid Hpro Hstart).
      rewrite conclude_started, Hfull, Hid, Hloop. cbn [snd].
      by rewrite Hs2, lf_started0. }
    split; [| split; [exact Hstarted |]].
    + subst r.
      rewrite (executeWorkflow_run _ _ _ _ _ _ st1 node Hvalid Hpro Hstart).
      rewrite Hfull, Hid, Hloop.
      destruct (conclude_Ok_returns onLog (only_returns_never_throws _ HL) st2)
        as (st' & -> & Hsucc & _).
      { rewrite Hstat2, lf_status0. unfold initialState, initialExecution.
        simpl. by destruct (existingExecution options). }
      by eexists.
    + intros x. rewrite Hstarted. apply Hreach.
Qed.

Module SampleOrder.
Import Sample.

(** The edges out of the starter are declared in the order [b], [a]; the
    nodes in the order [a], [b]. *)
Definition crossed : Workflow :=
  {| wf_id := "wf"; wf_name := "crossed"; starterId := "starter";
     nodes := [node "starter" "starter" []; node "a" "task" [];
               node "b" "task" []];
     edges := [edge "starter" "b"; edge "starter" "a"] |}.

Definition blocks : string -> option Block :=
  registry (resolving JUndefined) (resolving JUndefined).

Lemma blocks_resolve : all_blocks_resolve blocks crossed.
Proof.
  intros n Hn. exists (resolving JUndefined).
  split; [| intros c; split; [reflexivity | by eexists]].
  repeat (apply elem_of_cons in Hn as [-> | Hn]; [reflexivity |]).
  by apply elem_of_nil in Hn.
Defined.

End SampleOrder.

(** C6, as stated, fails on the tie-break: with the edges out of the
    starter declared in the order [b], [a] and the nodes in the order [a],
    [b], the engine executes [a] before [b]. *)
Lemma edge_order_not_followed :
  let r := executeWorkflow SampleOrder.blocks Sample.quietLog
             Sample.quietUpdate SampleOrder.crossed ∅ no_options in
  started r.2 = ["starter"; "a"; "b"]
  /\ bfsOrder edgeOrderSuccessors SampleOrder.crossed = ["starter"; "b"; "a"]
  /\ started r.2 <> bfsOrder edgeOrderSuccessors SampleOrder.crossed.
Proof.
  vm_compute. split; [reflexivity |]. split; [reflexivity | discriminate].
Qed.

Lemma full_run_is_breadth_first_witness :
  let r := executeWorkflow SampleOrder.blocks Sample.quietLog
             Sample.quietUpdate SampleOrder.crossed ∅ no_options in
  started r.2 = bfsOrder nodeOrderSuccessors SampleOrder.crossed
  /\ bfsOrder nodeOrderSuccessors SampleOrder.crossed = ["starter"; "a"; "b"]
  /\ exists ex, r.1 = Ok ex /\ status ex = Success.
Proof.
  destruct (full_run_is_breadth_first SampleOrder.blocks Sample.quietLog
              Sample.quietUpdate SampleOrder.crossed ∅ no_options
              eq_refl eq_refl) as (_ & _ & _ & _ & Hsuccess & H).
  destruct (Hsuccess ltac:(vm_compute; reflexivity)) as [H2 _].
  destruct (H ltac:(intros l; reflexivity) ltac:(intros i ne; reflexivity)
              SampleOrder.blocks_resolve) as (H1 & _ & _).
  split; [exact H2 |]. split; [vm_compute; reflexivity | exact H1].
Defined.

(* ===================================================================== *)
(** * Further properties of the engine *)
(* ===================================================================== *)

(** ** Templates without markers *)

(** [s] contains two consecutive opening braces. *)
Fixpoint containsOpen (s : string) : bool :=
  match s with
  | String c s' =>
      match s' with
      | String d _ => (Ascii.eqb c "{" && Ascii.eqb d "{") || containsOpen s'
      | EmptyString => false
      end
  | EmptyString => false
  end.

(** [s] contains two consecutive closing braces. *)
Fixpoint containsClose (s : string) : bool :=
  match s with
  | String c s' =>
      match s' with
      | String d _ => (Ascii.eqb c "}" && Ascii.eqb d "}") || containsClose s'
      | EmptyString => false
      end
  | EmptyString => false
  end.

Lemma containsOpen_tail c s :
  containsOpen (String c s) = false -> containsOpen s = false.
Proof.
  simpl. destruct s as [|d s]; [done |].
  intros H. by apply orb_false_iff in H as [_ H].
Qed.

Lemma containsClose_tail c s :
  containsClose s = true -> containsClose (String c s) = true.
Proof.
  intros H. cbn [containsClose]. destruct s as [|d s]; [done |].
  rewrite H. apply orb_true_r.
Qed.

Lemma matchAt_open s r :
  matchAt s = Some r -> containsOpen s = true.
Proof.
  unfold matchAt.
  destruct s as [|c s]; [discriminate |].
  destruct s as [|d s].
  { destruct c as [[] [] [] [] [] [] [] []]; discriminate. }
  destruct c as [[] [] [] [] [] [] [] []]; try discriminate;
    destruct d as [[] [] [] [] [] [] [] []]; try discriminate.
  done.
Qed.

Lemma spanNoBrace_close s run rest :
  spanNoBrace s = (run, rest) ->
  (exists t, rest = String "}" (String "}" t)) ->
  containsClose s = true.
Proof.
  revert run rest. induction s as [|c s IH]; intros run rest Hspan Hrest.
  { simpl in Hspan. injection Hspan as <- <-. by destruct Hrest. }
  cbn [spanNoBrace] in Hspan.
  destruct (Ascii.eqb_spec c "}") as [-> | Hc].
  - injection Hspan as <- <-. destruct Hrest as [t [= -> ]]. done.
  - destruct (spanNoBrace s) as [run' rest'] eqn:Hs.
    injection Hspan as <- <-.
    apply containsClose_tail. by eapply IH.
Qed.

Lemma matchAt_close s r :
  matchAt s = Some r -> containsClose s = true.
Proof.
  unfold matchAt.
  destruct s as [|c s]; [discriminate |].
  destruct s as [|d s].
  { destruct c as [[] [] [] [] [] [] [] []]; discriminate. }
  intros H.
  assert (Hs : exists run rest,
            spanNoBrace s = (run, rest)
            /\ exists t, rest = String "}" (String "}" t)).
  { destruct c as [[] [] [] [] [] [] [] []]; try discriminate;
      destruct d as [[] [] [] [] [] [] [] []]; try discriminate.
    destruct (spanNoBrace s) as [run rest].
    destruct run as [|r0 run]; [discriminate |].
    destruct rest as [|c1 [|c2 rest]]; try discriminate.
    { destruct c1 as [[] [] [] [] [] [] [] []]; discriminate. }
    destruct c1 as [[] [] [] [] [] [] [] []]; try discriminate;
      destruct c2 as [[] [] [] [] [] [] [] []]; try discriminate.
    eauto. }
  destruct Hs as (run & rest & Hspan & Hrest).
  do 2 apply containsClose_tail. by eapply spanNoBrace_close.
Qed.

(** A string that has no [{{] in it, or no [}}], is left as it is. *)
Lemma resolveString_plain (env : gmap string string)
    (prevId : option string) (nodeOutputs : gmap string Obj)
    (aliasMap : AliasMap) (s : string) :
  containsOpen s = false \/ containsClose s = false ->
  resolveString env prevId nodeOutputs aliasMap s = s.
Proof.
  unfold resolveString. intros H.
  assert (Hnone : forall t, (containsOpen s = false -> containsOpen t = false)
                            /\ (containsClose s = false -> containsClose t = false)
                            -> matchAt t = None).
  { intros t [H1 H2]. destruct (matchAt t) as [r|] eqn:Hm; [| done].
    pose proof (matchAt_open _ _ Hm). pose proof (matchAt_close _ _ Hm).
    destruct H as [H | H]; [rewrite H1 in *; done | rewrite H2 in *; done]. }
  clear H. induction s as [|c s IH]; [done |].
  cbn [replaceFrom]. rewrite Hnone by done. f_equal. apply IH.
  intros t [H1 H2]. apply Hnone. split.
  - intros Hc. apply H1. by eapply containsOpen_tail.
  - intros Hc. apply H2. destruct (containsClose s) eqn:Hs; [| done].
    by rewrite (containsClose_tail c s Hs) in Hc.
Qed.

(** Values as JavaScript has them: the keys of an object are distinct. *)
Fixpoint wellFormed (v : JsValue) : bool :=
  match v with
  | JArr items => forallb wellFormed items
  | JObj props =>
      bool_decide (NoDup props.*1)
      && forallb (fun kv => wellFormed kv.2) props
  | _ => true
  end.

(** No string inside [v] has both a [{{] and a [}}]. *)
Fixpoint markerFree (v : JsValue) : bool :=
  match v with
  | JStr s => negb (containsOpen s && containsClose s)
  | JArr items => forallb markerFree items
  | JObj props => forallb (fun kv => markerFree kv.2) props
  | _ => true
  end.

Lemma JsValue_nested_ind (P : JsValue -> Prop) :
  P JUndefined -> P JNull -> (forall b, P (JBool b)) ->
  (forall n, P (JNum n)) -> (forall s, P (JStr s)) ->
  (forall items, Forall P items -> P (JArr items)) ->
  (forall props, Forall (fun kv => P kv.2) props -> P (JObj props)) ->
  forall v, P v.
Proof.
  intros HU HN HB HZ HS HA HO. fix IH 1.
  intros [ | | b | n | s | items | props];
    [exact HU | exact HN | apply HB | apply HZ | apply HS | | ].
  - apply HA. induction items as [|x items IHi]; constructor; [apply IH | done].
  - apply HO. induction props as [|[k x] props IHp]; constructor;
      [apply IH | done].
Qed.

Lemma obj_set_fresh k v (o : Obj) :
  k ∉ o.*1 -> Js.obj_set k v o = (o ++ [(k, v)])%list.
Proof.
  induction o as [|[k' v'] o IH]; intros Hk; [done |].
  cbn [Js.obj_set]. rewrite fmap_cons in Hk. cbn [fst] in Hk.
  apply not_elem_of_cons in Hk as [Hne Hk].
  destruct (String.eqb_spec k k') as [-> | _]; [done |].
  cbn [app]. by rewrite IH.
Qed.

Lemma fold_obj_set_fresh (f : JsValue -> JsValue) (props acc : Obj) :
  NoDup (acc.*1 ++ props.*1)%list ->
  fold_left (fun o kv => Js.obj_set kv.1 (f kv.2) o) props acc
  = (acc ++ map (fun kv => (kv.1, f kv.2)) props)%list.
Proof.
  revert acc. induction props as [|[k v] props IH]; intros acc Hnd.
  { by rewrite app_nil_r. }
  cbn [fold_left map fst snd].
  rewrite fmap_cons in Hnd. cbn [fst] in Hnd.
  assert (Hk : k ∉ acc.*1).
  { apply NoDup_app in Hnd as (_ & Hd & _). intros Hin.
    apply (Hd k Hin). left. }
  rewrite obj_set_fresh by done.
  rewrite IH.
  - by rewrite <- app_assoc.
  - rewrite fmap_app. cbn [fmap list_fmap fst]. rewrite <- app_assoc. done.
Qed.

(** X1.  Resolving templates in a value in which no string has both a
    [{{] and a [}}] gives the value back, at every depth of arrays and
    objects and whatever the environment, the predecessor, the recorded
    outputs and the aliases are. *)
Theorem resolveTemplatesDeep_without_markers (env : gmap string string)
    (prevId : option string) (nodeOutputs : gmap string Obj)
    (aliasMap : AliasMap) (v : JsValue) :
  wellFormed v = true ->
  markerFree v = true ->
  resolveTemplatesDeep env prevId nodeOutputs aliasMap v = v.
Proof.
  induction v as [ | | b | n | s | items IH | props IH ]
    using JsValue_nested_ind; intros Hwf Hmf; try done.
  - cbn [resolveTemplatesDeep]. f_equal.
    apply resolveString_plain. cbn [markerFree] in Hmf.
    apply negb_true_iff, andb_false_iff in Hmf. done.
  - cbn [resolveTemplatesDeep]. f_equal.
    cbn [wellFormed markerFree] in Hwf, Hmf.
    induction IH as [|x items Hx _ IHi]; [done |].
    cbn [forallb] in Hwf, Hmf.
    apply andb_true_iff in Hwf as [Hwx Hwf].
    apply andb_true_iff in Hmf as [Hmx Hmf].
    cbn [map]. rewrite Hx by done. f_equal. by apply IHi.
  - cbn [resolveTemplatesDeep]. f_equal.
    cbn [wellFormed markerFree] in Hwf, Hmf.
    apply andb_true_iff in Hwf as [Hnd Hwf].
    apply bool_decide_eq_true in Hnd.
    rewrite fold_obj_set_fresh by done.
    cbn [app]. clear Hnd.
    induction IH as [|[k x] props Hx _ IHp]; [done |].
    cbn [forallb snd] in Hwf, Hmf.
    apply andb_true_iff in Hwf as [Hwx Hwf].
    apply andb_true_iff in Hmf as [Hmx Hmf].
    cbn [map fst snd]. cbn [snd] in Hx. rewrite Hx by done.
    f_equal. by apply IHp.
Qed.

Lemma resolveTemplatesDeep_without_markers_witness :
  resolveTemplatesDeep ∅ (Some "a") {["a" := [("x", JNum 1)]]} ∅
    (JObj [("to", JStr "price {x} is {{prev.x");
           ("tags", JArr [JStr "a}}b"; JNum 2; JNull])])
  = JObj [("to", JStr "price {x} is {{prev.x");
          ("tags", JArr [JStr "a}}b"; JNum 2; JNull])].
Proof.
  apply resolveTemplatesDeep_without_markers; vm_compute; reflexivity.
Defined.

(* ===================================================================== *)
(** ** Which write a recorded output comes from *)
(* ===================================================================== *)

(** The value of the last [setNodeOutput(k, _)] among [cs], if any. *)
Fixpoint lastWrite (k : string) (cs : list BlockCall) : option JsValue :=
  match cs with
  | [] => None
  | c :: cs' =>
      match lastWrite k cs' with
      | Some v => Some v
      | None =>
          match c with
          | CallSetNodeOutput key value =>
              if String.eqb k key then Some value else None
          | CallLog _ => None
          end
      end
  end.

Lemma obj_get_set k k' v (o : Obj) :
  Js.obj_get k (Js.obj_set k' v o)
  = if String.eqb k k' then v else Js.obj_get k o.
Proof.
  induction o as [|[k1 v1] o IH]; cbn [Js.obj_set Js.obj_get].
  { by destruct (String.eqb k k'). }
  destruct (String.eqb_spec k' k1) as [-> | Hne]; cbn [Js.obj_get].
  - by destruct (String.eqb k k1).
  - rewrite IH. destruct (String.eqb_spec k k1) as [-> | _]; [| done].
    destruct (String.eqb_spec k1 k') as [-> | _]; done.
Qed.

Lemma obj_get_absent k (o : Obj) : k ∉ o.*1 -> Js.obj_get k o = JUndefined.
Proof.
  induction o as [|[k1 v1] o IH]; [done |].
  rewrite fmap_cons. cbn [fst Js.obj_get].
  intros [Hne Hk]%not_elem_of_cons.
  destruct (String.eqb_spec k k1); [done | by apply IH].
Qed.

Lemma obj_set_keys k v (o : Obj) :
  (Js.obj_set k v o).*1
  = if bool_decide (k ∈ o.*1) then o.*1 else (o.*1 ++ [k])%list.
Proof.
  induction o as [|[k1 v1] o IH]; [done |].
  cbn [Js.obj_set]. rewrite fmap_cons. cbn [fst].
  destruct (String.eqb_spec k k1) as [-> | Hne].
  - rewrite bool_decide_eq_true_2 by left. done.
  - rewrite fmap_cons, IH. cbn [fst].
    case_bool_decide as H1; case_bool_decide as H2; try done.
    + exfalso. apply H2. by right.
    + exfalso. apply elem_of_cons in H2 as [? | ?]; done.
Qed.

Lemma obj_set_NoDup k v (o : Obj) : NoDup o.*1 -> NoDup (Js.obj_set k v o).*1.
Proof.
  intros H. rewrite obj_set_keys. case_bool_decide as Hk; [done |].
  apply NoDup_app. split; [done |]. split; [| apply NoDup_singleton].
  intros x Hx ->%list_elem_of_singleton. done.
Qed.

Lemma slotAfter_cons slot c cs :
  slotAfter slot (c :: cs)
  = slotAfter
      match c with
      | CallSetNodeOutput key value =>
          Some (Js.obj_set key value (default [] slot))
      | CallLog _ => slot
      end cs.
Proof. done. Qed.

Lemma slotAfter_NoDup slot cs :
  NoDup (default [] slot).*1 -> NoDup (default [] (slotAfter slot cs)).*1.
Proof.
  revert slot. induction cs as [|c cs IH]; intros slot H; [done |].
  rewrite slotAfter_cons. apply IH.
  destruct c as [key value | m]; [| done]. by apply obj_set_NoDup.
Qed.

Lemma slotAfter_get k slot cs :
  Js.obj_get k (default [] (slotAfter slot cs))
  = default (Js.obj_get k (default [] slot)) (lastWrite k cs).
Proof.
  revert slot. induction cs as [|c cs IH]; intros slot; [done |].
  rewrite slotAfter_cons, IH. cbn [lastWrite].
  destruct (lastWrite k cs) as [v|]; [done |].
  destruct c as [key value | m]; [| done].
  change (default [] (Some ?o)) with o.
  rewrite obj_get_set. by destruct (String.eqb k key).
Qed.

Lemma obj_assign_NoDup (target src : Obj) :
  NoDup target.*1 -> NoDup (Js.obj_assign target src).*1.
Proof.
  unfold Js.obj_assign. revert target.
  induction src as [|[k v] src IH]; intros target H; [done |].
  cbn [fold_left]. apply IH. by apply obj_set_NoDup.
Qed.

Lemma obj_get_assign k (target src : Obj) :
  NoDup src.*1 ->
  Js.obj_get k (Js.obj_assign target src)
  = if bool_decide (k ∈ src.*1) then Js.obj_get k src
    else Js.obj_get k target.
Proof.
  unfold Js.obj_assign. revert target.
  induction src as [|[k1 v1] src IH]; intros target Hnd; [done |].
  rewrite fmap_cons in Hnd. cbn [fst] in Hnd.
  apply NoDup_cons in Hnd as [Hk1 Hnd].
  cbn [fold_left fst snd]. rewrite IH by done.
  rewrite fmap_cons. cbn [fst Js.obj_get]. rewrite obj_get_set.
  destruct (String.eqb_spec k k1) as [-> | Hne].
  - rewrite (bool_decide_eq_false_2 _ Hk1).
    rewrite bool_decide_eq_true_2 by left. done.
  - case_bool_decide as H1; case_bool_decide as H2; try done.
    + exfalso. apply H2. by right.
    + exfalso. apply elem_of_cons in H2 as [? | ?]; done.
Qed.

Lemma obj_get_spread2 k (a b : Obj) :
  NoDup a.*1 -> NoDup b.*1 ->
  Js.obj_get k (Js.spread2 a b)
  = if bool_decide (k ∈ b.*1) then Js.obj_get k b else Js.obj_get k a.
Proof.
  intros Ha Hb. unfold Js.spread2. rewrite obj_get_assign by done.
  case_bool_decide; [done |]. rewrite obj_get_assign by done.
  case_bool_decide as Hk; [done |]. cbn [Js.obj_get].
  by rewrite obj_get_absent.
Qed.

(** What a normal return of [executeNode] leaves in the node's record and
    in its slot of the Output Store. *)
Lemma executeNode_Ok_record getBlockConfig onLog onNodeUpdate workflow node
    env aliasMap singleNodeId run st st' :
  executeNode getBlockConfig onLog onNodeUpdate workflow node env aliasMap
    singleNodeId st = (Ok tt, st') ->
  getBlockConfig (n_type node) = Some run ->
  exists context result ne,
    contexts st' = (contexts st ++ [context])%list
    /\ ctx_nodeId context = n_id node
    /\ ctx_nodeOutputs context = nodeOutputs st
    /\ settled (run context) = inl result
    /\ nodeExecutions (execution st') !! n_id node = Some ne
    /\ ne_status ne = NodeSuccess
    /\ ne_outputs ne
       = Some (Js.spread2
                 (default [] (slotAfter (nodeOutputs st !! n_id node)
                                (calls (run context))))
                 (returnOutputsOf result))
    /\ nodeOutputs st' !! n_id node =
       match objectLike result with
       | Some o =>
           Some (Js.spread2
                   (default [] (slotAfter (nodeOutputs st !! n_id node)
                                  (calls (run context)))) o)
       | None => slotAfter (nodeOutputs st !! n_id node) (calls (run context))
       end.
Proof.
  intros Hx Hblock.
  apply executeNode_Ok_inv in Hx as (s1 & s2 & F1 & Htry & F2).
  unfold nodeTry in Htry.
  apply bind_Ok_inv in Htry as ([] & s1a & Hlog & Htry).
  assert (F1a : log_frame s1 s1a).
  { destruct (negb _); simpl in Hlog; [| by injection Hlog as <-].
    match type of Hlog with log onLog ?a ?b ?c ?s = _ =>
      pose proof (keeps_log onLog a b c s) as [_ Hf] end.
    by rewrite Hlog in Hf. }
  rewrite Hblock in Htry.
  apply bind_Ok_inv in Htry as (s1b & ? & [= <- <-] & Htry).
  apply bind_Ok_inv in Htry as (result & s3 & Hawait & Hrecord).
  unfold awaitRun in Hawait.
  apply bind_Ok_inv in Hawait as ([] & s1c & [= <-] & Hsettle).
  match type of Hsettle with settleRun _ _ ?r ?s = _ =>
    pose proof (keeps_settleRun onLog (n_id node) r s) as [_ Fs] end.
  rewrite Hsettle in Fs. cbn [snd] in Fs.
  apply settleRun_Ok in Hsettle as (Hres & Hslot & Hctx).
  destruct F1, F1a, F2, Fs. simpl in *.
  apply recordResult_Ok in Hrecord as ((ne & Hne & Hst & Hout) & Hstore & Hctx').
  2:{ apply nf_present0. rewrite lf_nodeExecutions1, lf_nodeExecutions0.
      rewrite lookup_insert_eq. by eexists. }
  rewrite Hslot, lf_nodeOutputs1, lf_nodeOutputs0 in Hout, Hstore.
  exists (buildContext workflow node env aliasMap singleNodeId s1a), result, ne.
  split; [by rewrite lf_contexts2, Hctx', Hctx, lf_contexts1, lf_contexts0 |].
  split; [done |].
  split; [simpl; by rewrite lf_nodeOutputs1, lf_nodeOutputs0 |].
  split; [done |].
  split; [by rewrite lf_nodeExecutions2 |].
  split; [done |].
  split; [done |].
  rewrite lf_nodeOutputs2, Hstore; by destruct (objectLike result).
Qed.

(** X2.  Which value a key of a successfully run node's recorded outputs
    has: the returned object's, when the block returned a plain object
    that has the key (a result that is not a plain object counts as
    [{value: result}]); otherwise the value of the last
    [setNodeOutput] call the run made for that key; otherwise what the
    node's slot of the Output Store held for it when the run began. *)
Theorem recorded_output_precedence
    (getBlockConfig : string -> option Block)
    (onLog : ExecutionLog -> CallbackResult)
    (onNodeUpdate : string -> NodeExecution -> CallbackResult)
    (workflow : Workflow) (node : WorkflowNode) (env : gmap string string)
    (aliasMap : AliasMap) (singleNodeId : option string)
    (run : Block) (st st' : EngineState) :
  executeNode getBlockConfig onLog onNodeUpdate workflow node env aliasMap
    singleNodeId st = (Ok tt, st') ->
  getBlockConfig (n_type node) = Some run ->
  NoDup (default [] (nodeOutputs st !! n_id node)).*1 ->
  (forall ctx o, settled (run ctx) = inl (JObj o) -> NoDup o.*1) ->
  exists context result ne outs,
    last (contexts st') = Some context
    /\ settled (run context) = inl result
    /\ nodeExecutions (execution st') !! n_id node = Some ne
    /\ ne_outputs ne = Some outs
    /\ forall k,
         let written :=
           match lastWrite k (calls (run context)) with
           | Some v => v
           | None => Js.obj_get k (default [] (nodeOutputs st !! n_id node))
           end in
         Js.obj_get k outs =
         match objectLike result with
         | Some o => if bool_decide (k ∈ o.*1) then Js.obj_get k o else written
         | None => if String.eqb k "value" then result else written
         end.
Proof.
  intros Hx Hblock Hslot Hres.
  destruct (executeNode_Ok_record _ _ _ _ _ _ _ _ _ _ _ Hx Hblock)
    as (context & result & ne & Hctx & _ & _ & Hset & Hne & _ & Hout & _).
  exists context, result, ne. eexists.
  split; [by rewrite Hctx, last_snoc |].
  split; [done |]. split; [done |]. split; [exact Hout |].
  intros k. cbv zeta.
  pose proof (slotAfter_NoDup _ (calls (run context)) Hslot) as Hnd.
  assert (Hret : NoDup (returnOutputsOf result).*1).
  { unfold returnOutputsOf. destruct result; cbn [objectLike];
      try apply NoDup_singleton. by eapply Hres. }
  rewrite obj_get_spread2 by done. rewrite slotAfter_get.
  unfold returnOutputsOf.
  destruct (objectLike result) as [o|] eqn:Ho.
  - by destruct (lastWrite k _).
  - cbn [fmap list_fmap fst Js.obj_get].
    destruct (String.eqb_spec k "value") as [-> | Hne'].
    + by rewrite bool_decide_eq_true_2 by left.
    + rewrite bool_decide_eq_false_2.
      * by destruct (lastWrite k _).
      * by intros ->%list_elem_of_singleton.
Qed.

Module SampleWrites.
Import Sample.

(** A block that sets [x], sets [y] twice and returns [{x: 9}]. *)
Definition overwriting : Block := fun _ =>
  {| calls := [CallSetNodeOutput "x" (JNum 1); CallSetNodeOutput "y" (JNum 2);
               CallSetNodeOutput "y" (JNum 3)];
     hostStopped := false; settled := inl (JObj [("x", JNum 9)]) |}.

Definition run : Res unit * EngineState :=
  executeNode (registry (resolving JUndefined) overwriting) quietLog
    quietUpdate fork (node "a" "task" []) ∅ (buildAliasMap (nodes fork))
    None (initialState fork no_options).

End SampleWrites.

Lemma recorded_output_precedence_witness :
  exists ne outs,
    nodeExecutions (execution SampleWrites.run.2) !! "a" = Some ne
    /\ ne_outputs ne = Some outs
    /\ Js.obj_get "x" outs = JNum 9
    /\ Js.obj_get "y" outs = JNum 3.
Proof.
  destruct (recorded_output_precedence
              (Sample.registry (Sample.resolving JUndefined)
                 SampleWrites.overwriting)
              Sample.quietLog Sample.quietUpdate Sample.fork
              (Sample.node "a" "task" []) ∅
              (buildAliasMap (nodes Sample.fork)) None
              SampleWrites.overwriting
              (initialState Sample.fork no_options)
              SampleWrites.run.2
              ltac:(vm_compute; reflexivity) eq_refl
              ltac:(vm_compute; constructor)
              ltac:(intros ctx o [= <-]; vm_compute; apply NoDup_singleton))
    as (context & result & ne & outs & _ & Hres & Hne & Hout & Hk).
  injection Hres as <-.
  exists ne, outs. split; [exact Hne |]. split; [exact Hout |].
  split; [exact (Hk "x") | exact (Hk "y")].
Defined.

(* ===================================================================== *)
(** ** Failing nodes *)
(* ===================================================================== *)

(** The record of a node whose execution failed with [error]. *)
Definition failedRecord (id : string) (error : JsError) : NodeExecution :=
  {| ne_nodeId := id; ne_status := NodeError; ne_outputs := None;
     ne_error := Some (errorMessage error) |}.

(** The log line of the [catch] block of [executeNode]. *)
Definition nodeFailedLog (id : string) (error : JsError) : ExecutionLog :=
  {| log_nodeId := Some id;
     log_message := "🚨 Node failed: " +:+ errorMessage error;
     log_level := Error |}.

(** X3.  With subscribers that only return, executing a node whose block
    type is not registered (or has no [run]) throws an [Error] with the
    message [Block type T not found or not executable]: the node's record
    ends with status [error], that message and no outputs, the last log
    line is the node-failed line, no block is called and the Output Store
    is left as it was. *)
Theorem unregistered_block_fails
    (getBlockConfig : string -> option Block)
    (onLog : ExecutionLog -> CallbackResult)
    (onNodeUpdate : string -> NodeExecution -> CallbackResult)
    (workflow : Workflow) (node : WorkflowNode) (env : gmap string string)
    (aliasMap : AliasMap) (singleNodeId : option string)
    (st : EngineState) :
  only_returns onLog ->
  (forall id, only_returns (onNodeUpdate id)) ->
  getBlockConfig (n_type node) = None ->
  let error :=
    ErrorObj ("Block type " +:+ n_type node
              +:+ " not found or not executable") in
  let r := executeNode getBlockConfig onLog onNodeUpdate workflow node env
             aliasMap singleNodeId st in
  r.1 = Throw error
  /\ nodeExecutions (execution r.2) !! n_id node
     = Some (failedRecord (n_id node) error)
  /\ last (logs (execution r.2)) = Some (nodeFailedLog (n_id node) error)
  /\ contexts r.2 = contexts st
  /\ nodeOutputs r.2 = nodeOutputs st.
Proof.
  intros HonLog HonUpdate Hnone error r.
  set (s0 := with_started (fun h => (h ++ [n_id node])%list)
               (with_execution
                  (with_nodeExecutions
                     (insert (n_id node)
                        {| ne_nodeId := n_id node; ne_status := NodeRunning;
                           ne_outputs := None; ne_error := None |})) st)).
  assert (Htry : exists s1,
            nodeTry getBlockConfig onLog workflow node env aliasMap
              singleNodeId s0 = (Throw error, s1)
            /\ nodeExecutions (execution s1) = nodeExecutions (execution s0)
            /\ contexts s1 = contexts st /\ nodeOutputs s1 = nodeOutputs st).
  { unfold nodeTry. rewrite Hnone.
    destruct (negb (String.eqb (n_type node) "starter")); simpl when.
    - erewrite bind_run_Ok by (by apply log_quiet). by eexists.
    - by eexists. }
  destruct Htry as (s1 & Htry & Hne & Hctx & Hout).
  assert (Hrun : r
            = (Throw error,
               with_execution (push_log (nodeFailedLog (n_id node) error))
                 (with_execution
                    (with_nodeExecutions
                       (alter (ne_set_error (errorMessage error)) (n_id node)))
                    (with_execution
                       (with_nodeExecutions
                          (alter (ne_set_status NodeError) (n_id node)))
                       s1)))).
  { subst r. unfold executeNode.
    unfold bind at 1. unfold modify at 1. unfold bind at 1. unfold modify at 1.
    erewrite bind_run_Ok by (by apply notify_quiet). fold s0.
    erewrite bind_run_Throw; [reflexivity |].
    erewrite try_catch_run_Throw by exact Htry.
    unfold nodeCatch.
    unfold bind at 1. unfold updateNodeExecution at 1. unfold modify at 1.
    unfold bind at 1. unfold updateNodeExecution at 1. unfold modify at 1.
    erewrite bind_run_Ok by (by apply log_quiet). reflexivity. }
  rewrite Hrun. cbn [fst snd]. split; [done |].
  cbn [execution with_execution nodeExecutions with_nodeExecutions push_log
       logs contexts nodeOutputs].
  rewrite !lookup_alter_eq, Hne. unfold s0.
  cbn [execution with_execution with_started nodeExecutions
       with_nodeExecutions].
  rewrite lookup_insert_eq. split; [done |].
  split; [by rewrite last_snoc | done].
Qed.

Lemma unregistered_block_fails_witness :
  let r := executeNode (fun _ => None) Sample.quietLog Sample.quietUpdate
             Sample.fork (Sample.node "a" "task" []) ∅ ∅ None
             (initialState Sample.fork no_options) in
  r.1 = Throw (ErrorObj "Block type task not found or not executable")
  /\ nodeExecutions (execution r.2) !! "a"
     = Some {| ne_nodeId := "a"; ne_status := NodeError; ne_outputs := None;
               ne_error :=
                 Some "Block type task not found or not executable" |}.
Proof.
  pose proof (unregistered_block_fails (fun _ => None) Sample.quietLog
                Sample.quietUpdate Sample.fork (Sample.node "a" "task" [])
                ∅ ∅ None (initialState Sample.fork no_options)
                (fun _ => eq_refl) (fun _ _ => eq_refl) eq_refl)
    as (H1 & H2 & _).
  split; [exact H1 | exact H2].
Defined.

Section Rejection.

Variable onLog : ExecutionLog -> CallbackResult.
Hypothesis onLog_returns : only_returns onLog.

Lemma for_each_blockCall_quiet id cs st :
  exists st',
    for_each cs (blockCall onLog id) st = (Ok tt, st')
    /\ nodeExecutions (execution st') = nodeExecutions (execution st)
    /\ status (execution st') = status (execution st)
    /\ nodeOutputs st' !! id = slotAfter (nodeOutputs st !! id) cs
    /\ (forall n, n <> id -> nodeOutputs st' !! n = nodeOutputs st !! n)
    /\ contexts st' = contexts st
    /\ started st' = started st
    /\ aborted st' = aborted st.
Proof.
  revert st. induction cs as [|c cs IH]; intros st.
  { by eexists. }
  cbn [for_each]. rewrite slotAfter_cons.
  destruct c as [key value | message]; cbn [blockCall].
  - unfold setNodeOutput. unfold bind at 1. unfold modify at 1.
    match goal with |- context [for_each cs _ ?s] =>
      destruct (IH s) as (st' & -> & H1 & H2 & H3 & H4 & H5 & H6 & H7) end.
    exists st'. cbn in *. rewrite lookup_insert_eq in H3.
    split; [done |]. split; [done |]. split; [done |]. split; [done |].
    split; [| done]. intros n Hn. rewrite H4 by done.
    by rewrite lookup_insert_ne.
  - erewrite bind_run_Ok by (by apply log_quiet).
    match goal with |- context [for_each cs _ ?s] =>
      destruct (IH s) as (st' & -> & H1 & H2 & H3 & H4 & H5 & H6 & H7) end.
    by exists st'.
Qed.

End Rejection.

(** X4.  With subscribers that only return, executing a node whose block
    rejects with [error] rethrows that error: the node's record ends with
    status [error], the error's message ([Unknown error] for a thrown
    value that is not an [Error]) and no outputs, the last log line is the
    node-failed line, and what the block wrote via [setNodeOutput] before
    it failed stays in the node's slot of the Output Store. *)
Theorem rejecting_block_fails
    (getBlockConfig : string -> option Block)
    (onLog : ExecutionLog -> CallbackResult)
    (onNodeUpdate : string -> NodeExecution -> CallbackResult)
    (workflow : Workflow) (node : WorkflowNode) (env : gmap string string)
    (aliasMap : AliasMap) (singleNodeId : option string)
    (run : Block) (error : JsError) (st : EngineState) :
  only_returns onLog ->
  (forall id, only_returns (onNodeUpdate id)) ->
  getBlockConfig (n_type node) = Some run ->
  let context := buildContext workflow node env aliasMap singleNodeId st in
  settled (run context) = inr error ->
  let r := executeNode getBlockConfig onLog onNodeUpdate workflow node env
             aliasMap singleNodeId st in
  r.1 = Throw error
  /\ nodeExecutions (execution r.2) !! n_id node
     = Some (failedRecord (n_id node) error)
  /\ last (logs (execution r.2)) = Some (nodeFailedLog (n_id node) error)
  /\ contexts r.2 = (contexts st ++ [context])%list
  /\ nodeOutputs r.2 !! n_id node
     = slotAfter (nodeOutputs st !! n_id node) (calls (run context)).
Proof.
  intros HonLog HonUpdate Hblock context Herr r.
  set (s := with_contexts (fun h => (h ++ [context])%list) (atRun node st)).
  destruct (for_each_blockCall_quiet onLog HonLog (n_id node)
              (calls (run context)) s)
    as (s1 & Hcalls & Hne & _ & Hslot & _ & Hctx & _ & _).
  set (s2 := if hostStopped (run context) then with_aborted true s1 else s1).
  assert (Hsettle :
            (let* result := settleRun onLog (n_id node) (run context) in
             recordResult onLog node result) s = (Throw error, s2)).
  { apply bind_run_Throw. unfold settleRun.
    erewrite bind_run_Ok by exact Hcalls.
    unfold s2. destruct (hostStopped (run context)); simpl when.
    - unfold bind at 1. unfold stop, modify. by rewrite Herr.
    - unfold bind at 1, ret at 1. by rewrite Herr. }
  assert (Hs2 : nodeExecutions (execution s2) = nodeExecutions (execution s1)
                /\ contexts s2 = contexts s1
                /\ nodeOutputs s2 = nodeOutputs s1).
  { unfold s2. by destruct (hostStopped (run context)). }
  destruct Hs2 as (Hne2 & Hctx2 & Hout2).
  assert (Hrun : r
            = (Throw error,
               with_execution (push_log (nodeFailedLog (n_id node) error))
                 (with_execution
                    (with_nodeExecutions
                       (alter (ne_set_error (errorMessage error)) (n_id node)))
                    (with_execution
                       (with_nodeExecutions
                          (alter (ne_set_status NodeError) (n_id node)))
                       s2)))).
  { subst r.
    rewrite (executeNode_quiet getBlockConfig onLog onNodeUpdate HonLog
               HonUpdate workflow node env aliasMap singleNodeId run st
               Hblock).
    fold context. fold s.
    erewrite bind_run_Throw; [reflexivity |].
    erewrite try_catch_run_Throw by exact Hsettle.
    unfold nodeCatch.
    unfold bind at 1. unfold updateNodeExecution at 1. unfold modify at 1.
    unfold bind at 1. unfold updateNodeExecution at 1. unfold modify at 1.
    erewrite bind_run_Ok by (by apply log_quiet). reflexivity. }
  rewrite Hrun. cbn [fst snd]. split; [done |].
  cbn [execution with_execution nodeExecutions with_nodeExecutions push_log
       logs contexts nodeOutputs].
  rewrite !lookup_alter_eq, Hne2, Hne, Hctx2, Hctx, Hout2, Hslot.
  assert (Hs : nodeExecutions (execution s) !! n_id node
               = Some {| ne_nodeId := n_id node; ne_status := NodeRunning;
                         ne_outputs := None; ne_error := None |}
               /\ contexts s = (contexts st ++ [context])%list
               /\ nodeOutputs s = nodeOutputs st).
  { unfold s, atRun. destruct (negb _); cbn; by rewrite lookup_insert_eq. }
  destruct Hs as (-> & -> & ->).
  split; [done |]. split; [by rewrite last_snoc | done].
Qed.

Module SampleFailure.
Import Sample.

(** A block that writes [partial] and then rejects with a thrown string. *)
Definition failingAfterWrite : Block := fun _ =>
  {| calls := [CallSetNodeOutput "partial" (JNum 1)];
     hostStopped := false; settled := inr (ThrownValue (JStr "boom")) |}.

Definition run : Res unit * EngineState :=
  executeNode (registry (resolving JUndefined) failingAfterWrite) quietLog
    quietUpdate fork (node "a" "task" []) ∅ (buildAliasMap (nodes fork))
    None (initialState fork no_options).

End SampleFailure.

Lemma rejecting_block_fails_witness :
  SampleFailure.run.1 = Throw (ThrownValue (JStr "boom"))
  /\ nodeExecutions (execution SampleFailure.run.2) !! "a"
     = Some {| ne_nodeId := "a"; ne_status := NodeError; ne_outputs := None;
               ne_error := Some "Unknown error" |}
  /\ nodeOutputs SampleFailure.run.2 !! "a" = Some [("partial", JNum 1)].
Proof.
  pose proof (rejecting_block_fails
                (Sample.registry (Sample.resolving JUndefined)
                   SampleFailure.failingAfterWrite)
                Sample.quietLog Sample.quietUpdate Sample.fork
                (Sample.node "a" "task" []) ∅
                (buildAliasMap (nodes Sample.fork)) None
                SampleFailure.failingAfterWrite
                (ThrownValue (JStr "boom"))
                (initialState Sample.fork no_options)
                (fun _ => eq_refl) (fun _ _ => eq_refl) eq_refl eq_refl)
    as (H1 & H2 & _ & _ & H3).
  split; [exact H1 |]. split; [exact H2 | exact H3].
Defined.

(* ===================================================================== *)
(** ** What every run keeps, however it ends *)
(* ===================================================================== *)

(** [hoare P m Q]: started in a state with [P], [m] does not run out of
    fuel and ends - returning or throwing - in a state with [Q]. *)
Definition hoare {A} (P : EngineState -> Prop) (m : M A)
    (Q : EngineState -> Prop) : Prop :=
  forall st, P st -> (m st).1 <> OutOfFuel /\ Q (m st).2.

Lemma hoare_bind {A B} (P Q R : EngineState -> Prop) (m : M A)
    (k : A -> M B) :
  hoare P m Q -> (forall a, hoare Q (k a) R) -> (forall st, Q st -> R st) ->
  hoare P (bind m k) R.
Proof.
  intros Hm Hk HQR st HP. unfold bind. destruct (Hm st HP) as [Hne HQ].
  destruct (m st) as [[a|e|] st1]; simpl in *;
    [by apply Hk | split; [done | by apply HQR] | done].
Qed.

Lemma hoare_try_catch {A} (P Q R : EngineState -> Prop) (m : M A)
    (h : JsError -> M A) :
  hoare P m Q -> (forall e, hoare Q (h e) R) -> (forall st, Q st -> R st) ->
  hoare P (try_catch m h) R.
Proof.
  intros Hm Hh HQR st HP. unfold try_catch. destruct (Hm st HP) as [Hne HQ].
  destruct (m st) as [[a|e|] st1]; simpl in *;
    [split; [done | by apply HQR] | by apply Hh | done].
Qed.

Lemma hoare_keeps {A} (R : relation EngineState) (P Q : EngineState -> Prop)
    (m : M A) :
  keeps R m -> (forall st st', P st -> R st st' -> Q st') -> hoare P m Q.
Proof. intros Hm HPQ st HP. destruct (Hm st) as [Hne HR]. eauto. Qed.

(** The log only grows. *)
Definition logs_grow : relation EngineState :=
  fun st st' => logs (execution st) `prefix_of` logs (execution st').

#[global] Instance logs_grow_preorder : PreOrder logs_grow.
Proof.
  split; unfold logs_grow; [by intros ? | intros ? ? ? ? ?; by etrans].
Qed.

(** The frame of the code around the loop: it starts no node and touches
    no node record. *)
Record outer_frame (st st' : EngineState) : Prop := {
  of_workflowId : workflowId (execution st') = workflowId (execution st);
  of_nodeExecutions :
    nodeExecutions (execution st') = nodeExecutions (execution st);
  of_logs : logs (execution st) `prefix_of` logs (execution st');
  of_started : started st' = started st;
  of_aborted : aborted st = true -> aborted st' = true;
}.

(** The frame of a whole run: the log and the list of started nodes only
    grow, and the record of a node that was not started is left alone. *)
Record run_frame (st st' : EngineState) : Prop := {
  rf_workflowId : workflowId (execution st') = workflowId (execution st);
  rf_logs : logs (execution st) `prefix_of` logs (execution st');
  rf_started : started st `prefix_of` started st';
  rf_aborted : aborted st = true -> aborted st' = true;
  rf_untouched : forall n, n ∉ started st' ->
    nodeExecutions (execution st') !! n = nodeExecutions (execution st) !! n;
}.

#[global] Instance outer_frame_preorder : PreOrder outer_frame.
Proof.
  split.
  - intros st. by split.
  - intros a b c [] []. split; try congruence; try tauto. by etrans.
Qed.

#[global] Instance run_frame_preorder : PreOrder run_frame.
Proof.
  split.
  - intros st. by split.
  - intros a b c [] []. split; try congruence; try tauto; try (by etrans).
    intros n Hn. rewrite rf_untouched1 by done. apply rf_untouched0.
    intros Hb. apply Hn. by eapply elem_of_prefix.
Qed.

Lemma log_frame_outer_frame st st' : log_frame st st' -> outer_frame st st'.
Proof. intros []. by split. Qed.

Lemma outer_frame_run_frame st st' : outer_frame st st' -> run_frame st st'.
Proof.
  intros []. split; try done.
  - by rewrite of_started0.
  - intros n _. by rewrite of_nodeExecutions0.
Qed.

Section Invariants.

Variable getBlockConfig : string -> option Block.
Variable onLog : ExecutionLog -> CallbackResult.
Variable onNodeUpdate : string -> NodeExecution -> CallbackResult.

Lemma keeps_logs_log level message nodeId :
  keeps logs_grow (log onLog level message nodeId).
Proof.
  eapply keeps_weaken; [| apply keeps_log]. by intros st st' [].
Qed.

Lemma keeps_logs_notify id :
  keeps logs_grow (notifyNodeUpdate onNodeUpdate id).
Proof.
  eapply keeps_weaken; [| apply keeps_notifyNodeUpdate]. by intros st st' [].
Qed.

Lemma keeps_logs_modify f :
  (forall st, logs (execution (f st)) = logs (execution st)) ->
  keeps logs_grow (modify f).
Proof.
  intros H. apply keeps_modify. intros st. unfold logs_grow. by rewrite H.
Qed.

Lemma keeps_logs_settleRun id r : keeps logs_grow (settleRun onLog id r).
Proof.
  unfold settleRun.
  apply keeps_bind; [apply _ | |].
  { apply keeps_for_each; [apply _ |]. intros [key value | message]; simpl.
    - by apply keeps_logs_modify.
    - apply keeps_logs_log. }
  intros _. apply keeps_bind; [apply _ | |].
  { apply keeps_when; [apply _ |]. by apply keeps_logs_modify. }
  intros _. destruct (settled _); [apply keeps_ret | apply keeps_throw]; apply _.
Qed.

Lemma keeps_logs_recordResult node result :
  keeps logs_grow (recordResult onLog node result).
Proof.
  unfold recordResult.
  apply keeps_bind; [apply _ | by apply keeps_logs_modify |]. intros _.
  apply keeps_bind; [apply _ | apply keeps_get, _ |]. intros st1.
  apply keeps_bind; [apply _ | by apply keeps_logs_modify |]. intros _.
  apply keeps_bind; [apply _ | |].
  { destruct (objectLike _); [by apply keeps_logs_modify | apply keeps_ret, _]. }
  intros _. apply keeps_when; [apply _ |]. apply keeps_logs_log.
Qed.

Lemma keeps_logs_nodeTry workflow node env aliasMap singleNodeId :
  keeps logs_grow
    (nodeTry getBlockConfig onLog workflow node env aliasMap singleNodeId).
Proof.
  unfold nodeTry.
  apply keeps_bind; [apply _ | |].
  { apply keeps_when; [apply _ |]. apply keeps_logs_log. }
  intros _. destruct (getBlockConfig _) as [run|]; [| apply keeps_throw, _].
  apply keeps_bind; [apply _ | apply keeps_get, _ |]. intros st.
  apply keeps_bind; [apply _ | |].
  { unfold awaitRun.
    apply keeps_bind; [apply _ | by apply keeps_logs_modify |]. intros _.
    apply keeps_logs_settleRun. }
  intros result. apply keeps_logs_recordResult.
Qed.

Lemma keeps_logs_nodeCatch id error :
  keeps logs_grow (nodeCatch onLog id error).
Proof.
  unfold nodeCatch.
  apply keeps_bind; [apply _ | by apply keeps_logs_modify |]. intros _.
  apply keeps_bind; [apply _ | by apply keeps_logs_modify |]. intros _.
  apply keeps_bind; [apply _ | apply keeps_logs_log |]. intros _.
  apply keeps_throw, _.
Qed.

Lemma keeps_logs_executeNode workflow node env aliasMap singleNodeId :
  keeps logs_grow
    (executeNode getBlockConfig onLog onNodeUpdate workflow node env aliasMap
       singleNodeId).
Proof.
  unfold executeNode.
  apply keeps_bind; [apply _ | by apply keeps_logs_modify |]. intros _.
  apply keeps_bind; [apply _ | by apply keeps_logs_modify |]. intros _.
  apply keeps_bind; [apply _ | apply keeps_logs_notify |]. intros _.
  apply keeps_bind; [apply _ | | intros _; apply keeps_logs_notify].
  apply keeps_try_catch; [apply _ | apply keeps_logs_nodeTry |].
  intros e. apply keeps_logs_nodeCatch.
Qed.

(** One execution of a node, within the frame of a run. *)
Lemma executeNode_run_frame workflow node env aliasMap singleNodeId st :
  n_id node ∉ started st ->
  NoDup (started st) ->
  let r := executeNode getBlockConfig onLog onNodeUpdate workflow node env
             aliasMap singleNodeId st in
  r.1 <> OutOfFuel /\ run_frame st r.2 /\ NoDup (started r.2)
  /\ started r.2 = (started st ++ [n_id node])%list.
Proof.
  intros Hnew Hnd r.
  pose proof (executeNode_effect getBlockConfig onLog onNodeUpdate workflow
                node env aliasMap singleNodeId st) as Heff.
  cbv zeta in Heff. fold r in Heff.
  destruct Heff as [Hne [Hwf Hstat Hrec Hpres Hout Hstarted Hab]].
  destruct (keeps_logs_executeNode workflow node env aliasMap singleNodeId st)
    as [_ Hlogs].
  fold r in Hlogs.
  split; [done |]. split; [| split; [| done]].
  - split; try done.
    + rewrite Hstarted. by apply prefix_app_r.
    + intros n Hn. apply Hrec. intros ->. apply Hn.
      rewrite Hstarted. set_solver.
  - rewrite Hstarted. apply NoDup_app. split; [done |].
    split; [| apply NoDup_singleton].
    intros x Hx ->%list_elem_of_singleton. done.
Qed.

Lemma keeps_outer_log level message nodeId :
  keeps outer_frame (log onLog level message nodeId).
Proof.
  eapply keeps_weaken; [apply log_frame_outer_frame | apply keeps_log].
Qed.

Lemma keeps_outer_setStatus s : keeps outer_frame (setStatus s).
Proof. apply keeps_modify. intros st. by split. Qed.

Lemma keeps_outer_loopCatch node error :
  keeps outer_frame (loopCatch onLog node error).
Proof.
  unfold loopCatch.
  apply keeps_bind; [apply _ | apply keeps_outer_setStatus |]. intros _.
  apply keeps_bind; [apply _ | apply keeps_outer_log |]. intros _.
  apply keeps_throw, _.
Qed.

Lemma keeps_outer_workflowCatch error :
  keeps outer_frame (workflowCatch onLog error).
Proof.
  unfold workflowCatch.
  apply keeps_bind; [apply _ | apply keeps_outer_setStatus |]. intros _.
  apply keeps_outer_log.
Qed.

Lemma keeps_outer_restoreOutputs : keeps outer_frame (restoreOutputs onLog).
Proof.
  unfold restoreOutputs.
  apply keeps_bind; [apply _ | apply keeps_get, _ |]. intros st.
  apply keeps_for_each; [apply _ |]. intros entry.
  destruct (ne_outputs _); [| apply keeps_ret, _].
  apply keeps_bind; [apply _ | | intros _; apply keeps_outer_log].
  apply keeps_modify. intros s. by split.
Qed.

Section LoopFrame.

Variable workflow : Workflow.
Variable env : gmap string string.
Variable aliasMap : AliasMap.
Variable singleNodeId : option string.

(** The loop, with enough fuel, from a state in which the started nodes
    are distinct and all visited. *)
Lemma loop_run_frame fuel visited queue st :
  (potential workflow visited queue < fuel)%nat ->
  (forall n, n ∈ started st -> n ∈ visited) ->
  NoDup (started st) ->
  let r := loop getBlockConfig onLog onNodeUpdate fuel workflow env aliasMap
             singleNodeId visited queue st in
  r.1 <> OutOfFuel /\ run_frame st r.2 /\ NoDup (started r.2).
Proof.
  revert visited queue st.
  induction fuel as [|fuel IH]; intros visited queue st Hfuel Hsub Hnd;
    [lia |].
  destruct queue as [|x queue'].
  { split; [done |]. split; [reflexivity | done]. }
  match goal with |- let r := ?t in _ =>
    change ((fun p : Res unit * EngineState =>
               p.1 <> OutOfFuel /\ run_frame st p.2 /\ NoDup (started p.2)) t)
  end.
  set (Q := fun p : Res unit * EngineState => _).
  rewrite loop_unfold. unfold bind at 1, get at 1.
  destruct (aborted st) eqn:Hab.
  { subst Q. cbn. split; [done |]. split; [| done].
    apply outer_frame_run_frame. by split. }
  case_bool_decide as Hv.
  { apply (IH visited queue' st); [| done | done].
    unfold potential in *. simpl in *. lia. }
  destruct (findNode workflow x) as [node|] eqn:Hf.
  - pose proof Hf as [_ Hid]%findNode_Some.
    assert (Hnew : n_id node ∉ started st).
    { rewrite Hid. intros Hin. by apply Hv, Hsub. }
    destruct (executeNode_run_frame workflow node env aliasMap singleNodeId
                st Hnew Hnd) as (Hne & Hrf & Hnd1 & Hst1).
    unfold bind, try_catch.
    destruct (executeNode _ _ _ _ _ _ _ _ st) as [[[]|e|] st1];
      cbn [fst snd] in *; [| | done].
    + destruct (IH ({[x]} ∪ visited)
                  (enqueue workflow singleNodeId ({[x]} ∪ visited) queue' x)
                  st1) as (H1 & H2 & H3); [| | done |].
      * pose proof (potential_visit workflow singleNodeId x node visited
                      queue' Hf Hv). lia.
      * intros n. rewrite Hst1, elem_of_app, list_elem_of_singleton, Hid.
        intros [Hn | ->]; [| set_solver]. apply Hsub in Hn. set_solver.
      * subst Q. cbv beta. split; [done |]. split; [by etrans | done].
    + destruct (keeps_outer_loopCatch node e st1) as [_ H2].
      destruct (loopCatch_run onLog node e st1) as (e' & st2 & Hcatch & _).
      rewrite Hcatch in H2 |- *. subst Q. cbn [fst snd] in *.
      split; [done |].
      split; [etrans; [done | by apply outer_frame_run_frame] |].
      destruct H2 as [_ _ _ H2 _]. by rewrite H2.
  - apply (IH ({[x]} ∪ visited) queue' st); [| set_solver | done].
    pose proof (potential_skip workflow x visited queue'). lia.
Qed.

End LoopFrame.

(** A whole run, from a state in which no node was started. *)
Lemma executeWorkflowM_run_frame workflow env options st :
  started st = [] ->
  let r := executeWorkflowM getBlockConfig onLog onNodeUpdate workflow env
             options st in
  r.1 <> OutOfFuel /\ run_frame st r.2 /\ NoDup (started r.2).
Proof.
  intros Hst0.
  set (I0 := fun s => outer_frame st s).
  set (I1 := fun s => run_frame st s /\ NoDup (started s)).
  assert (H01 : forall s, I0 s -> I1 s).
  { intros s Hs. split; [by apply outer_frame_run_frame |].
    destruct Hs. rewrite of_started0, Hst0. constructor. }
  assert (Hout0 : forall A (m : M A), keeps outer_frame m -> hoare I0 m I0).
  { intros A m Hm. eapply hoare_keeps; [exact Hm |].
    intros s s' Hs Hss. unfold I0 in *. by etrans. }
  assert (Hout1 : forall A (m : M A), keeps outer_frame m -> hoare I1 m I1).
  { intros A m Hm. eapply hoare_keeps; [exact Hm |].
    intros s s' [Hs Hnd] Hss. split.
    - etrans; [done | by apply outer_frame_run_frame].
    - destruct Hss. by rewrite of_started0. }
  assert (Hrun : hoare I0
            (executeWorkflowM getBlockConfig onLog onNodeUpdate workflow env
               options) I1).
  { unfold executeWorkflowM.
    eapply hoare_bind; [apply Hout0, keeps_outer_log | | exact H01].
    intros _.
    eapply hoare_bind with (Q := I1); [| | done].
    2:{ intros _. apply Hout1.
        apply keeps_bind; [apply _ | apply keeps_get, _ |].
        intros s. apply keeps_ret, _. }
    eapply hoare_try_catch with (Q := I1);
      [| intros e; apply Hout1, keeps_outer_workflowCatch | done].
    unfold runWorkflow.
    destruct (validateWorkflow workflow) as [e|].
    { intros s Hs. split; [done | by apply H01]. }
    eapply hoare_bind with (Q := I0); [| | exact H01].
    { apply Hout0, keeps_when; [apply _ |]. apply keeps_outer_restoreOutputs. }
    intros _.
    match goal with |- hoare _ (match ?x with _ => _ end) _ =>
      destruct x as [startNode|] end.
    2:{ intros s Hs. split; [done | by apply H01]. }
    eapply hoare_bind with (Q := I1); [| | done].
    - intros s Hs.
      assert (Hs0 : started s = []).
      { destruct Hs. by rewrite of_started0. }
      destruct (loop_run_frame workflow env (buildAliasMap (nodes workflow))
                  (singleNodeIdOf options) (loopFuel workflow) ∅
                  [n_id startNode] s) as (H1 & H2 & H3).
      + unfold potential, loopFuel. simpl.
        pose proof (unvisited_le workflow ∅). nia.
      + rewrite Hs0. intros n Hn. inversion Hn.
      + rewrite Hs0. constructor.
      + split; [done |]. split; [| done].
        etrans; [by apply outer_frame_run_frame | done].
    - intros _. apply Hout1.
      apply keeps_bind; [apply _ | apply keeps_get, _ |]. intros s.
      case_bool_decide; [apply keeps_ret, _ |].
      apply keeps_bind; [apply _ | apply keeps_outer_setStatus |]. intros _.
      apply keeps_outer_log. }
  intros r. destruct (Hrun st) as (H1 & H2 & H3); [unfold I0; reflexivity |].
  done.
Qed.

End Invariants.


(** X6.  In one call of [executeWorkflow] no node is executed twice,
    however the call ends: the ids for which [executeNode] was entered are
    pairwise distinct. *)
Theorem no_node_executed_twice
    (getBlockConfig : string -> option Block)
    (onLog : ExecutionLog -> CallbackResult)
    (onNodeUpdate : string -> NodeExecution -> CallbackResult)
    (workflow : Workflow) (env : gmap string string) (options : Options) :
  NoDup
    (started
       (executeWorkflow getBlockConfig onLog onNodeUpdate workflow env
          options).2).
Proof.
  unfold executeWorkflow.
  by destruct (executeWorkflowM_run_frame getBlockConfig onLog onNodeUpdate
                 workflow env options (initialState workflow options) eq_refl)
    as (_ & _ & H).
Qed.

(** X7.  A call of [executeWorkflow] only adds to what it starts from -
    the fresh execution or the [existingExecution] it was given: the log
    lines already there stay, in order, at the head of the log; the
    workflow id is kept; and the record of every node the call does not
    execute is exactly what it was.  When the call resolves, the value it
    resolves to is that execution object. *)
Theorem run_keeps_inherited_history
    (getBlockConfig : string -> option Block)
    (onLog : ExecutionLog -> CallbackResult)
    (onNodeUpdate : string -> NodeExecution -> CallbackResult)
    (workflow : Workflow) (env : gmap string string) (options : Options) :
  let r := executeWorkflow getBlockConfig onLog onNodeUpdate workflow env
             options in
  let before := initialExecution workflow options in
  logs before `prefix_of` logs (execution r.2)
  /\ workflowId (execution r.2) = workflowId before
  /\ (forall n, n ∉ started r.2 ->
        nodeExecutions (execution r.2) !! n = nodeExecutions before !! n)
  /\ (forall ex, r.1 = Ok ex -> ex = execution r.2).
Proof.
  intros r before.
  destruct (executeWorkflowM_run_frame getBlockConfig onLog onNodeUpdate
              workflow env options (initialState workflow options) eq_refl)
    as (_ & [H1 H2 H3 H4 H5] & _).
  split; [exact H2 |]. split; [exact H1 |]. split; [exact H5 |].
  intros ex Hex. subst r. unfold executeWorkflow, executeWorkflowM in *.
  destruct (bind _ _ _) as [res st'] eqn:Hrun. cbn [fst snd] in *.
  subst res.
  apply bind_Ok_inv in Hrun as ([] & s1 & _ & Hrun).
  apply bind_Ok_inv in Hrun as ([] & s2 & _ & Hrun).
  by injection Hrun as <- <-.
Qed.

Module SampleHistory.
Import Sample.

Definition earlier : ExecutionLog :=
  {| log_nodeId := None; log_message := "✅ Workflow completed";
     log_level := Info |}.

Definition upstreamRecord : NodeExecution :=
  {| ne_nodeId := "upstream"; ne_status := NodeSuccess;
     ne_outputs := Some [("value", JNum 42)]; ne_error := None |}.

(** A prior run left one log line and a record for [upstream]. *)
Definition prior : WorkflowExecution :=
  {| workflowId := "wf"; status := Success; logs := [earlier];
     nodeExecutions := {["upstream" := upstreamRecord]} |}.

Definition rerun : Options :=
  {| onlyNodeId := Some "target"; existingExecution := Some prior |}.

Definition run : Res WorkflowExecution * EngineState :=
  executeWorkflow (registry (resolving JUndefined) (rejecting "boom"))
    quietLog quietUpdate SampleRerun.pipeline ∅ rerun.

End SampleHistory.

Lemma run_keeps_inherited_history_witness :
  [SampleHistory.earlier] `prefix_of` logs (execution SampleHistory.run.2)
  /\ nodeExecutions (execution SampleHistory.run.2) !! "upstream"
     = Some SampleHistory.upstreamRecord.
Proof.
  pose proof (run_keeps_inherited_history
                (Sample.registry (Sample.resolving JUndefined)
                   (Sample.rejecting "boom"))
                Sample.quietLog Sample.quietUpdate SampleRerun.pipeline ∅
                SampleHistory.rerun) as (H1 & _ & H3 & _).
  split; [exact H1 |].
  unfold SampleHistory.run.
  rewrite (H3 "upstream"); [vm_compute; reflexivity |].
  assert (Hs : started SampleHistory.run.2 = ["target"])
    by (vm_compute; reflexivity).
  unfold SampleHistory.run in Hs. rewrite Hs.
  intros Hin%list_elem_of_singleton. discriminate Hin.
Defined.

(* ===================================================================== *)
(** ** Runs that fail before any node executes *)
(* ===================================================================== *)

(** The log line of the outer [catch] of [executeWorkflow]. *)
Definition workflowFailedLog (message : string) : ExecutionLog :=
  {| log_nodeId := None; log_message := "💥 Workflow failed: " +:+ message;
     log_level := Error |}.

(** X8.  A workflow without nodes is rejected by validation, in either
    mode: the call resolves with status [error] and the last log line
    [Workflow failed: Workflow has no nodes]; no node is executed and the
    node records are those the call started from. *)
Theorem empty_workflow_fails
    (getBlockConfig : string -> option Block)
    (onLog : ExecutionLog -> CallbackResult)
    (onNodeUpdate : string -> NodeExecution -> CallbackResult)
    (workflow : Workflow) (env : gmap string string) (options : Options) :
  never_throws onLog ->
  nodes workflow = [] ->
  exists st',
    executeWorkflow getBlockConfig onLog onNodeUpdate workflow env options
      = (Ok (execution st'), st')
    /\ status (execution st') = Failed
    /\ started st' = []
    /\ contexts st' = []
    /\ nodeExecutions (execution st')
       = nodeExecutions (initialExecution workflow options)
    /\ last (logs (execution st'))
       = Some (workflowFailedLog "Workflow has no nodes").
Proof.
  intros Hq Hnodes.
  assert (Hinvalid : validateWorkflow workflow
                     = Some (ErrorObj "Workflow has no nodes")).
  { unfold validateWorkflow. by rewrite Hnodes. }
  destruct (log_returns onLog Hq Info
              ("🚀 Starting workflow: " +:+ wf_name workflow) None
              (initialState workflow options)) as (st1 & Hlog & [] & _).
  rewrite (executeWorkflow_invalid _ _ _ _ _ _ st1 _ Hlog Hinvalid).
  destruct (conclude_Throw_returns onLog Hq
              (ErrorObj "Workflow has no nodes") st1)
    as (st' & -> & Hs & Hne & Hst & Hctx & Hlogs).
  exists st'. repeat split; try done.
  - by rewrite Hst, lf_started0.
  - by rewrite Hctx, lf_contexts0.
  - by rewrite Hne, lf_nodeExecutions0.
  - rewrite Hlogs. apply last_snoc.
Qed.

Lemma empty_workflow_fails_witness :
  exists st',
    executeWorkflow (fun _ => None) Sample.quietLog Sample.quietUpdate
      {| wf_id := "wf"; wf_name := "empty"; starterId := "starter";
         nodes := []; edges := [] |} ∅ no_options
      = (Ok (execution st'), st')
    /\ status (execution st') = Failed.
Proof.
  destruct (empty_workflow_fails (fun _ => None) Sample.quietLog
              Sample.quietUpdate
              {| wf_id := "wf"; wf_name := "empty"; starterId := "starter";
                 nodes := []; edges := [] |} ∅ no_options
              Sample.quietLog_never_throws eq_refl)
    as (st' & H1 & H2 & _).
  exists st'. split; [exact H1 | exact H2].
Defined.

(** X9.  In single-node mode, when the workflow is valid and no node has
    the selected id, the call resolves with status [error] and the last
    log line [Workflow failed: Selected node not found]; no node is
    executed and the node records are those of the execution the call
    started from. *)
Theorem selected_node_not_found
    (getBlockConfig : string -> option Block)
    (onLog : ExecutionLog -> CallbackResult)
    (onNodeUpdate : string -> NodeExecution -> CallbackResult)
    (workflow : Workflow) (env : gmap string string) (options : Options)
    (selected : string) :
  never_throws onLog ->
  singleNodeIdOf options = Some selected ->
  is_Some (findNode workflow (starterId workflow)) ->
  findNode workflow selected = None ->
  exists st',
    executeWorkflow getBlockConfig onLog onNodeUpdate workflow env options
      = (Ok (execution st'), st')
    /\ status (execution st') = Failed
    /\ started st' = []
    /\ contexts st' = []
    /\ nodeExecutions (execution st')
       = nodeExecutions (initialExecution workflow options)
    /\ last (logs (execution st'))
       = Some (workflowFailedLog "Selected node not found").
Proof.
  intros Hq Hsel [starter Hstarter] Hnone.
  assert (Hvalid : validateWorkflow workflow = None).
  { unfold validateWorkflow. rewrite Hstarter.
    unfold findNode in Hstarter. by destruct (nodes workflow). }
  assert (Hstart : startNodeOf workflow options = None).
  { unfold startNodeOf. by rewrite Hsel. }
  destruct (prologue_returns onLog workflow options Hq) as [st0 Hpro].
  pose proof (prologue_frame onLog workflow options) as Hframe.
  cbv zeta in Hframe. rewrite Hpro in Hframe. cbn [fst snd] in Hframe.
  destruct Hframe as (_ & _ & _ & Hne0 & Hst0 & Hctx0).
  rewrite (executeWorkflow_no_start _ _ _ _ _ _ st0 Hpro Hvalid Hstart).
  rewrite Hsel. rewrite bool_decide_eq_true_2 by (by eexists).
  destruct (conclude_Throw_returns onLog Hq
              (ErrorObj "Selected node not found") st0)
    as (st' & -> & Hs & Hne & Hst & Hctx & Hlogs).
  exists st'. repeat split; try done; try congruence.
  rewrite Hlogs. apply last_snoc.
Qed.

Lemma selected_node_not_found_witness :
  exists st',
    executeWorkflow (fun _ => None) Sample.quietLog Sample.quietUpdate
      Sample.fork ∅
      {| onlyNodeId := Some " ghost "; existingExecution := None |}
      = (Ok (execution st'), st')
    /\ status (execution st') = Failed
    /\ last (logs (execution st'))
       = Some (workflowFailedLog "Selected node not found").
Proof.
  destruct (selected_node_not_found (fun _ => None) Sample.quietLog
              Sample.quietUpdate Sample.fork ∅
              {| onlyNodeId := Some " ghost "; existingExecution := None |}
              "ghost" Sample.quietLog_never_throws eq_refl
              (ex_intro _ _ eq_refl) eq_refl)
    as (st' & H1 & H2 & _ & _ & _ & H3).
  exists st'. split; [exact H1 |]. split; [exact H2 | exact H3].
Defined.

(* ===================================================================== *)
(** ** What a block receives for a [prev] placeholder *)
(* ===================================================================== *)

Section Called.

Variable getBlockConfig : string -> option Block.
Variable onLog : ExecutionLog -> CallbackResult.
Variable onNodeUpdate : string -> NodeExecution -> CallbackResult.

Lemma keeps_contexts_handled id (m : M unit) :
  keeps same_contexts m ->
  keeps same_contexts
    (try_catch m (nodeCatch onLog id) ;;; notifyNodeUpdate onNodeUpdate id).
Proof.
  intros Hm.
  apply keeps_bind; [apply _ | | intros _; apply keeps_contexts_notify].
  apply keeps_try_catch; [apply _ | done | apply keeps_contexts_nodeCatch].
Qed.

(** When [executeNode] hands a context to a block, the block is the
    registered one and the context was built over the Output Store as it
    was when [executeNode] was entered. *)
Lemma executeNode_called workflow node env aliasMap singleNodeId st context :
  contexts (executeNode getBlockConfig onLog onNodeUpdate workflow node env
              aliasMap singleNodeId st).2
  = (contexts st ++ [context])%list ->
  exists s run,
    getBlockConfig (n_type node) = Some run
    /\ nodeOutputs s = nodeOutputs st
    /\ context = buildContext workflow node env aliasMap singleNodeId s.
Proof.
  set (id := n_id node). unfold executeNode. fold id.
  unfold bind at 1. unfold modify at 1. unfold bind at 1. unfold modify at 1.
  set (s0 := with_started _ _).
  assert (Hs0 : contexts s0 = contexts st /\ nodeOutputs s0 = nodeOutputs st)
    by done.
  destruct Hs0 as [Hc0 Ho0].
  assert (Hno : forall c : RunContext,
            contexts st <> (contexts st ++ [c])%list).
  { intros c Heq. apply (f_equal length) in Heq.
    rewrite length_app in Heq. simpl in Heq. lia. }
  pose proof (keeps_notifyNodeUpdate onNodeUpdate id s0) as [_ Hf1].
  unfold bind at 1.
  destruct (notifyNodeUpdate onNodeUpdate id s0) as [[[]|e|] s1];
    cbn [fst snd] in *; destruct Hf1 as [_ _ _ _ Ho1 _ Hc1 _].
  2,3: intros Hcall; exfalso; apply (Hno context); congruence.
  (* the [try] block *)
  unfold nodeTry. fold id.
  set (first := when _ _).
  assert (Hfirst : keeps log_frame first).
  { apply keeps_when; [apply _ |]. apply keeps_log. }
  destruct (Hfirst s1) as [_ Hf2].
  destruct (first s1) as [[[]|e|] s1a] eqn:Hlog; cbn [fst snd] in *;
    destruct Hf2 as [_ _ _ _ Ho2 _ Hc2 _].
  - destruct (getBlockConfig (n_type node)) as [run|] eqn:Hblock.
    + set (ctx := buildContext workflow node env aliasMap singleNodeId s1a).
      set (m' := let* result := settleRun onLog id (run ctx) in
                 recordResult onLog node result).
      set (s1c := with_contexts (fun h => (h ++ [ctx])%list) s1a).
      match goal with |- contexts (bind (try_catch ?m _) _ s1).2 = _ -> _ =>
        assert (Heq : m s1 = m' s1c) end.
      { unfold bind at 1. rewrite Hlog. reflexivity. }
      assert (Hk : keeps same_contexts
                (try_catch m' (nodeCatch onLog id) ;;;
                 notifyNodeUpdate onNodeUpdate id)).
      { apply keeps_contexts_handled. unfold m'.
        apply keeps_bind; [apply _ | apply keeps_contexts_settleRun |].
        intros result. apply keeps_contexts_recordResult. }
      destruct (Hk s1c) as [_ Hsame]. unfold same_contexts in Hsame.
      unfold bind at 1, try_catch at 1. rewrite Heq.
      unfold bind at 1, try_catch at 1 in Hsame. rewrite Hsame.
      unfold s1c. cbn [contexts with_contexts]. rewrite Hc2, Hc1, Hc0.
      intros Hcall. apply app_inj_tail in Hcall as [_ <-].
      exists s1a, run. split; [done |]. split; [congruence | done].
    + intros Hcall. exfalso. apply (Hno context). rewrite <- Hcall.
      unfold bind at 1, try_catch at 1. unfold bind at 1. rewrite Hlog.
      unfold throw.
      assert (Hk : keeps same_contexts
                (nodeCatch onLog id
                   (ErrorObj ("Block type " +:+ n_type node
                              +:+ " not found or not executable")) ;;;
                 notifyNodeUpdate onNodeUpdate id)).
      { apply keeps_bind; [apply _ | apply keeps_contexts_nodeCatch |].
        intros _. apply keeps_contexts_notify. }
      destruct (Hk s1a) as [_ Hsame]. unfold same_contexts in Hsame.
      unfold bind at 1 in Hsame. rewrite Hsame. congruence.
  - intros Hcall. exfalso. apply (Hno context). rewrite <- Hcall.
    unfold bind at 1, try_catch at 1. unfold bind at 1. rewrite Hlog.
    assert (Hk : keeps same_contexts
              (nodeCatch onLog id e ;;; notifyNodeUpdate onNodeUpdate id)).
    { apply keeps_bind; [apply _ | apply keeps_contexts_nodeCatch |].
      intros _. apply keeps_contexts_notify. }
    destruct (Hk s1a) as [_ Hsame]. unfold same_contexts in Hsame.
    unfold bind at 1 in Hsame. rewrite Hsame. congruence.
  - destruct (Hfirst s1) as [Hne _]. rewrite Hlog in Hne. done.
Qed.

End Called.

(** Once a node is visited, the loop leaves its record and its slot of the
    Output Store alone. *)
Lemma loop_reaches_visited_stable getBlockConfig onLog onNodeUpdate workflow
    env aliasMap singleNodeId s s' :
  loop_reaches getBlockConfig onLog onNodeUpdate workflow env aliasMap
    singleNodeId s s' ->
  forall n, n ∈ s.1.1 ->
    n ∈ s'.1.1
    /\ nodeOutputs s'.2 !! n = nodeOutputs s.2 !! n
    /\ nodeExecutions (execution s'.2) !! n
       = nodeExecutions (execution s.2) !! n.
Proof.
  induction 1 as [s | s s1 s' Hnext _ IH]; intros n Hn; [done |].
  assert (Hstep : n ∈ s1.1.1
                  /\ nodeOutputs s1.2 !! n = nodeOutputs s.2 !! n
                  /\ nodeExecutions (execution s1.2) !! n
                     = nodeExecutions (execution s.2) !! n).
  { destruct Hnext as [v x q st Ha Hv | v x q st Ha Hv Hf
                      | v x q st node st' Ha Hv Hf Hx]; cbn [fst snd] in *.
    - done.
    - split; [set_solver | done].
    - pose proof (executeNode_effect getBlockConfig onLog onNodeUpdate
                    workflow node env aliasMap singleNodeId st) as [_ Heff].
      rewrite Hx in Heff. cbn [fst snd] in Heff.
      destruct Heff as [_ _ Hrec _ Hout _ _].
      apply findNode_Some in Hf as [_ Hid].
      assert (n <> n_id node) by (intros ->; congruence).
      split; [set_solver |]. split; [by apply Hout | by apply Hrec]. }
  destruct Hstep as (Hn1 & Ho1 & Hr1).
  destruct (IH n Hn1) as (Hn' & Ho' & Hr').
  split; [done |]. split; congruence.
Qed.

(** The fields of a configuration object after template resolution. *)
Lemma obj_get_resolved (f : JsValue -> JsValue) (props : Obj) k v :
  NoDup props.*1 ->
  (k, v) ∈ props ->
  Js.obj_get k (fold_left (fun o kv => Js.obj_set kv.1 (f kv.2) o) props [])
  = f v.
Proof.
  intros Hnd Hin. rewrite fold_obj_set_fresh by done. cbn [app].
  induction props as [|[k1 v1] props IH]; [by apply elem_of_nil in Hin |].
  rewrite fmap_cons in Hnd. cbn [fst] in Hnd.
  apply NoDup_cons in Hnd as [Hk1 Hnd].
  cbn [map fst snd Js.obj_get].
  apply elem_of_cons in Hin as [[= -> ->] | Hin].
  - by rewrite String.eqb_refl.
  - destruct (String.eqb_spec k k1) as [-> | _]; [| by apply IH].
    destruct Hk1. apply list_elem_of_fmap. by exists (k1, v).
Qed.

(** *** A string that is one placeholder *)

(** [s] has no closing brace in it. *)
Fixpoint noClosingBrace (s : string) : bool :=
  match s with
  | String c s' => negb (Ascii.eqb c "}") && noClosingBrace s'
  | EmptyString => true
  end.

Lemma spanNoBrace_placeholder expr rest :
  noClosingBrace expr = true ->
  spanNoBrace (expr +:+ String "}" rest) = (expr, String "}" rest).
Proof.
  induction expr as [|c expr IH]; intros H; [done |].
  cbn [noClosingBrace] in H. apply andb_true_iff in H as [Hc H].
  apply negb_true_iff in Hc.
  change (String c expr +:+ String "}" rest)
    with (String c (expr +:+ String "}" rest)).
  cbn [spanNoBrace]. rewrite Hc, IH by done. done.
Qed.

Lemma replaceFrom_skip_all env prevId nodeOutputs aliasMap s :
  replaceFrom env prevId nodeOutputs aliasMap (String.length s) s = "".
Proof. induction s as [|c s IH]; [done | exact IH]. Qed.

Lemma string_app_empty (s : string) : s +:+ "" = s.
Proof.
  induction s as [|c s IH]; [done |].
  change (String c s +:+ "") with (String c (s +:+ "")). by f_equal.
Qed.

Lemma string_app_length (s t : string) :
  String.length (s +:+ t) = (String.length s + String.length t)%nat.
Proof.
  induction s as [|c s IH]; [done |].
  change (String c s +:+ t) with (String c (s +:+ t)).
  cbn [String.length]. by rewrite IH.
Qed.

Lemma trim_start_idempotent s :
  Js.trim_start (Js.trim_start s) = Js.trim_start s.
Proof.
  induction s as [|c s IH]; [done |]. cbn [Js.trim_start].
  destruct (Js.is_space c) eqn:Hc; [done |]. cbn [Js.trim_start].
  by rewrite Hc.
Qed.

Lemma resolveExpr_trim env prevId nodeOutputs aliasMap e1 e2 :
  Js.trim e1 = Js.trim e2 ->
  resolveExpr env prevId nodeOutputs aliasMap e1
  = resolveExpr env prevId nodeOutputs aliasMap e2.
Proof. unfold resolveExpr. by intros ->. Qed.

Lemma replaceFrom_match env prevId nodeOutputs aliasMap c s e len :
  matchAt (String c s) = Some (e, len) ->
  replaceFrom env prevId nodeOutputs aliasMap 0 (String c s)
  = resolveExpr env prevId nodeOutputs aliasMap e
    +:+ replaceFrom env prevId nodeOutputs aliasMap (len - 1) s.
Proof.
  intros H.
  change (replaceFrom env prevId nodeOutputs aliasMap 0 (String c s))
    with (match matchAt (String c s) with
          | Some (expr, len) =>
              resolveExpr env prevId nodeOutputs aliasMap expr
              +:+ replaceFrom env prevId nodeOutputs aliasMap (len - 1) s
          | None =>
              String c (replaceFrom env prevId nodeOutputs aliasMap 0 s)
          end).
  by rewrite H.
Qed.

Lemma matchAt_placeholder c expr :
  noClosingBrace (String c expr) = true ->
  matchAt ("{{" +:+ String c expr +:+ "}}")
  = Some (captureGroup (String c expr),
          (4 + String.length (String c expr))%nat).
Proof.
  intros Hbrace.
  change ("{{" +:+ String c expr +:+ "}}")
    with (String "{" (String "{" (String c expr +:+ "}}"))).
  unfold matchAt.
  by rewrite (spanNoBrace_placeholder (String c expr) "}" Hbrace).
Qed.

(** A string that consists of one placeholder resolves to what the
    replacer makes of the expression between the braces. *)
Lemma resolveString_placeholder env prevId nodeOutputs aliasMap expr :
  noClosingBrace expr = true ->
  Js.trim expr <> "" ->
  resolveString env prevId nodeOutputs aliasMap ("{{" +:+ expr +:+ "}}")
  = resolveExpr env prevId nodeOutputs aliasMap expr.
Proof.
  intros Hbrace Htrim.
  assert (Hstart : Js.trim_start expr <> "").
  { intros H. apply Htrim. unfold Js.trim. by rewrite H. }
  destruct expr as [|c expr]; [done |].
  unfold resolveString.
  pose proof (matchAt_placeholder c expr Hbrace) as Hmatch.
  set (s' := String "{" (String c expr +:+ "}}")).
  change ("{{" +:+ String c expr +:+ "}}") with (String "{" s') in *.
  rewrite (replaceFrom_match _ _ _ _ _ _ _ _ Hmatch).
  assert (Hlen : (4 + String.length (String c expr) - 1)%nat
                 = String.length s').
  { unfold s'. cbn [String.length]. rewrite string_app_length. simpl. lia. }
  rewrite Hlen, replaceFrom_skip_all, string_app_empty.
  apply resolveExpr_trim. unfold captureGroup.
  destruct (Js.trim_start (String c expr)) as [|d g] eqn:Hg; [done |].
  unfold Js.trim. by rewrite <- Hg, trim_start_idempotent.
Qed.

(** C3, as the code has it.  When the engine calls the block of a node,
    every string field of the node's configuration (an object: its keys
    are distinct) arrives with its placeholders replaced.  A placeholder with root [prev] is resolved against the slot
    of the predecessor in the Output Store exactly when the node has
    exactly one incoming edge (node ids are non-empty strings): the rest
    of the expression is looked up in that slot, the whole slot when there
    is no rest; with no incoming edge, or more than one, it is replaced by
    the empty string.  For a predecessor executed earlier in the run, the
    slot is its recorded outputs when its block returned a plain object
    (so with [{count: 3}] returned or set, [{{prev.count}}] arrives as
    [3]); when it returned anything else, the slot holds only what it
    wrote via [setNodeOutput], without the [value] that is recorded. *)
Theorem prev_placeholder
    (getBlockConfig : string -> option Block)
    (onLog : ExecutionLog -> CallbackResult)
    (onNodeUpdate : string -> NodeExecution -> CallbackResult)
    (workflow : Workflow) (env : gmap string string) (aliasMap : AliasMap)
    (singleNodeId : option string) (node : WorkflowNode) (st : EngineState)
    (context : RunContext) :
  contexts (executeNode getBlockConfig onLog onNodeUpdate workflow node env
              aliasMap singleNodeId st).2
  = (contexts st ++ [context])%list ->
  NoDup (n_data node).*1 ->
  let store := nodeOutputs st in
  let prevId := prevIdOf workflow (n_id node) in
  let received k := Js.get_prop (inputs context) k in
  let lookup p path :=
    printValue
      (if String.eqb path "" then from_option JObj JUndefined (store !! p)
       else getByPath (JObj (default [] (store !! p))) path) in
  (forall k s, (k, JStr s) ∈ n_data node ->
     received k = JStr (resolveString env prevId store aliasMap s))
  /\ (forall p expr path,
        incoming workflow (n_id node) = [p] -> p <> "" ->
        splitRoot (Js.trim expr) = ("prev", path) ->
        resolveExpr env prevId store aliasMap expr = lookup p path
        /\ forall k, noClosingBrace expr = true ->
             (k, JStr ("{{" +:+ expr +:+ "}}")) ∈ n_data node ->
             received k = JStr (lookup p path))
  /\ (forall p o k,
        incoming workflow (n_id node) = [p] -> p <> "" ->
        store !! p = Some o -> Js.obj_get "count" o = JNum 3 ->
        (k, JStr "{{prev.count}}") ∈ n_data node ->
        received k = JStr "3")
  /\ (length (incoming workflow (n_id node)) <> 1%nat ->
      forall expr path,
        splitRoot (Js.trim expr) = ("prev", path) ->
        resolveExpr env prevId store aliasMap expr = ""
        /\ forall k, noClosingBrace expr = true ->
             (k, JStr ("{{" +:+ expr +:+ "}}")) ∈ n_data node ->
             received k = JStr "")
  /\ (forall pnode prun stp stp' visitedp queuep visited queue,
        executeNode getBlockConfig onLog onNodeUpdate workflow pnode env
          aliasMap singleNodeId stp = (Ok tt, stp') ->
        getBlockConfig (n_type pnode) = Some prun ->
        loop_reaches getBlockConfig onLog onNodeUpdate workflow env aliasMap
          singleNodeId ({[n_id pnode]} ∪ visitedp, queuep, stp')
          (visited, queue, st) ->
        exists pcontext presult pne,
          settled (prun pcontext) = inl presult
          /\ nodeExecutions (execution st) !! n_id pnode = Some pne
          /\ let written :=
               slotAfter (nodeOutputs stp !! n_id pnode)
                 (calls (prun pcontext)) in
             ne_outputs pne
             = Some (Js.spread2 (default [] written)
                       (returnOutputsOf presult))
             /\ store !! n_id pnode =
                match objectLike presult with
                | Some _ => ne_outputs pne
                | None => written
                end).
Proof.
  intros Hcall Hnd store prevId received lookup.
  destruct (executeNode_called _ _ _ _ _ _ _ _ _ _ Hcall)
    as (s & run & Hblock & Hstore & ->).
  assert (Hfield : forall k s0, (k, JStr s0) ∈ n_data node ->
            received k = JStr (resolveString env prevId store aliasMap s0)).
  { intros k s0 Hin. unfold received, buildContext. cbn [inputs].
    rewrite Hstore. cbn [resolveTemplatesDeep Js.get_prop].
    by rewrite (obj_get_resolved _ _ k (JStr s0) Hnd Hin). }
  assert (Hnonempty : forall expr path,
            splitRoot (Js.trim expr) = ("prev", path) -> Js.trim expr <> "").
  { intros expr path Hsplit Hempty. rewrite Hempty in Hsplit.
    discriminate Hsplit. }
  assert (Hone : forall p expr path,
            incoming workflow (n_id node) = [p] -> p <> "" ->
            splitRoot (Js.trim expr) = ("prev", path) ->
            resolveExpr env prevId store aliasMap expr = lookup p path).
  { intros p expr path Hin Hp Hsplit.
    rewrite (resolveExpr_prev _ _ _ _ _ _ Hsplit).
    unfold prevId, prevIdOf. rewrite Hin.
    apply String.eqb_neq in Hp. by rewrite Hp. }
  assert (Hnone : length (incoming workflow (n_id node)) <> 1%nat ->
            forall expr path,
              splitRoot (Js.trim expr) = ("prev", path) ->
              resolveExpr env prevId store aliasMap expr = "").
  { intros Hlen expr path Hsplit.
    rewrite (resolveExpr_prev _ _ _ _ _ _ Hsplit).
    unfold prevId, prevIdOf.
    by destruct (incoming workflow (n_id node)) as [|? [|? ?]]. }
  split; [exact Hfield |].
  split; [| split; [| split]].
  - intros p expr path Hin Hp Hsplit.
    split; [by apply Hone |].
    intros k Hbrace Hk. rewrite (Hfield _ _ Hk).
    rewrite (resolveString_placeholder _ _ _ _ expr Hbrace
               (Hnonempty _ _ Hsplit)).
    f_equal. by apply Hone.
  - intros p o k Hin Hp Hslot Hcount Hk.
    rewrite (Hfield _ _ Hk).
    rewrite (resolveString_placeholder _ _ _ _ "prev.count")
      by (vm_compute; done).
    rewrite (Hone p "prev.count" "count" Hin Hp eq_refl).
    unfold lookup. rewrite Hslot. cbn [String.eqb Ascii.eqb Bool.eqb default].
    unfold getByPath. simpl. by rewrite Hcount.
  - intros Hlen expr path Hsplit.
    split; [by apply (Hnone Hlen expr path) |].
    intros k Hbrace Hk. rewrite (Hfield _ _ Hk).
    rewrite (resolveString_placeholder _ _ _ _ expr Hbrace
               (Hnonempty _ _ Hsplit)).
    f_equal. by apply (Hnone Hlen expr path).
  - intros pnode prun stp stp' visitedp queuep visited queue Hp Hprun Hreach.
    destruct (executeNode_Ok_record _ _ _ _ _ _ _ _ _ _ _ Hp Hprun)
      as (pcontext & presult & pne & _ & _ & _ & Hres & Hrec & _ & Hout
          & Hslot).
    destruct (loop_reaches_visited_stable _ _ _ _ _ _ _ _ _ Hreach
                (n_id pnode)) as (_ & Hstore' & Hrec'); [set_solver |].
    cbn [fst snd] in Hstore', Hrec'.
    exists pcontext, presult, pne.
    split; [done |]. split; [by rewrite Hrec' |]. cbv zeta.
    split; [done |].
    unfold store. rewrite Hstore', Hslot, Hout. unfold returnOutputsOf.
    by destruct (objectLike presult).
Qed.

Module SamplePrev.
Import Sample.

Definition aliases : AliasMap := buildAliasMap (nodes SampleChain.chain).

(** The block of [a]: it sets [count] to 3 and returns nothing. *)
Definition counting : Block := fun _ =>
  {| calls := [CallSetNodeOutput "count" (JNum 3)];
     hostStopped := false; settled := inl JUndefined |}.

Definition aNode : WorkflowNode := node "a" "count" [].
Definition bNode : WorkflowNode :=
  node "b" "response" [("msg", JStr "{{prev.count}}")].

(** The states of a run of [chain] after the starter and after [a]. *)
Definition afterStarter : EngineState :=
  (executeNode SampleChain.blocks quietLog quietUpdate SampleChain.chain
     (node "starter" "starter" []) ∅ aliases None
     (prologue quietLog SampleChain.chain no_options
        (initialState SampleChain.chain no_options)).2).2.

Definition afterA : EngineState :=
  (executeNode SampleChain.blocks quietLog quietUpdate SampleChain.chain
     aNode ∅ aliases None afterStarter).2.

(** The context the block of [b] is then called with. *)
Definition bContext : RunContext :=
  buildContext SampleChain.chain bNode ∅ aliases None (atRun bNode afterA).

(** [starter -> a -> b], where [a] returns the bare value 3 and [b] reads
    [{{prev.value}}]. *)
Definition bareChain : Workflow :=
  {| wf_id := "wf"; wf_name := "bare"; starterId := "starter";
     nodes := [node "starter" "starter" []; node "a" "count" [];
               node "b" "response" [("msg", JStr "{{prev.value}}")]];
     edges := [edge "starter" "a"; edge "a" "b"] |}.

Definition bareBlocks (type : string) : option Block :=
  if String.eqb type "starter" then Some (resolving JUndefined)
  else if String.eqb type "count" then Some (resolving (JNum 3))
  else if String.eqb type "response" then Some (resolving JUndefined)
  else None.

End SamplePrev.

(** C3, as stated, fails: the placeholder is not resolved against the
    predecessor's recorded outputs.  When [a] returns the bare value 3, its
    recorded outputs are [{value: 3}], but nothing is put into the Output
    Store and [{{prev.value}}] arrives at [b] as the empty string. *)
Lemma prev_reads_store_not_record :
  let r := executeWorkflow SamplePrev.bareBlocks Sample.quietLog
             Sample.quietUpdate SamplePrev.bareChain ∅ no_options in
  started r.2 = ["starter"; "a"; "b"]
  /\ ne_outputs <$> nodeExecutions (execution r.2) !! "a"
     = Some (Some [("value", JNum 3)])
  /\ inputs <$> last (contexts r.2) = Some (JObj [("msg", JStr "")]).
Proof. vm_compute. repeat split; reflexivity. Qed.

Lemma prev_placeholder_witness :
  Js.get_prop (inputs SamplePrev.bContext) "msg" = JStr "3"
  /\ nodeOutputs SamplePrev.afterA !! "a" = Some [("count", JNum 3)].
Proof.
  pose proof (prev_placeholder SampleChain.blocks Sample.quietLog
                Sample.quietUpdate SampleChain.chain ∅ SamplePrev.aliases
                None SamplePrev.bNode SamplePrev.afterA SamplePrev.bContext
                ltac:(vm_compute; reflexivity)
                ltac:(vm_compute; apply NoDup_singleton))
    as (_ & _ & Hcount & _ & Htie).
  split.
  - apply (Hcount "a" [("count", JNum 3)] "msg");
      [reflexivity | discriminate | vm_compute; reflexivity | reflexivity
      | left].
  - destruct (Htie SamplePrev.aNode SamplePrev.counting
                SamplePrev.afterStarter SamplePrev.afterA ∅ []
                ({["a"]} ∪ ∅) []
                ltac:(vm_compute; reflexivity) eq_refl (rtc_refl _ _))
      as (pcontext & presult & pne & Hres & _ & _ & Hstore).
    injection Hres as <-.
    etrans; [exact Hstore | vm_compute; reflexivity].
Defined.

(* ===================================================================== *)
(** ** Placeholders that name a node *)
(* ===================================================================== *)

(** X10.  For a name that is not empty and not a member of
    [Object.prototype]: the alias map is undefined at it when no node goes
    by it, holds the node's id when exactly one does, and the ambiguity
    marker when two or more do.  A placeholder with that name as its root
    (other than [env] and [prev]) accordingly reads the outputs stored
    under the name itself, under the one node's id, or resolves to the
    empty string. *)
Theorem alias_map_names (ns : list WorkflowNode) (name : string) :
  name <> "" ->
  Js.prototype_text name = None ->
  alias_get (buildAliasMap ns) name
  = match namedNodes name ns with
    | [] => AliasUndefined
    | [n] => AliasId (n_id n)
    | _ :: _ :: _ => AliasNull
    end
  /\ forall env prevId (nodeOutputs : gmap string Obj) expr path,
       splitRoot (Js.trim expr) = (name, path) ->
       name <> "env" -> name <> "prev" ->
       let outputsAt tid :=
         match nodeOutputs !! tid with
         | None => ""
         | Some outputs =>
             printValue (if String.eqb path "" then JObj outputs
                         else getByPath (JObj outputs) path)
         end in
       resolveExpr env prevId nodeOutputs (buildAliasMap ns) expr
       = match namedNodes name ns with
         | [] => outputsAt name
         | [n] => outputsAt (n_id n)
         | _ :: _ :: _ => ""
         end.
Proof.
  intros Hname Hproto.
  assert (Hmap : alias_get (buildAliasMap ns) name
                 = match namedNodes name ns with
                   | [] => AliasUndefined
                   | [n] => AliasId (n_id n)
                   | _ :: _ :: _ => AliasNull
                   end).
  { unfold buildAliasMap. rewrite (aliasMap_fold name ns Hname Hproto ∅).
    assert (Hempty : alias_get ∅ name = AliasUndefined).
    { unfold alias_get. cbn [am_own am_proto AliasMap_empty empty].
      by rewrite lookup_empty, Hproto. }
    rewrite Hempty. by destruct (namedNodes name ns) as [|? [|? ?]]. }
  split; [exact Hmap |].
  intros env prevId nodeOutputs expr path Hsplit Henv Hprev outputsAt.
  rewrite (resolveExpr_alias env prevId nodeOutputs (buildAliasMap ns)
             expr name path Hsplit Hname Henv Hprev).
  rewrite Hmap. by destruct (namedNodes name ns) as [|? [|? ?]].
Qed.

Lemma alias_map_names_witness :
  let outputs : gmap string Obj := {["a" := [("field", JNum 1)]]} in
  let a := Sample.node "a" "http" [("alias", JStr " x ")] in
  let b := Sample.node "b" "http" [("refName", JStr "x")] in
  resolveExpr ∅ None outputs (buildAliasMap [a; b]) "x.field" = ""
  /\ resolveExpr ∅ None outputs (buildAliasMap [a]) "x.field" = "1"
  /\ alias_get (buildAliasMap [a; b]) "http" = AliasUndefined.
Proof.
  intros outputs a b. split; [| split].
  - rewrite (proj2 (alias_map_names [a; b] "x" ltac:(discriminate) eq_refl)
               ∅ None outputs "x.field" "field" eq_refl
               ltac:(discriminate) ltac:(discriminate)).
    vm_compute. reflexivity.
  - rewrite (proj2 (alias_map_names [a] "x" ltac:(discriminate) eq_refl)
               ∅ None outputs "x.field" "field" eq_refl
               ltac:(discriminate) ltac:(discriminate)).
    vm_compute. reflexivity.
  - rewrite (proj1 (alias_map_names [a; b] "http" ltac:(discriminate)
                      eq_refl)).
    vm_compute. reflexivity.
Defined.
